(** * Sistema de gestion polimorfica de sensores IoT: modelo y verificacion

    Shallow embedding of [src/main.cpp]: the generic singly linked list
    [ListaSensor<T>], the sensor hierarchy ([SensorBase],
    [SensorTemperatura], [SensorPresion]), the polymorphic registry
    [ListaGeneral] and [procesarLineaSerial].  Of [main], the calls that
    its options make on the registry are modelled; what it reads from the
    standard input, [menu] and [print_all] are left out.

    Pointers are locations of a finite map (the free store); [NULL] is
    [None].  A method receives its object ([this]) and the memory and returns
    both; dereferencing a pointer that is not allocated, or deleting it, has
    no result ([None]).  A [while] loop over a chain of nodes is bounded by
    the number of allocated cells: a chain that needs more steps is cyclic
    and the loop of the source does not terminate on it. *)

From Stdlib Require Import ZArith Ascii String.
From Stdlib Require Import Floats.SpecFloat.
From stdpp Require Import gmap list fin_maps strings.

Open Scope Z_scope.

(** ** Values: [int] and [float] *)

(** [int]: 32 bits, two's complement, as a [Z] in [-2^31, 2^31).  An
    addition that leaves the range is undefined in C++; the model takes
    the result reduced to 32 bits. *)
Definition int_wrap (z : Z) : Z := (z + 2 ^ 31) mod 2 ^ 32 - 2 ^ 31.
Definition int_add (a b : Z) : Z := int_wrap (a + b).

(** [float]: IEEE 754 binary32, precision 24 and maximal exponent 128. *)
Definition float := spec_float.
Definition f_prec : Z := 24.
Definition f_emax : Z := 128.
Definition float_add : float → float → float := SFadd f_prec f_emax.
Definition float_div : float → float → float := SFdiv f_prec f_emax.
Definition float_ltb : float → float → bool := SFltb.
Definition float_leb : float → float → bool := SFleb.
Definition es_nan (x : float) : bool :=
  match x with S754_nan => true | _ => false end.
Definition float_of_Z (z : Z) : float := binary_normalize f_prec f_emax z 0 false.
(** [(float)n] for a [size_t] and [(float)s] for an [int]. *)
Definition float_of_size (k : nat) : float := float_of_Z (Z.of_nat k).
Definition float_of_int (z : Z) : float := float_of_Z z.
Definition float_zero : float := S754_zero false.

(** ** Console output and deallocation events *)

(** Result of the overloads of [formatNumber]: the conversion and its
    argument. *)
Inductive Formato :=
| Fmt_d (v : Z)          (* "%d" *)
| Fmt_3f (v : float).    (* "%.3f" *)

Inductive Tipo := Temperatura | Presion.

(** One constructor per [printf] of the classes, with its arguments. *)
Inductive Linea :=
| LogNodoLiberado (v : Formato)
| LogInsertando (t : Tipo) (nombre : string)
| ProcesandoSensor (nombre : string) (t : Tipo)
| TempNoHayLecturas
| TempMinimaEliminada (eliminado promedio : float)
| TempPromedioCalculado (n : nat) (promedio : float)
| PresNoHayLecturas
| PresPromedio (promedio : float) (n : nat)
| DestructorSensor (nombre : string) (t : Tipo)
| InfoSensor (nombre : string) (t : Tipo)
| EjecutandoPolimorfismo
| LiberacionEnCascada
| LiberandoNodo (nombre : string)
| SistemaCerrado
| SensoresEnLista (n : nat).

Definition loc := positive.
Abbreviation ptr := (option loc).

Inductive Clase := NodoLectura | ObjSensor | NodoGeneral.

Inductive Evento :=
| Printf (l : Linea)
| Delete (c : Clase) (p : loc).

(** ** ListaSensor<T> *)

Class Lectura (T : Type) := {
  cero : T;                       (* T(0) *)
  suma : T → T → T;               (* operator+= *)
  menor : T → T → bool;           (* operator< *)
  formatNumber : T → Formato
}.

#[export] Instance Lectura_int : Lectura Z :=
  {| cero := 0; suma := int_add; menor := Z.ltb; formatNumber := Fmt_d |}.

#[export] Instance Lectura_float : Lectura float :=
  {| cero := float_zero; suma := float_add; menor := float_ltb;
     formatNumber := Fmt_3f |}.

(** The orders of [T] that [pop_min] is specified for: [<] is a strict
    order (as on [float], where a NaN compares with nothing), or a strict
    total order (as on [int]). *)
Class OrdenEstricto (T : Type) `{!Lectura T} := {
  menor_irrefl : ∀ x : T, menor x x = false;
  menor_trans : ∀ x y z : T, menor x y = true → menor y z = true → menor x z = true
}.

Class OrdenTotal (T : Type) `{!Lectura T} := {
  orden_estricto :: OrdenEstricto T;
  menor_total : ∀ x y : T, menor x y = false → menor y x = false → x = y
}.

Record Nodo (T : Type) := mkNodo { dato : T; siguiente : ptr }.
Arguments mkNodo {T} _ _.
Arguments dato {T} _.
Arguments siguiente {T} _.

(** The object: [cabeza], [cola] and the count [n].  [n] is a [size_t]; it
    counts allocated nodes, which are fewer than [2^64], so it is modelled
    without wrap-around. *)
Record ListaSensor (T : Type) := mkLista { cabeza : ptr; cola : ptr; n : nat }.
Arguments mkLista {T} _ _ _.
Arguments cabeza {T} _.
Arguments cola {T} _.
Arguments n {T} _.

(** The memory a list works on: its free store of nodes and the output. *)
Record Mem (T : Type) := mkMem { nodos : gmap loc (Nodo T); salida : list Evento }.
Arguments mkMem {T} _ _.
Arguments nodos {T} _.
Arguments salida {T} _.

Section Contenedor.
Context {T : Type} `{!Lectura T}.

Definition con_nodos (h : gmap loc (Nodo T)) (m : Mem T) : Mem T :=
  mkMem h (salida m).

Definition emitir (e : Evento) (m : Mem T) : Mem T :=
  mkMem (nodos m) (salida m ++ [e]).

(** [new Nodo(v)]: a location that is not allocated. *)
Definition new_Nodo (v : T) (m : Mem T) : loc * Mem T :=
  let p := fresh (dom (nodos m)) in
  (p, con_nodos (<[p := mkNodo v None]> (nodos m)) m).

(** [delete p] *)
Definition delete_Nodo (p : loc) (m : Mem T) : option (Mem T) :=
  _ ← nodos m !! p;
  Some (emitir (Delete NodoLectura p) (con_nodos (delete p (nodos m)) m)).

(** [p->siguiente = q] *)
Definition set_siguiente (p : loc) (q : ptr) (m : Mem T) : option (Mem T) :=
  nd ← nodos m !! p;
  Some (con_nodos (<[p := mkNodo (dato nd) q]> (nodos m)) m).

Definition ListaSensor_ctor : ListaSensor T := mkLista None None 0.

Definition push_back (v : T) (this : ListaSensor T) (m : Mem T)
  : option (ListaSensor T * Mem T) :=
  let '(nuevo, m) := new_Nodo v m in
  match cabeza this with
  | None => Some (mkLista (Some nuevo) (Some nuevo) (S (n this)), m)
  | Some _ =>
      c ← cola this;
      m ← set_siguiente c (Some nuevo) m;
      Some (mkLista (cabeza this) (Some nuevo) (S (n this)), m)
  end.

Definition size (this : ListaSensor T) : nat := n this.

Fixpoint sum_bucle (fuel : nat) (h : gmap loc (Nodo T)) (s : T) (it : ptr)
  : option T :=
  match it with
  | None => Some s
  | Some p =>
      match fuel with
      | O => None
      | S fuel => nd ← h !! p; sum_bucle fuel h (suma s (dato nd)) (siguiente nd)
      end
  end.

Definition sum (this : ListaSensor T) (m : Mem T) : option T :=
  match cabeza this with
  | None => Some cero
  | Some _ => sum_bucle (base.size (nodos m)) (nodos m) cero (cabeza this)
  end.

(** The scan of [pop_min]: the state is [minPrev], [minNode], [prev],
    [curr]; the result is the final [minPrev] and [minNode]. *)
Fixpoint pop_min_bucle (fuel : nat) (h : gmap loc (Nodo T))
    (minPrev : ptr) (minNode : loc) (prev curr : ptr) : option (ptr * loc) :=
  match curr with
  | None => Some (minPrev, minNode)
  | Some c =>
      match fuel with
      | O => None
      | S fuel =>
          nc ← h !! c;
          nm ← h !! minNode;
          if menor (dato nc) (dato nm)
          then pop_min_bucle fuel h prev c (Some c) (siguiente nc)
          else pop_min_bucle fuel h minPrev minNode (Some c) (siguiente nc)
      end
  end.

(** The unlinking step of [pop_min]: rebinds [cabeza], [cola] and the
    predecessor's [siguiente] around [minNode]. *)
Definition desenlazar (minPrev : ptr) (minNode : loc) (nm : Nodo T)
    (this : ListaSensor T) (m : Mem T) : option (ListaSensor T * Mem T) :=
  match minPrev with
  | None =>
      let cabeza' := siguiente nm in
      Some (mkLista cabeza'
              (if decide (cola this = Some minNode) then cabeza' else cola this)
              (n this), m)
  | Some mp =>
      m ← set_siguiente mp (siguiente nm) m;
      Some (mkLista (cabeza this)
              (if decide (cola this = Some minNode) then Some mp else cola this)
              (n this), m)
  end.

(** [pop_min(outMin)]: the result is the returned flag, [outMin], the
    object and the memory. *)
Definition pop_min (outMin : T) (this : ListaSensor T) (m : Mem T)
  : option (bool * T * ListaSensor T * Mem T) :=
  match cabeza this with
  | None => Some (false, outMin, this, m)
  | Some cab =>
      '(minPrev, minNode) ←
        pop_min_bucle (base.size (nodos m)) (nodos m) None cab None (Some cab);
      nm ← nodos m !! minNode;
      let outMin := dato nm in
      '(this, m) ← desenlazar minPrev minNode nm this m;
      let m := emitir (Printf (LogNodoLiberado (formatNumber outMin))) m in
      m ← delete_Nodo minNode m;
      Some (true, outMin, mkLista (cabeza this) (cola this) (pred (n this)), m)
  end.

Fixpoint clear_bucle (fuel : nat) (m : Mem T) (it : ptr) : option (Mem T) :=
  match it with
  | None => Some m
  | Some p =>
      match fuel with
      | O => None
      | S fuel =>
          nd ← nodos m !! p;
          m ← delete_Nodo p m;
          clear_bucle fuel m (siguiente nd)
      end
  end.

Definition clear (this : ListaSensor T) (m : Mem T)
  : option (ListaSensor T * Mem T) :=
  m ← clear_bucle (base.size (nodos m)) m (cabeza this);
  Some (mkLista None None 0, m).

(** [copiarDesde(other)] for an [other] that is not [*this]: the loop
    reads the nodes of [other] from the memory that [push_back] updates. *)
Fixpoint copiarDesde_bucle (fuel : nat) (this : ListaSensor T) (m : Mem T)
    (it : ptr) : option (ListaSensor T * Mem T) :=
  match it with
  | None => Some (this, m)
  | Some p =>
      match fuel with
      | O => None
      | S fuel =>
          nd ← nodos m !! p;
          '(this, m) ← push_back (dato nd) this m;
          nd ← nodos m !! p;
          copiarDesde_bucle fuel this m (siguiente nd)
      end
  end.

Definition copiarDesde (other : ListaSensor T) (this : ListaSensor T) (m : Mem T)
  : option (ListaSensor T * Mem T) :=
  copiarDesde_bucle (base.size (nodos m)) this m (cabeza other).

(** Copy constructor. *)
Definition ListaSensor_copia (other : ListaSensor T) (m : Mem T)
  : option (ListaSensor T * Mem T) :=
  copiarDesde other (mkLista None None 0) m.

(** Destructor. *)
Definition ListaSensor_dtor (this : ListaSensor T) (m : Mem T)
  : option (ListaSensor T * Mem T) :=
  clear this m.

End Contenedor.

(** ** Representation of a list in memory *)

Section Representacion.
Context {T : Type} `{!Lectura T}.
Implicit Types (h : gmap loc (Nodo T)) (cs : list (loc * T)) (m : Mem T).

(** The chain from [p] to [q]: its cells, each with its location and its
    [dato], in order. *)
Fixpoint lseg h (p : ptr) cs (q : ptr) : Prop :=
  match cs with
  | [] => p = q
  | c :: cs' =>
      p = Some c.1 ∧ ∃ nx, h !! c.1 = Some (mkNodo c.2 nx) ∧ lseg h nx cs' q
  end.

(** The invariant of [ListaSensor<T>]: [cabeza] starts a chain that ends
    in [NULL], [cola] is its last node and [n] its length.  Such a chain
    visits no node twice ([lseg_NoDup]); the invariant keeps that fact at
    hand. *)
Record lista_ok (this : ListaSensor T) m cs : Prop := mk_lista_ok {
  ok_cadena : lseg (nodos m) (cabeza this) cs None;
  ok_cola : cola this = last cs.*1;
  ok_n : n this = length cs;
  ok_nodup : NoDup cs.*1
}.

(** The cells that are allocated before an operation and do not belong
    to the locations [ps] are the same after it. *)
Definition marco (ps : list loc) h h' : Prop :=
  ∀ b, b ∉ ps → is_Some (h !! b) → h' !! b = h !! b.

(** The scan of [pop_min] told on the cells of the chain: [cm] is the
    cell selected so far, [pre] and [post] the cells visited before and
    after it, [rest] the cells still to visit. *)
Fixpoint escanear (pre : list (loc * T)) (cm : loc * T) (post rest : list (loc * T))
  : list (loc * T) * (loc * T) * list (loc * T) :=
  match rest with
  | [] => (pre, cm, post)
  | c :: rest =>
      if menor c.2 cm.2
      then escanear (pre ++ cm :: post) c [] rest
      else escanear pre cm (post ++ [c]) rest
  end.

Definition seleccion cs : option (list (loc * T) * (loc * T) * list (loc * T)) :=
  match cs with
  | [] => None
  | c :: rest => Some (escanear [] c [] rest)
  end.

End Representacion.

(** ** C strings and the conversions of [sscanf] *)

(** A [const char*] is the list of its characters; the text it denotes ends
    at the first [NUL] (or at the end of the list, where the terminator
    stands). *)
Definition NUL : ascii := "000"%char.

Fixpoint c_str (s : list ascii) : list ascii :=
  match s with
  | [] => []
  | c :: s' => if decide (c = NUL) then [] else c :: c_str s'
  end.

Definition strlen (s : list ascii) : nat := length (c_str s).

(** [strncpy(dst, src, count)]: the [count] characters written to [dst]. *)
Fixpoint strncpy (src : list ascii) (count : nat) : list ascii :=
  match count with
  | O => []
  | S k =>
      match src with
      | [] => replicate (S k) NUL
      | c :: src' =>
          if decide (c = NUL) then replicate (S k) NUL else c :: strncpy src' k
      end
  end.

Definition codigo (c : ascii) : Z := Z.of_N (N_of_ascii c).

Fixpoint strcmp (a b : list ascii) : Z :=
  match a, b with
  | [], [] => 0
  | [], cb :: _ => 0 - codigo cb
  | ca :: _, [] => codigo ca - 0
  | ca :: a', cb :: b' =>
      if decide (ca = cb)
      then (if decide (ca = NUL) then 0 else strcmp a' b')
      else codigo ca - codigo cb
  end.

(** The two conversions that the sensors ask of [sscanf]: the value read,
    or [None] when [sscanf] does not return 1. *)
Class Libc := {
  sscanf_f : list ascii → option float;    (* sscanf(texto, "%f", &v) *)
  sscanf_d : list ascii → option Z         (* sscanf(texto, "%d", &v) *)
}.

(** *** The decimal grammar of the two conversions *)

Definition isspace (c : ascii) : bool :=
  bool_decide (codigo c = 32 ∨ 9 ≤ codigo c ≤ 13).

Definition digito (c : ascii) : option Z :=
  if bool_decide (48 ≤ codigo c ≤ 57) then Some (codigo c - 48) else None.

Fixpoint saltar_espacios (s : list ascii) : list ascii :=
  match s with
  | c :: s' => if isspace c then saltar_espacios s' else s
  | [] => []
  end.

(** Sign: [true] for a leading minus. *)
Definition leer_signo (s : list ascii) : bool * list ascii :=
  match s with
  | c :: s' =>
      if decide (c = "-"%char) then (true, s')
      else if decide (c = "+"%char) then (false, s')
      else (false, s)
  | [] => (false, s)
  end.

(** The longest run of decimal digits: its value after [acc], how many
    digits it has, and what follows. *)
Fixpoint leer_digitos (acc : Z) (k : nat) (s : list ascii) : Z * nat * list ascii :=
  match s with
  | c :: s' =>
      match digito c with
      | Some d => leer_digitos (10 * acc + d) (S k) s'
      | None => (acc, k, s)
      end
  | [] => (acc, k, s)
  end.

(** ["%d"]: white space, an optional sign, one digit or more; what follows
    is left unread.  A value out of the range of [int] is stored reduced to
    32 bits. *)
Definition scan_d (s : list ascii) : option Z :=
  let '(neg, s) := leer_signo (saltar_espacios s) in
  let '(v, k, _) := leer_digitos 0 0 s in
  if decide (k = O) then None else Some (int_wrap (if neg then - v else v)).

Definition minuscula (c : ascii) : ascii :=
  if bool_decide (65 ≤ codigo c ≤ 90)
  then ascii_of_N (N_of_ascii c + 32) else c.

Fixpoint empieza_por (pal s : list ascii) : bool :=
  match pal, s with
  | [], _ => true
  | p :: pal', c :: s' => bool_decide (p = minuscula c) && empieza_por pal' s'
  | _ :: _, [] => false
  end.

(** The exponent part: [e], an optional sign and one digit or more; absent
    or incomplete, it counts as zero. *)
Definition leer_exponente (s : list ascii) : Z :=
  match s with
  | c :: s' =>
      if decide (minuscula c = "e"%char) then
        let '(neg, s'') := leer_signo s' in
        let '(v, k, _) := leer_digitos 0 0 s'' in
        if decide (k = O) then 0 else if neg then - v else v
      else 0
  | [] => 0
  end.

(** The [float] nearest to [(-1)^neg * m * 10^e]. *)
Definition float_decimal (neg : bool) (m : Z) (e : Z) : float :=
  match m with
  | Zpos p =>
      if bool_decide (0 ≤ e)
      then binary_normalize f_prec f_emax ((if neg then -1 else 1) * (m * 10 ^ e)) 0 neg
      else float_div (S754_finite neg p 0)
                     (S754_finite false (Z.to_pos (10 ^ (- e))) 0)
  | _ => S754_zero neg
  end.

(** ["%f"]: white space, an optional sign, then [inf], [infinity] or [nan]
    in any case, or decimal digits with an optional point and an optional
    exponent, one digit at least.  The hexadecimal forms are read as their
    decimal prefix. *)
Definition scan_f (s : list ascii) : option float :=
  let '(neg, s) := leer_signo (saltar_espacios s) in
  if empieza_por (list_ascii_of_string "inf") s then Some (S754_infinity neg)
  else if empieza_por (list_ascii_of_string "nan") s then Some S754_nan
  else
    let '(ent, k1, s) := leer_digitos 0 0 s in
    let '(m, k2, s) :=
      match s with
      | c :: s' =>
          if decide (c = "."%char) then leer_digitos ent 0 s' else (ent, O, s)
      | [] => (ent, O, s)
      end in
    if decide ((k1 + k2)%nat = O) then None
    else Some (float_decimal neg m (leer_exponente s - Z.of_nat k2)).

Definition libc_decimal : Libc := {| sscanf_f := scan_f; sscanf_d := scan_d |}.

Definition texto (s : string) : list ascii := list_ascii_of_string s.

(** ** The sensors *)

(** [char nombre[50]] *)
Definition TAM_NOMBRE : nat := 50.

(** [SensorBase::SensorBase(id)]: the contents of [nombre]. *)
Definition SensorBase_ctor (id : list ascii) : list ascii :=
  <[(TAM_NOMBRE - 1)%nat := NUL]> (strncpy id TAM_NOMBRE).

Record SensorTemperatura := mkTemp {
  nombre_T : list ascii;
  historial_T : ListaSensor float
}.

Record SensorPresion := mkPres {
  nombre_P : list ascii;
  historial_P : ListaSensor Z
}.

(** An object behind a [SensorBase*]: its dynamic type and its members. *)
Inductive SensorBase :=
| EsTemperatura (s : SensorTemperatura)
| EsPresion (s : SensorPresion).

Definition getNombre (s : SensorBase) : list ascii :=
  match s with
  | EsTemperatura t => nombre_T t
  | EsPresion p => nombre_P p
  end.

Definition tipo_de (s : SensorBase) : Tipo :=
  match s with
  | EsTemperatura _ => Temperatura
  | EsPresion _ => Presion
  end.

(** [printf("%s", nombre)] prints the text of the array. *)
Definition impreso (nombre : list ascii) : string :=
  string_of_list_ascii (c_str nombre).

Section Sensores.
Context `{!Libc}.

(** *** SensorTemperatura *)

Definition SensorTemperatura_ctor (id : list ascii) : SensorTemperatura :=
  mkTemp (SensorBase_ctor id) ListaSensor_ctor.

Definition SensorTemperatura_agregar (v : float) (this : SensorTemperatura)
    (m : Mem float) : option (SensorTemperatura * Mem float) :=
  let m := emitir (Printf (LogInsertando Temperatura (impreso (nombre_T this)))) m in
  '(h, m) ← push_back v (historial_T this) m;
  Some (mkTemp (nombre_T this) h, m).

(** [texto] is [None] for a null pointer. *)
Definition SensorTemperatura_registrarDesdeTexto (texto : option (list ascii))
    (this : SensorTemperatura) (m : Mem float)
  : option (bool * SensorTemperatura * Mem float) :=
  match texto with
  | None => Some (false, this, m)
  | Some t =>
      match sscanf_f t with
      | Some v =>
          '(this, m) ← SensorTemperatura_agregar v this m;
          Some (true, this, m)
      | None => Some (false, this, m)
      end
  end.

(** [(n > 0) ? (historial.sum() / (float)n) : 0.0f] *)
Definition promedio_float (h : ListaSensor float) (m : Mem float) : option float :=
  let n := size h in
  if decide (0 < n)%nat
  then s ← sum h m; Some (float_div s (float_of_size n))
  else Some float_zero.

Definition SensorTemperatura_procesarLectura (this : SensorTemperatura)
    (m : Mem float) : option (SensorTemperatura * Mem float) :=
  let m := emitir (Printf (ProcesandoSensor (impreso (nombre_T this)) Temperatura)) m in
  if decide (size (historial_T this) = O) then
    Some (this, emitir (Printf TempNoHayLecturas) m)
  else
    let eliminado := float_zero in
    '(ok, eliminado, h, m) ← pop_min eliminado (historial_T this) m;
    let this := mkTemp (nombre_T this) h in
    if ok : bool then
      promedio ← promedio_float h m;
      Some (this, emitir (Printf (TempMinimaEliminada eliminado promedio)) m)
    else
      promedio ← promedio_float h m;
      Some (this, emitir (Printf (TempPromedioCalculado (size h) promedio)) m).

Definition SensorTemperatura_imprimirInfo (this : SensorTemperatura)
    (m : Mem float) : Mem float :=
  emitir (Printf (InfoSensor (impreso (nombre_T this)) Temperatura)) m.

(** [~SensorTemperatura]: its body, then the destructor of [historial]. *)
Definition SensorTemperatura_dtor (this : SensorTemperatura) (m : Mem float)
  : option (SensorTemperatura * Mem float) :=
  let m := emitir (Printf (DestructorSensor (impreso (nombre_T this)) Temperatura)) m in
  '(h, m) ← ListaSensor_dtor (historial_T this) m;
  Some (mkTemp (nombre_T this) h, m).

(** *** SensorPresion *)

Definition SensorPresion_ctor (id : list ascii) : SensorPresion :=
  mkPres (SensorBase_ctor id) ListaSensor_ctor.

Definition SensorPresion_agregar (v : Z) (this : SensorPresion)
    (m : Mem Z) : option (SensorPresion * Mem Z) :=
  let m := emitir (Printf (LogInsertando Presion (impreso (nombre_P this)))) m in
  '(h, m) ← push_back v (historial_P this) m;
  Some (mkPres (nombre_P this) h, m).

Definition SensorPresion_registrarDesdeTexto (texto : option (list ascii))
    (this : SensorPresion) (m : Mem Z)
  : option (bool * SensorPresion * Mem Z) :=
  match texto with
  | None => Some (false, this, m)
  | Some t =>
      match sscanf_d t with
      | Some v =>
          '(this, m) ← SensorPresion_agregar v this m;
          Some (true, this, m)
      | None => Some (false, this, m)
      end
  end.

Definition SensorPresion_procesarLectura (this : SensorPresion)
    (m : Mem Z) : option (SensorPresion * Mem Z) :=
  let m := emitir (Printf (ProcesandoSensor (impreso (nombre_P this)) Presion)) m in
  let n := size (historial_P this) in
  if decide (n = O) then
    Some (this, emitir (Printf PresNoHayLecturas) m)
  else
    s ← sum (historial_P this) m;
    let promedio := float_div (float_of_int s) (float_of_size n) in
    Some (this, emitir (Printf (PresPromedio promedio n)) m).

Definition SensorPresion_imprimirInfo (this : SensorPresion) (m : Mem Z) : Mem Z :=
  emitir (Printf (InfoSensor (impreso (nombre_P this)) Presion)) m.

Definition SensorPresion_dtor (this : SensorPresion) (m : Mem Z)
  : option (SensorPresion * Mem Z) :=
  let m := emitir (Printf (DestructorSensor (impreso (nombre_P this)) Presion)) m in
  '(h, m) ← ListaSensor_dtor (historial_P this) m;
  Some (mkPres (nombre_P this) h, m).

(** [k] calls of [procesarLectura] in a row. *)
Fixpoint Temperatura_procesar_veces (k : nat) (this : SensorTemperatura)
    (m : Mem float) : option (SensorTemperatura * Mem float) :=
  match k with
  | O => Some (this, m)
  | S k =>
      '(this, m) ← SensorTemperatura_procesarLectura this m;
      Temperatura_procesar_veces k this m
  end.

Fixpoint Presion_procesar_veces (k : nat) (this : SensorPresion)
    (m : Mem Z) : option (SensorPresion * Mem Z) :=
  match k with
  | O => Some (this, m)
  | S k =>
      '(this, m) ← SensorPresion_procesarLectura this m;
      Presion_procesar_veces k this m
  end.

(** The readings of [textos], fed in order; the result tells whether all
    were accepted. *)
Fixpoint Temperatura_registrar_todos (textos : list (list ascii))
    (this : SensorTemperatura) (m : Mem float)
  : option (bool * SensorTemperatura * Mem float) :=
  match textos with
  | [] => Some (true, this, m)
  | t :: textos =>
      '(ok, this, m) ← SensorTemperatura_registrarDesdeTexto (Some t) this m;
      '(oks, this, m) ← Temperatura_registrar_todos textos this m;
      Some (ok && oks, this, m)
  end.

Fixpoint Presion_registrar_todos (textos : list (list ascii))
    (this : SensorPresion) (m : Mem Z)
  : option (bool * SensorPresion * Mem Z) :=
  match textos with
  | [] => Some (true, this, m)
  | t :: textos =>
      '(ok, this, m) ← SensorPresion_registrarDesdeTexto (Some t) this m;
      '(oks, this, m) ← Presion_registrar_todos textos this m;
      Some (ok && oks, this, m)
  end.

(** What the shell does to a sensor after it is constructed. *)
Inductive Accion :=
| AccRegistrar (texto : option (list ascii))
| AccProcesar.

Fixpoint Temperatura_acciones (acs : list Accion) (this : SensorTemperatura)
    (m : Mem float) : option (SensorTemperatura * Mem float) :=
  match acs with
  | [] => Some (this, m)
  | AccRegistrar t :: acs =>
      '(_, this, m) ← SensorTemperatura_registrarDesdeTexto t this m;
      Temperatura_acciones acs this m
  | AccProcesar :: acs =>
      '(this, m) ← SensorTemperatura_procesarLectura this m;
      Temperatura_acciones acs this m
  end.

End Sensores.

(** The first line that [procesarLectura] prints. *)
Definition linea_procesando_T (this : SensorTemperatura) : Evento :=
  Printf (ProcesandoSensor (impreso (nombre_T this)) Temperatura).
Definition linea_procesando_P (this : SensorPresion) : Evento :=
  Printf (ProcesandoSensor (impreso (nombre_P this)) Presion).

(** The averages that the sensors report, told on the list of readings. *)
Definition promedio_de (vs : list float) : float :=
  match vs with
  | [] => float_zero
  | _ => float_div (foldl float_add float_zero vs) (float_of_size (length vs))
  end.

Definition suma_int (vs : list Z) : Z := foldr Z.add 0 vs.

Definition promedio_presion (vs : list Z) : float :=
  float_div (float_of_int (int_wrap (suma_int vs))) (float_of_size (length vs)).

(** ** The registry: ListaGeneral *)

(** [ListaGeneral::Nodo] has the fields of a [Nodo<SensorBase*>]: the
    pointer [sensor] is its [dato].  [ListaGeneral] has the members of a
    list of them. *)
Abbreviation NodoG := (Nodo ptr).
Abbreviation ListaGeneral := (ListaSensor ptr).

(** The whole memory: the nodes of the lists of [float] and of [int], the
    sensor objects, the nodes of the registry, and the output. *)
Record Mundo := mkMundo {
  nodos_f : gmap loc (Nodo float);
  nodos_i : gmap loc (Nodo Z);
  sensores : gmap loc SensorBase;
  nodos_g : gmap loc NodoG;
  consola : list Evento
}.

Definition mem_f (w : Mundo) : Mem float := mkMem (nodos_f w) (consola w).
Definition mem_i (w : Mundo) : Mem Z := mkMem (nodos_i w) (consola w).
Definition mem_g (w : Mundo) : Mem ptr := mkMem (nodos_g w) (consola w).

Definition con_mem_f (m : Mem float) (w : Mundo) : Mundo :=
  mkMundo (nodos m) (nodos_i w) (sensores w) (nodos_g w) (salida m).
Definition con_mem_i (m : Mem Z) (w : Mundo) : Mundo :=
  mkMundo (nodos_f w) (nodos m) (sensores w) (nodos_g w) (salida m).
Definition con_mem_g (m : Mem ptr) (w : Mundo) : Mundo :=
  mkMundo (nodos_f w) (nodos_i w) (sensores w) (nodos m) (salida m).
Definition con_sensores (ss : gmap loc SensorBase) (w : Mundo) : Mundo :=
  mkMundo (nodos_f w) (nodos_i w) ss (nodos_g w) (consola w).
Definition imprimir (l : Linea) (w : Mundo) : Mundo :=
  mkMundo (nodos_f w) (nodos_i w) (sensores w) (nodos_g w) (consola w ++ [Printf l]).
Definition registrar_evento (e : Evento) (w : Mundo) : Mundo :=
  mkMundo (nodos_f w) (nodos_i w) (sensores w) (nodos_g w) (consola w ++ [e]).

Definition mundo_vacio : Mundo := mkMundo ∅ ∅ ∅ ∅ [].

Section Registro.
Context `{!Libc}.

(** *** The virtual methods, by dynamic type *)

Definition registrarDesdeTexto (texto : option (list ascii)) (this : SensorBase)
    (w : Mundo) : option (bool * SensorBase * Mundo) :=
  match this with
  | EsTemperatura t =>
      '(ok, t, m) ← SensorTemperatura_registrarDesdeTexto texto t (mem_f w);
      Some (ok, EsTemperatura t, con_mem_f m w)
  | EsPresion p =>
      '(ok, p, m) ← SensorPresion_registrarDesdeTexto texto p (mem_i w);
      Some (ok, EsPresion p, con_mem_i m w)
  end.

Definition procesarLectura (this : SensorBase) (w : Mundo)
  : option (SensorBase * Mundo) :=
  match this with
  | EsTemperatura t =>
      '(t, m) ← SensorTemperatura_procesarLectura t (mem_f w);
      Some (EsTemperatura t, con_mem_f m w)
  | EsPresion p =>
      '(p, m) ← SensorPresion_procesarLectura p (mem_i w);
      Some (EsPresion p, con_mem_i m w)
  end.

Definition imprimirInfo (this : SensorBase) (w : Mundo) : Mundo :=
  match this with
  | EsTemperatura t => con_mem_f (SensorTemperatura_imprimirInfo t (mem_f w)) w
  | EsPresion p => con_mem_i (SensorPresion_imprimirInfo p (mem_i w)) w
  end.

(** The virtual destructor. *)
Definition destructor (this : SensorBase) (w : Mundo) : option Mundo :=
  match this with
  | EsTemperatura t =>
      '(_, m) ← SensorTemperatura_dtor t (mem_f w); Some (con_mem_f m w)
  | EsPresion p =>
      '(_, m) ← SensorPresion_dtor p (mem_i w); Some (con_mem_i m w)
  end.

(** The object that [SensorTemperatura(id)] or [SensorPresion(id)]
    constructs. *)
Definition sensor_nuevo (t : Tipo) (id : list ascii) : SensorBase :=
  match t with
  | Temperatura => EsTemperatura (SensorTemperatura_ctor id)
  | Presion => EsPresion (SensorPresion_ctor id)
  end.

(** [new SensorTemperatura(id)] and [new SensorPresion(id)] *)
Definition new_Sensor (t : Tipo) (id : list ascii) (w : Mundo) : loc * Mundo :=
  let a := fresh (dom (sensores w)) in
  (a, con_sensores (<[a := sensor_nuevo t id]> (sensores w)) w).

(** [delete sp]: the destructor runs, then the object is released; nothing
    happens for a null pointer. *)
Definition delete_Sensor (sp : ptr) (w : Mundo) : option Mundo :=
  match sp with
  | None => Some w
  | Some a =>
      s ← sensores w !! a;
      w ← destructor s w;
      Some (registrar_evento (Delete ObjSensor a)
              (con_sensores (delete a (sensores w)) w))
  end.

(** [delete it] for a node of the registry. *)
Definition delete_NodoG (p : loc) (w : Mundo) : option Mundo :=
  _ ← nodos_g w !! p;
  Some (registrar_evento (Delete NodoGeneral p)
          (con_mem_g (mkMem (delete p (nodos_g w)) (consola w)) w)).

(** *** ListaGeneral *)

Definition ListaGeneral_ctor : ListaGeneral := mkLista None None 0.

Definition ListaGeneral_push_back (s : ptr) (this : ListaGeneral) (w : Mundo)
  : option (ListaGeneral * Mundo) :=
  '(this, m) ← push_back s this (mem_g w);
  Some (this, con_mem_g m w).

Fixpoint buscarPorNombre_bucle (fuel : nat) (w : Mundo) (id : list ascii)
    (it : ptr) : option ptr :=
  match it with
  | None => Some None
  | Some p =>
      match fuel with
      | O => None
      | S fuel =>
          nd ← nodos_g w !! p;
          a ← dato nd;
          s ← sensores w !! a;
          if decide (strcmp (getNombre s) id = 0)
          then Some (dato nd)
          else buscarPorNombre_bucle fuel w id (siguiente nd)
      end
  end.

Definition buscarPorNombre (id : list ascii) (this : ListaGeneral) (w : Mundo)
  : option ptr :=
  buscarPorNombre_bucle (base.size (nodos_g w)) w id (cabeza this).

Fixpoint procesarTodos_bucle (fuel : nat) (w : Mundo) (it : ptr) : option Mundo :=
  match it with
  | None => Some w
  | Some p =>
      match fuel with
      | O => None
      | S fuel =>
          nd ← nodos_g w !! p;
          a ← dato nd;
          s ← sensores w !! a;
          '(s, w) ← procesarLectura s w;
          let w := con_sensores (<[a := s]> (sensores w)) w in
          nd ← nodos_g w !! p;
          procesarTodos_bucle fuel w (siguiente nd)
      end
  end.

Definition procesarTodos (this : ListaGeneral) (w : Mundo) : option Mundo :=
  let w := imprimir EjecutandoPolimorfismo w in
  procesarTodos_bucle (base.size (nodos_g w)) w (cabeza this).

Fixpoint liberarTodo_bucle (fuel : nat) (w : Mundo) (it : ptr) : option Mundo :=
  match it with
  | None => Some w
  | Some p =>
      match fuel with
      | O => None
      | S fuel =>
          nd ← nodos_g w !! p;
          let nxt := siguiente nd in
          a ← dato nd;
          s ← sensores w !! a;
          let w := imprimir (LiberandoNodo (impreso (getNombre s))) w in
          w ← delete_Sensor (dato nd) w;
          w ← delete_NodoG p w;
          liberarTodo_bucle fuel w nxt
      end
  end.

Definition liberarTodo (this : ListaGeneral) (w : Mundo)
  : option (ListaGeneral * Mundo) :=
  match cabeza this with
  | None => Some (this, w)
  | Some _ =>
      let w := imprimir LiberacionEnCascada w in
      w ← liberarTodo_bucle (base.size (nodos_g w)) w (cabeza this);
      Some (mkLista None None 0, imprimir SistemaCerrado w)
  end.

Fixpoint imprimirResumen_bucle (fuel : nat) (w : Mundo) (it : ptr) : option Mundo :=
  match it with
  | None => Some w
  | Some p =>
      match fuel with
      | O => None
      | S fuel =>
          nd ← nodos_g w !! p;
          a ← dato nd;
          s ← sensores w !! a;
          imprimirResumen_bucle fuel (imprimirInfo s w) (siguiente nd)
      end
  end.

Definition imprimirResumen (this : ListaGeneral) (w : Mundo) : option Mundo :=
  let w := imprimir (SensoresEnLista (n this)) w in
  imprimirResumen_bucle (base.size (nodos_g w)) w (cabeza this).

(** [~ListaGeneral] *)
Definition ListaGeneral_dtor (this : ListaGeneral) (w : Mundo)
  : option (ListaGeneral * Mundo) :=
  liberarTodo this w.

(** Options 1 and 2 of [main]: the sensor is created and appended to the
    registry.  The result has the pointer to the new sensor. *)
Definition crear_sensor (t : Tipo) (id : list ascii) (this : ListaGeneral)
    (w : Mundo) : option (loc * ListaGeneral * Mundo) :=
  let '(a, w) := new_Sensor t id w in
  '(this, w) ← ListaGeneral_push_back (Some a) this w;
  Some (a, this, w).

End Registro.

(** ** The invariant of the registry *)

(** One entry of the registry: its node, the address of its sensor, the
    sensor, and the locations of the nodes of the sensor's list. *)
Record Entrada := mkEntrada {
  e_nodo : loc;
  e_dir : loc;
  e_sensor : SensorBase;
  e_celdas : list loc
}.

(** The list of the sensor is well formed, on the nodes [celdas]. *)
Definition historial_ok (s : SensorBase) (w : Mundo) (celdas : list loc) : Prop :=
  match s with
  | EsTemperatura t => ∃ cs, lista_ok (historial_T t) (mem_f w) cs ∧ cs.*1 = celdas
  | EsPresion p => ∃ cs, lista_ok (historial_P p) (mem_i w) cs ∧ cs.*1 = celdas
  end.

Definition sensor_en (w : Mundo) (e : Entrada) : Prop :=
  sensores w !! e_dir e = Some (e_sensor e) ∧
  historial_ok (e_sensor e) w (e_celdas e).

#[export] Instance Tipo_eq_dec : EqDecision Tipo.
Proof. solve_decision. Defined.

(** The nodes that an entry owns among those of the lists of type [t]. *)
Definition celdas_propias (t : Tipo) (e : Entrada) : list loc :=
  if decide (tipo_de (e_sensor e) = t) then e_celdas e else [].

(** The nodes of the lists of the sensors of one type. *)
Fixpoint celdas_de (t : Tipo) (es : list Entrada) : list loc :=
  match es with
  | [] => []
  | e :: es => celdas_propias t e ++ celdas_de t es
  end.

(** The cells of the chain of the registry. *)
Definition celdas_registro (es : list Entrada) : list (loc * ptr) :=
  (λ e, (e_nodo e, Some (e_dir e))) <$> es.

(** The registry owns its sensors: the chain has one node per entry, in
    insertion order; every sensor is allocated, at an address of its own,
    and its list is well formed, on nodes of its own. *)
Record registro_ok (this : ListaGeneral) (w : Mundo) (es : list Entrada) : Prop :=
  mk_registro_ok {
    reg_lista : lista_ok this (mem_g w) (celdas_registro es);
    reg_sensores : Forall (sensor_en w) es;
    reg_dirs : NoDup (e_dir <$> es);
    reg_celdas_f : NoDup (celdas_de Temperatura es);
    reg_celdas_i : NoDup (celdas_de Presion es)
  }.

(** The identifier of an entry, as text. *)
Definition nombre_de (e : Entrada) : list ascii := c_str (getNombre (e_sensor e)).

Definition coincide (id : list ascii) (e : Entrada) : bool :=
  bool_decide (nombre_de e = c_str id).

(** What the release of one entry prints and deletes, in order. *)
Definition eventos_liberacion (e : Entrada) : list Evento :=
  [Printf (LiberandoNodo (impreso (getNombre (e_sensor e))));
   Printf (DestructorSensor (impreso (getNombre (e_sensor e))) (tipo_de (e_sensor e)))]
  ++ (Delete NodoLectura <$> e_celdas e)
  ++ [Delete ObjSensor (e_dir e); Delete NodoGeneral (e_nodo e)].

(** The sensors that the events of [evs] delete, in order. *)
Definition sensores_eliminados (evs : list Evento) : list loc :=
  omap (λ ev, match ev with Delete ObjSensor a => Some a | _ => None end) evs.

(** ** Lists as objects with an address: copy assignment *)

Section Asignacion.
Context {T : Type}.

(** [this->operator=(other)] for two objects of the store [objs], given by
    their addresses: [this != &other] compares the addresses. *)
Definition operator_asignar (this other : loc)
    (objs : gmap loc (ListaSensor T)) (m : Mem T)
  : option (gmap loc (ListaSensor T) * Mem T) :=
  if decide (this ≠ other) then
    t ← objs !! this;
    '(t, m) ← clear t m;
    let objs := <[this := t]> objs in
    o ← objs !! other;
    '(t, m) ← copiarDesde o t m;
    Some (<[this := t]> objs, m)
  else Some (objs, m).

End Asignacion.

(** ** Sequences of operations on one list *)

Inductive Operacion (T : Type) :=
| OpPushBack (v : T)
| OpPopMin
| OpClear.
Arguments OpPushBack {T} _.
Arguments OpPopMin {T}.
Arguments OpClear {T}.

(** What an operation did: an append, a [pop_min] and what it returned, a
    [clear] and how many elements it released. *)
Inductive Hecho :=
| HechoPushBack
| HechoPopMin (ok : bool)
| HechoClear (liberados : nat).

Section Secuencias.
Context {T : Type} `{!Lectura T}.

Definition ejecutar (op : Operacion T) (this : ListaSensor T) (m : Mem T)
  : option (Hecho * ListaSensor T * Mem T) :=
  match op with
  | OpPushBack v =>
      '(this, m) ← push_back v this m; Some (HechoPushBack, this, m)
  | OpPopMin =>
      '(ok, _, this, m) ← pop_min cero this m; Some (HechoPopMin ok, this, m)
  | OpClear =>
      let k := size this in
      '(this, m) ← clear this m; Some (HechoClear k, this, m)
  end.

Fixpoint ejecutar_todas (ops : list (Operacion T)) (this : ListaSensor T) (m : Mem T)
  : option (list Hecho * ListaSensor T * Mem T) :=
  match ops with
  | [] => Some ([], this, m)
  | op :: ops =>
      '(r, this, m) ← ejecutar op this m;
      '(rs, this, m) ← ejecutar_todas ops this m;
      Some (r :: rs, this, m)
  end.

End Secuencias.

Definition es_push_back (r : Hecho) : bool :=
  match r with HechoPushBack => true | _ => false end.
Definition es_pop_min_ok (r : Hecho) : bool :=
  match r with HechoPopMin true => true | _ => false end.
Definition es_clear (r : Hecho) : bool :=
  match r with HechoClear _ => true | _ => false end.
Definition liberados_por (r : Hecho) : nat :=
  match r with
  | HechoPushBack => 0
  | HechoPopMin ok => if ok then 1 else 0
  | HechoClear k => k
  end.

Definition cuenta (f : Hecho → bool) (rs : list Hecho) : Z :=
  Z.of_nat (length (List.filter f rs)).

(** The elements that the operations of [rs] removed. *)
Definition eliminados (rs : list Hecho) : Z :=
  Z.of_nat (foldr (λ r k, (liberados_por r + k)%nat) O rs).

(** ** Independent copies *)

Section Copias.
Context {T : Type} `{!Lectura T}.

(** In [m], [D] with the cells [ds] is a copy of [C] with the cells [cs]:
    the same values in the same order, in nodes of its own. *)
Definition es_copia (C D : ListaSensor T) (cs ds : list (loc * T)) (m : Mem T) : Prop :=
  lista_ok C m cs ∧ lista_ok D m ds ∧
  ds.*2 = cs.*2 ∧ (∀ a, a ∈ ds.*1 → a ∉ cs.*1) ∧
  sum D m = sum C m ∧ size D = size C.

(** No sequence of operations on [A] changes [B]: every one of them runs,
    and [B] has the same cells after it. *)
Definition no_altera (A B : ListaSensor T) (bs : list (loc * T)) (m : Mem T) : Prop :=
  ∀ ops : list (Operacion T),
    ∃ rs A' m',
      ejecutar_todas ops A m = Some (rs, A', m') ∧
      lista_ok B m' bs ∧ sum B m' = sum B m ∧ size B = length bs.

End Copias.

(** ** Concrete states used as examples *)

(** A list of [int] with the readings 5, 2, 2 at the locations 1, 2, 3. *)
Definition lista_522 : ListaSensor Z := mkLista (Some 1%positive) (Some 3%positive) 3.
Definition mem_522 : Mem Z :=
  mkMem (list_to_map [(1%positive, mkNodo 5 (Some 2%positive));
                      (2%positive, mkNodo 2 (Some 3%positive));
                      (3%positive, mkNodo 2 None)]) [].
Definition celdas_522 : list (loc * Z) :=
  [(1%positive, 5); (2%positive, 2); (3%positive, 2)].

(** The scenario of the Temperature sensor: "T-001" after the readings
    "10.0", "2.0" and "7.0", read with the decimal grammar. *)
Definition memoria_vacia {T : Type} : Mem T := mkMem ∅ [].

Definition escenario_T001
  : option (bool * SensorTemperatura * Mem float) :=
  @Temperatura_registrar_todos libc_decimal
    [texto "10.0"; texto "2.0"; texto "7.0"]
    (SensorTemperatura_ctor (texto "T-001")) memoria_vacia.

(** The scenario of the Pressure sensor: "P-001" after "80" and "90". *)
Definition escenario_P001
  : option (bool * SensorPresion * Mem Z) :=
  @Presion_registrar_todos libc_decimal
    [texto "80"; texto "90"]
    (SensorPresion_ctor (texto "P-001")) memoria_vacia.

(** 2.0, 8.5 and 85.0 as [float]: mantissa and exponent. *)
Definition float_2_0 : float := S754_finite false 8388608 (-22).
Definition float_8_5 : float := S754_finite false 8912896 (-20).
Definition float_85_0 : float := S754_finite false 11141120 (-17).
Definition float_10_0 : float := S754_finite false 10485760 (-20).
Definition float_7_0 : float := S754_finite false 14680064 (-21).

(** The state that the scenario of "T-001" reaches. *)
Definition sensor_T001 : SensorTemperatura :=
  mkTemp (SensorBase_ctor (texto "T-001"))
         (mkLista (Some 1%positive) (Some 3%positive) 3).
Definition celdas_T001 : list (loc * float) :=
  [(1%positive, float_10_0); (2%positive, float_2_0); (3%positive, float_7_0)].
Definition mem_T001 : Mem float :=
  mkMem (list_to_map [(1%positive, mkNodo float_10_0 (Some 2%positive));
                      (2%positive, mkNodo float_2_0 (Some 3%positive));
                      (3%positive, mkNodo float_7_0 None)])
        [Printf (LogInsertando Temperatura "T-001");
         Printf (LogInsertando Temperatura "T-001");
         Printf (LogInsertando Temperatura "T-001")].

(** The state that the scenario of "P-001" reaches. *)
Definition sensor_P001 : SensorPresion :=
  mkPres (SensorBase_ctor (texto "P-001"))
         (mkLista (Some 1%positive) (Some 2%positive) 2).
Definition celdas_P001 : list (loc * Z) := [(1%positive, 80); (2%positive, 90)].
Definition mem_P001 : Mem Z :=
  mkMem (list_to_map [(1%positive, mkNodo 80 (Some 2%positive));
                      (2%positive, mkNodo 90 None)])
        [Printf (LogInsertando Presion "P-001");
         Printf (LogInsertando Presion "P-001")].

(** A registry with two sensors of the same identifier "S-1", a
    Temperature sensor and then a Pressure sensor, and a third "S-2". *)
Definition registro_dup : ListaGeneral :=
  mkLista (Some 1%positive) (Some 3%positive) 3.
Definition entradas_dup : list Entrada :=
  [mkEntrada 1%positive 1%positive (sensor_nuevo Temperatura (texto "S-1")) [];
   mkEntrada 2%positive 2%positive (sensor_nuevo Presion (texto "S-1")) [];
   mkEntrada 3%positive 3%positive (sensor_nuevo Presion (texto "S-2")) []].
Definition mundo_dup : Mundo :=
  mkMundo ∅ ∅
    (list_to_map [(1%positive, sensor_nuevo Temperatura (texto "S-1"));
                  (2%positive, sensor_nuevo Presion (texto "S-1"));
                  (3%positive, sensor_nuevo Presion (texto "S-2"))])
    (list_to_map [(1%positive, mkNodo (Some 1%positive) (Some 2%positive));
                  (2%positive, mkNodo (Some 2%positive) (Some 3%positive));
                  (3%positive, mkNodo (Some 3%positive) None)])
    [].

(** An identifier of 50 characters. *)
Definition id_largo : list ascii := replicate 50 "A"%char.

(** ** States with a NaN, and texts with more than a numeral *)

(** 4.5 and 45.3 as [float]. *)
Definition float_4_5 : float := S754_finite false 9437184 (-21).
Definition float_45_3 : float := S754_finite false 11875123 (-18).

(** [push_back] of each value of [vs], in order. *)
Fixpoint push_back_todos {T : Type} `{!Lectura T} (vs : list T)
    (this : ListaSensor T) (m : Mem T) : option (ListaSensor T * Mem T) :=
  match vs with
  | [] => Some (this, m)
  | v :: vs => '(this, m) ← push_back v this m; push_back_todos vs this m
  end.

(** The list of [float] with a NaN and then 2.0, and the one with 2.0 and
    then a NaN, at the locations 1 and 2. *)
Definition lista_dos : ListaSensor float := mkLista (Some 1%positive) (Some 2%positive) 2.
Definition mem_nan_2 : Mem float :=
  mkMem (list_to_map [(1%positive, mkNodo S754_nan (Some 2%positive));
                      (2%positive, mkNodo float_2_0 None)]) [].
Definition mem_2_nan : Mem float :=
  mkMem (list_to_map [(1%positive, mkNodo float_2_0 (Some 2%positive));
                      (2%positive, mkNodo S754_nan None)]) [].

(** "T-001" after the readings "nan", "2.0" and "7.0", read with the
    decimal grammar. *)
Definition escenario_nan : option (bool * SensorTemperatura * Mem float) :=
  @Temperatura_registrar_todos libc_decimal
    [texto "nan"; texto "2.0"; texto "7.0"]
    (SensorTemperatura_ctor (texto "T-001")) memoria_vacia.

Definition sensor_nan : SensorTemperatura :=
  mkTemp (SensorBase_ctor (texto "T-001"))
         (mkLista (Some 1%positive) (Some 3%positive) 3).
Definition mem_nan : Mem float :=
  mkMem (list_to_map [(1%positive, mkNodo S754_nan (Some 2%positive));
                      (2%positive, mkNodo float_2_0 (Some 3%positive));
                      (3%positive, mkNodo float_7_0 None)])
        [Printf (LogInsertando Temperatura "T-001");
         Printf (LogInsertando Temperatura "T-001");
         Printf (LogInsertando Temperatura "T-001")].

(** "P-001", with the readings 80 and 90, after one more reading [v]. *)
Definition sensor_P001_mas : SensorPresion :=
  mkPres (SensorBase_ctor (texto "P-001"))
         (mkLista (Some 1%positive) (Some 3%positive) 3).
Definition mem_P001_mas (v : Z) : Mem Z :=
  mkMem (list_to_map [(1%positive, mkNodo 80 (Some 2%positive));
                      (2%positive, mkNodo 90 (Some 3%positive));
                      (3%positive, mkNodo v None)])
        (salida mem_P001 ++ [Printf (LogInsertando Presion "P-001")]).

(** "T-001", with the readings 10.0, 2.0 and 7.0, after one more reading
    [v]. *)
Definition sensor_T001_mas : SensorTemperatura :=
  mkTemp (SensorBase_ctor (texto "T-001"))
         (mkLista (Some 1%positive) (Some 4%positive) 4).
Definition mem_T001_mas (v : float) : Mem float :=
  mkMem (list_to_map [(1%positive, mkNodo float_10_0 (Some 2%positive));
                      (2%positive, mkNodo float_2_0 (Some 3%positive));
                      (3%positive, mkNodo float_7_0 (Some 4%positive));
                      (4%positive, mkNodo v None)])
        (salida mem_T001 ++ [Printf (LogInsertando Temperatura "T-001")]).

(** ** find_first *)

(** [operator==] of the element type. *)
Class Igualdad (T : Type) := { igual : T → T → bool }.

#[export] Instance Igualdad_int : Igualdad Z := {| igual := Z.eqb |}.
#[export] Instance Igualdad_float : Igualdad float := {| igual := SFeqb |}.

Section Busqueda.
Context {T : Type} `{!Igualdad T}.

Fixpoint find_first_bucle (fuel : nat) (h : gmap loc (Nodo T)) (value found : T)
    (it : ptr) : option (bool * T) :=
  match it with
  | None => Some (false, found)
  | Some p =>
      match fuel with
      | O => None
      | S fuel =>
          nd ← h !! p;
          if igual (dato nd) value
          then Some (true, dato nd)
          else find_first_bucle fuel h value found (siguiente nd)
      end
  end.

(** [find_first(value, found)]: the returned flag and [found]. *)
Definition find_first (value found : T) (this : ListaSensor T) (m : Mem T)
  : option (bool * T) :=
  find_first_bucle (base.size (nodos m)) (nodos m) value found (cabeza this).

End Busqueda.

(** ** pop_min, called until the list is empty *)

Section Vaciar.
Context {T : Type} `{!Lectura T}.

(** [k] calls of [pop_min] in a row: the values they return in [outMin],
    in order, for the calls that returned [true]. *)
Fixpoint pop_min_veces (k : nat) (this : ListaSensor T) (m : Mem T)
  : option (list T * ListaSensor T * Mem T) :=
  match k with
  | O => Some ([], this, m)
  | S k =>
      '(ok, v, this, m) ← pop_min cero this m;
      '(vs, this, m) ← pop_min_veces k this m;
      Some (if ok : bool then v :: vs else vs, this, m)
  end.

(** No value of the list comes before an earlier one in the order. *)
Fixpoint ascendente (vs : list T) : Prop :=
  match vs with
  | [] => True
  | v :: vs' => Forall (λ y, menor y v = false) vs' ∧ ascendente vs'
  end.

End Vaciar.

(** ** procesarLineaSerial *)

(** The two lines that [procesarLineaSerial] prints itself. *)
Inductive LineaSerial :=
| SerialIdNoEncontrado (id : string)
| SerialValorInvalido (id valor : string).

(** [strchr(s, c)]: the offset of the first [c] in the text of [s]. *)
Fixpoint strchr (s : list ascii) (c : ascii) : option nat :=
  match s with
  | [] => if decide (c = NUL) then Some O else None
  | x :: s' =>
      if decide (x = c) then Some O
      else if decide (x = NUL) then None
      else S <$> strchr s' c
  end.

(** [memcpy(dst, src, k)], for [k] within both arrays. *)
Definition memcpy (dst src : list ascii) (k : nat) : list ascii :=
  take k src ++ drop k dst.

(** [sizeof(id)] and [sizeof(valor)] *)
Definition TAM_SERIAL : nat := 64.

(** The array [id] after the identifier is copied: [coma] is the offset of
    the comma in [linea]. *)
Definition serial_id (linea : list ascii) (coma : nat) : list ascii :=
  let id := replicate TAM_SERIAL NUL in
  let lenId := coma in
  let lenId := if decide (TAM_SERIAL ≤ lenId)%nat then (TAM_SERIAL - 1)%nat else lenId in
  let id := memcpy id linea lenId in
  <[lenId := NUL]> id.

Definition es_fin_de_linea (c : ascii) : bool :=
  bool_decide (c = "010"%char ∨ c = "013"%char).

(** The array [valor] after the value is copied and one line terminator at
    its end, if there is one, is removed. *)
Definition serial_valor (linea : list ascii) (coma : nat) : list ascii :=
  let valor := replicate TAM_SERIAL NUL in
  let pVal := drop (S coma) linea in
  let valor := strncpy pVal (TAM_SERIAL - 1) ++ drop (TAM_SERIAL - 1) valor in
  let lv := strlen valor in
  match valor !! (lv - 1)%nat with
  | Some c =>
      if bool_decide (lv ≠ O) && es_fin_de_linea c
      then <[(lv - 1)%nat := NUL]> valor
      else valor
  | None => valor
  end.

Section Serial.
Context `{!Libc}.

(** The result has the returned flag, the memory and the lines that the
    function prints itself.  It prints them on the two paths on which the
    calls it makes print nothing, so they are all the output of the call
    there. *)
Definition procesarLineaSerial (linea : option (list ascii)) (lista : ListaGeneral)
    (w : Mundo) : option (bool * Mundo * list LineaSerial) :=
  match linea with
  | None => Some (false, w, [])
  | Some linea =>
      match strchr linea ","%char with
      | None => Some (false, w, [])
      | Some coma =>
          let id := serial_id linea coma in
          let valor := serial_valor linea coma in
          s ← buscarPorNombre id lista w;
          match s with
          | None => Some (false, w, [SerialIdNoEncontrado (impreso id)])
          | Some a =>
              sen ← sensores w !! a;
              '(ok, sen, w) ← registrarDesdeTexto (Some valor) sen w;
              let w := con_sensores (<[a := sen]> (sensores w)) w in
              Some (ok, w,
                    if ok : bool then []
                    else [SerialValorInvalido (impreso id) (impreso valor)])
          end
      end
  end.

End Serial.

(** The text of the identifier and of the value of a line, told on the
    line: what is before the first comma, 63 characters at most, and what
    is after it, 63 characters at most, without one line terminator at its
    end. *)
Definition sin_fin_de_linea (t : list ascii) : list ascii :=
  match last t with
  | Some c => if es_fin_de_linea c then take (length t - 1) t else t
  | None => t
  end.

Definition texto_id (linea : list ascii) (coma : nat) : list ascii :=
  take (Nat.min coma 63) linea.

Definition texto_valor (linea : list ascii) (coma : nat) : list ascii :=
  sin_fin_de_linea (take 63 (c_str (drop (S coma) linea))).

(** The sensors that the lines of [evs] announce as processed, in order. *)
Definition sensores_procesados (evs : list Evento) : list (string * Tipo) :=
  omap (λ ev, match ev with
              | Printf (ProcesandoSensor nombre t) => Some (nombre, t)
              | _ => None
              end) evs.

(** The entry that a serial line addresses: the first one whose identifier
    is the text before the comma. *)
Definition entrada_de_linea (linea : list ascii) (coma : nat)
    (es : list Entrada) : option Entrada :=
  List.find (λ e, bool_decide (nombre_de e = texto_id linea coma)) es.

(** Whether [registrarDesdeTexto] of a sensor takes the text [valor]:
    [sscanf] with ["%f"] for Temperature, with ["%d"] for Pressure. *)
Definition valor_aceptado `{!Libc} (s : SensorBase) (valor : list ascii) : bool :=
  match s with
  | EsTemperatura _ => bool_decide (is_Some (sscanf_f valor))
  | EsPresion _ => bool_decide (is_Some (sscanf_d valor))
  end.

(** A line of 50 characters before the comma. *)
Definition linea_id_largo : list ascii := replicate 50 "A"%char ++ texto ",5".

(** ** What a processing pass does to an entry of the registry *)

(** The entry [e'] is [e] after its sensor is processed: the same node,
    address, identifier and type; a Pressure sensor is the same object on
    the same nodes, and a Temperature sensor has the nodes it had but one
    (none, if it had none). *)
Definition procesada (e e' : Entrada) : Prop :=
  e_nodo e' = e_nodo e ∧ e_dir e' = e_dir e ∧
  getNombre (e_sensor e') = getNombre (e_sensor e) ∧
  tipo_de (e_sensor e') = tipo_de (e_sensor e) ∧
  e_celdas e' `sublist_of` e_celdas e ∧
  match e_sensor e with
  | EsPresion _ => e_sensor e' = e_sensor e ∧ e_celdas e' = e_celdas e
  | EsTemperatura _ => length (e_celdas e') = pred (length (e_celdas e))
  end.

(** The line of a sensor in the output of a pass or of a summary. *)
Definition anuncio (e : Entrada) : string * Tipo :=
  (impreso (getNombre (e_sensor e)), tipo_de (e_sensor e)).

Definition linea_info (e : Entrada) : Evento :=
  Printf (InfoSensor (impreso (getNombre (e_sensor e))) (tipo_de (e_sensor e))).

(** ** Sessions: the calls that [main] makes on its registry *)

(** The heaps hold as many objects as the entries of the registry own:
    the nodes of the lists of readings of each type, the sensors, and the
    nodes of the registry. *)
Definition sin_fugas (w : Mundo) (es : list Entrada) : Prop :=
  base.size (nodos_f w) = length (celdas_de Temperatura es) ∧
  base.size (nodos_i w) = length (celdas_de Presion es) ∧
  base.size (sensores w) = length es ∧
  base.size (nodos_g w) = length es.

(** The calls of the options of the menu on the registry: options 1 and 2
    create a sensor and append it, option 4 is [procesarTodos], option 5
    [imprimirResumen], option 6 [procesarLineaSerial]. *)
Inductive Llamada :=
  | CrearSensor (t : Tipo) (id : list ascii)
  | ProcesarTodos
  | MostrarSensores
  | InyectarLinea (linea : option (list ascii)).

Section Sesion.
Context `{!Libc}.

Definition llamar (c : Llamada) (this : ListaGeneral) (w : Mundo)
  : option (ListaGeneral * Mundo) :=
  match c with
  | CrearSensor t id =>
      '(_, this, w) ← crear_sensor t id this w; Some (this, w)
  | ProcesarTodos => w ← procesarTodos this w; Some (this, w)
  | MostrarSensores => w ← imprimirResumen this w; Some (this, w)
  | InyectarLinea linea =>
      '(_, w, _) ← procesarLineaSerial linea this w; Some (this, w)
  end.

Fixpoint llamar_todas (cs : list Llamada) (this : ListaGeneral) (w : Mundo)
  : option (ListaGeneral * Mundo) :=
  match cs with
  | [] => Some (this, w)
  | c :: cs => '(this, w) ← llamar c this w; llamar_todas cs this w
  end.

(** A session: the registry is constructed, the calls are made, and the
    destructor of the registry runs when [main] returns. *)
Definition sesion (cs : list Llamada) : option (ListaGeneral * Mundo) :=
  '(this, w) ← llamar_todas cs ListaGeneral_ctor mundo_vacio;
  ListaGeneral_dtor this w.

End Sesion.

(** The entry [e'] is the entry [e] at a later time: the same node of the
    registry and the same sensor object, with its identifier and type. *)
Definition mismo_sensor (e e' : Entrada) : Prop :=
  e_nodo e' = e_nodo e ∧ e_dir e' = e_dir e ∧
  getNombre (e_sensor e') = getNombre (e_sensor e) ∧
  tipo_de (e_sensor e') = tipo_de (e_sensor e).

(** The entries [es'] are those of [es], in order, and then new ones. *)
Definition registro_crece (es es' : list Entrada) : Prop :=
  ∃ es0 nuevos, es' = es0 ++ nuevos ∧ Forall2 mismo_sensor es es0.

(** * Verification *)

(** ** The order of [int] *)

#[export] Instance OrdenEstricto_int : OrdenEstricto Z.
Proof.
  split; simpl.
  - intros x. apply Z.ltb_irrefl.
  - intros x y z Hxy Hyz. apply Z.ltb_lt in Hxy, Hyz. apply Z.ltb_lt. lia.
Qed.

#[export] Instance OrdenTotal_int : OrdenTotal Z.
Proof.
  split; [apply _|]. simpl.
  intros x y Hxy Hyx. apply Z.ltb_ge in Hxy, Hyx. lia.
Qed.

(** ** The order of [float] *)

Lemma float_ltb_finito_pos (m1 m2 : positive) (e1 e2 : Z) :
  float_ltb (S754_finite false m1 e1) (S754_finite false m2 e2) = true ↔
  e1 < e2 ∨ (e1 = e2 ∧ (m1 < m2)%positive).
Proof.
  unfold float_ltb, SFltb. simpl.
  change (Pos.compare_cont Eq m1 m2) with (Pos.compare m1 m2).
  destruct (Z.compare_spec e1 e2); [|split; [lia|done]|split; [done|lia]].
  destruct (Pos.compare_spec m1 m2); split; try done; try lia.
Qed.

Lemma float_ltb_finito_neg (m1 m2 : positive) (e1 e2 : Z) :
  float_ltb (S754_finite true m1 e1) (S754_finite true m2 e2) = true ↔
  e2 < e1 ∨ (e1 = e2 ∧ (m2 < m1)%positive).
Proof.
  unfold float_ltb, SFltb. simpl.
  change (Pos.compare_cont Eq m1 m2) with (Pos.compare m1 m2).
  destruct (Z.compare_spec e1 e2); [|split; [done|lia]|split; [lia|done]].
  destruct (Pos.compare_spec m1 m2); simpl; split; try done; try lia.
Qed.

#[export] Instance OrdenEstricto_float : OrdenEstricto float.
Proof.
  split; simpl.
  - intros [s|s| |s m e]; try destruct s; try done.
    + destruct (float_ltb (S754_finite true m e) (S754_finite true m e)) eqn:H;
        [|done]. apply float_ltb_finito_neg in H. lia.
    + destruct (float_ltb (S754_finite false m e) (S754_finite false m e)) eqn:H;
        [|done]. apply float_ltb_finito_pos in H. lia.
  - intros [s1|s1| |s1 m1 e1] [s2|s2| |s2 m2 e2] [s3|s3| |s3 m3 e3];
      try destruct s1; try destruct s2; try destruct s3; try done;
      intros H12 H23.
    + apply float_ltb_finito_neg in H12, H23. apply float_ltb_finito_neg. lia.
    + apply float_ltb_finito_pos in H12, H23. apply float_ltb_finito_pos. lia.
Qed.

Lemma float_leb_finito_pos (m1 m2 : positive) (e1 e2 : Z) :
  float_leb (S754_finite false m1 e1) (S754_finite false m2 e2) = true ↔
  e1 < e2 ∨ (e1 = e2 ∧ (m1 ≤ m2)%positive).
Proof.
  unfold float_leb, SFleb. simpl.
  change (Pos.compare_cont Eq m1 m2) with (Pos.compare m1 m2).
  destruct (Z.compare_spec e1 e2); [|split; [lia|done]|split; [done|lia]].
  destruct (Pos.compare_spec m1 m2); split; try done; try lia.
Qed.

Lemma float_leb_finito_neg (m1 m2 : positive) (e1 e2 : Z) :
  float_leb (S754_finite true m1 e1) (S754_finite true m2 e2) = true ↔
  e2 < e1 ∨ (e1 = e2 ∧ (m2 ≤ m1)%positive).
Proof.
  unfold float_leb, SFleb. simpl.
  change (Pos.compare_cont Eq m1 m2) with (Pos.compare m1 m2).
  destruct (Z.compare_spec e1 e2); [|split; [done|lia]|split; [lia|done]].
  destruct (Pos.compare_spec m1 m2); simpl; split; try done; try lia.
Qed.

(** Without NaN the comparison is total: what is not below [v] is at
    least [v]. *)
Lemma float_no_menor_leb (x v : float) :
  es_nan x = false → es_nan v = false →
  float_ltb x v = false → float_leb v x = true.
Proof.
  destruct x as [sx|sx| |sx mx ex], v as [sv|sv| |sv mv ev];
    try destruct sx; try destruct sv; try done; intros _ _ Hlt.
  - apply float_leb_finito_neg.
    destruct (float_ltb (S754_finite true mx ex) (S754_finite true mv ev)) eqn:H;
      [done|].
    assert (Hn : ¬ (ev < ex ∨ ex = ev ∧ (mv < mx)%positive)).
    { intros Hc. apply float_ltb_finito_neg in Hc. congruence. }
    lia.
  - apply float_leb_finito_pos.
    destruct (float_ltb (S754_finite false mx ex) (S754_finite false mv ev)) eqn:H;
      [done|].
    assert (Hn : ¬ (ex < ev ∨ ex = ev ∧ (mx < mv)%positive)).
    { intros Hc. apply float_ltb_finito_pos in Hc. congruence. }
    lia.
Qed.

(** ** Lemmas on chains *)

Section LemasCadena.
Context {T : Type} `{!Lectura T}.
Implicit Types (h : gmap loc (Nodo T)) (cs : list (loc * T)) (m : Mem T).

Lemma lseg_app h p cs1 cs2 q :
  lseg h p (cs1 ++ cs2) q ↔ ∃ r, lseg h p cs1 r ∧ lseg h r cs2 q.
Proof.
  revert p. induction cs1 as [|c cs1 IH]; intros p; simpl.
  - split; [intros Hl; by exists p | by intros (r & -> & Hl)].
  - split.
    + intros (-> & nx & Hc & Hl). apply IH in Hl as (r & H1 & H2).
      exists r. split; [|done]. split; [done|]. by exists nx.
    + intros (r & (-> & nx & Hc & H1) & H2). split; [done|].
      exists nx. split; [done|]. apply IH. by exists r.
Qed.

Lemma lseg_ext h h' p cs q :
  (∀ a, a ∈ cs.*1 → h' !! a = h !! a) → lseg h p cs q → lseg h' p cs q.
Proof.
  revert p. induction cs as [|c cs IH]; intros p Hext; simpl; [done|].
  intros (-> & nx & Hc & Hl). split; [done|]. exists nx. split.
  - rewrite Hext; [done|]. rewrite fmap_cons. apply list_elem_of_here.
  - apply IH; [|done]. intros a Ha. apply Hext. rewrite fmap_cons.
    by apply list_elem_of_further.
Qed.

Lemma lseg_alloc h p cs q a :
  lseg h p cs q → a ∈ cs.*1 → is_Some (h !! a).
Proof.
  revert p. induction cs as [|c cs IH]; intros p; simpl.
  - intros _ Ha. by apply elem_of_nil in Ha.
  - intros (-> & nx & Hc & Hl) Ha.
    apply elem_of_cons in Ha as [->|Ha]; [by eexists | by eapply IH].
Qed.

Lemma lseg_length h p cs q :
  lseg h p cs q → NoDup cs.*1 → (length cs ≤ base.size h)%nat.
Proof.
  intros Hl Hnd.
  rewrite <- (length_fmap fst cs), <- (size_list_to_set (C:=gset loc)) by done.
  rewrite <- (size_dom (D:=gset loc) h). apply subseteq_size.
  intros a Ha. apply elem_of_list_to_set in Ha. apply elem_of_dom.
  by eapply lseg_alloc.
Qed.

Lemma lseg_det h p cs cs' :
  lseg h p cs None → lseg h p cs' None → cs = cs'.
Proof.
  revert p cs'. induction cs as [|[a x] cs IH]; intros p [|[a' x'] cs']; simpl.
  - done.
  - by intros -> (? & _).
  - by intros (-> & _) ?.
  - intros (-> & nx & Hc & Hl) (Heq & nx' & Hc' & Hl').
    injection Heq as <-. rewrite Hc in Hc'. injection Hc' as <- <-.
    f_equal. by eapply IH.
Qed.

(** A chain that ends in [NULL] visits no node twice. *)
Lemma lseg_NoDup h p cs : lseg h p cs None → NoDup cs.*1.
Proof.
  revert p. induction cs as [|[a x] cs IH]; intros p Hl; [constructor|].
  pose proof Hl as (-> & nx & Hc & Hl'). rewrite fmap_cons.
  apply NoDup_cons. split; [|by eapply IH].
  intros Hin. apply list_elem_of_fmap in Hin as ([a' y] & Ha & Hin).
  simpl in Ha. subst a'.
  apply list_elem_of_split in Hin as (l1 & l2 & ->).
  apply lseg_app in Hl' as (r & _ & Hl2).
  pose proof Hl2 as (-> & _).
  pose proof (lseg_det _ _ _ _ Hl Hl2) as Heq.
  apply (f_equal length) in Heq. simpl in Heq. rewrite length_app in Heq.
  simpl in Heq. lia.
Qed.

Lemma lista_ok_de_cadena (this : ListaSensor T) m cs :
  lseg (nodos m) (cabeza this) cs None →
  cola this = last cs.*1 → n this = length cs →
  lista_ok this m cs.
Proof. intros Hl Hc Hn. split; [done..|]. by eapply lseg_NoDup. Qed.

Lemma marco_refl ps h : marco ps h h.
Proof. by intros b _ _. Qed.

Lemma marco_lseg ps h h' p cs q :
  marco ps h h' → (∀ a, a ∈ cs.*1 → a ∉ ps) →
  lseg h p cs q → lseg h' p cs q.
Proof.
  intros Hm Hdis Hl. eapply lseg_ext; [|done].
  intros a Ha. apply Hm; [by apply Hdis | by eapply lseg_alloc].
Qed.

(** An operation on one list keeps every list that shares no node with
    it. *)
Lemma marco_lista_ok ps m m' (other : ListaSensor T) ds :
  marco ps (nodos m) (nodos m') → (∀ a, a ∈ ds.*1 → a ∉ ps) →
  lista_ok other m ds → lista_ok other m' ds.
Proof.
  intros Hm Hdis [Hl Hc Hn Hnd]. split; [|done..].
  by eapply marco_lseg.
Qed.

Lemma lista_ok_vacia m : lista_ok (mkLista None None 0) m [].
Proof. split; simpl; [done..|]. constructor. Qed.

Lemma lista_ok_cabeza_None this m cs :
  lista_ok this m cs → cabeza this = None → cs = [].
Proof.
  intros [Hl _ _ _] Hc. destruct cs as [|c cs]; [done|].
  simpl in Hl. destruct Hl as (Heq & _). congruence.
Qed.

Lemma lista_ok_size this m cs : lista_ok this m cs → size this = length cs.
Proof. by intros [_ _ Hn _]. Qed.

End LemasCadena.

(** ** The operations of the list on a well-formed list *)

Lemma fresh_None {A} (h : gmap loc A) : h !! fresh (dom h) = None.
Proof. apply not_elem_of_dom, is_fresh. Qed.

Section EspecContenedor.
Context {T : Type} `{!Lectura T}.
Implicit Types (h : gmap loc (Nodo T)) (cs : list (loc * T)) (m : Mem T).

Lemma cadena_no_fresca h p cs q a :
  lseg h p cs q → h !! a = None → a ∉ cs.*1.
Proof.
  intros Hl Ha Hin. destruct (lseg_alloc _ _ _ _ _ Hl Hin) as [? ?]. congruence.
Qed.

Lemma push_back_spec v this m cs :
  lista_ok this m cs →
  ∃ a this' m',
    push_back v this m = Some (this', m') ∧
    nodos m !! a = None ∧
    lista_ok this' m' (cs ++ [(a, v)]) ∧
    marco cs.*1 (nodos m) (nodos m') ∧
    salida m' = salida m ∧
    dom (nodos m') = {[a]} ∪ dom (nodos m).
Proof.
  intros [Hl Hc Hn Hnd]. unfold push_back, new_Nodo.
  set (a := fresh (dom (nodos m))).
  assert (Ha : nodos m !! a = None) by apply fresh_None.
  assert (Hacs : a ∉ cs.*1) by (by eapply cadena_no_fresca).
  exists a. destruct cs as [|c cs' _] using rev_ind.
  - simpl in Hl. rewrite Hl. eexists _, _. split; [done|]. split; [done|].
    split; [|split; [|split; [done|]]].
    + split; simpl; [|done|by rewrite Hn|].
      * split; [done|]. eexists. split; [apply lookup_insert_eq|done].
      * apply NoDup_singleton.
    + intros b _ [x Hb]. simpl. rewrite lookup_insert_ne; [done|].
      intros <-. congruence.
    + simpl. by rewrite dom_insert_L.
  - rewrite fmap_app in Hc, Hnd, Hacs. simpl in Hc, Hnd, Hacs.
    rewrite last_snoc in Hc.
    apply lseg_app in Hl as (r & Hl1 & Hl2). simpl in Hl2.
    destruct Hl2 as (-> & nx & Hcell & ->).
    assert (Hcab : is_Some (cabeza this)).
    { destruct cs' as [|c0 cs0]; simpl in Hl1; [rewrite Hl1; by eexists|].
      destruct Hl1 as (-> & _). by eexists. }
    destruct Hcab as [cab Hcab]. rewrite Hcab, Hc. simpl.
    apply NoDup_app in Hnd as (Hnd1 & Hdis & _).
    assert (Hca : c.1 ≠ a) by (intros Heq; congruence).
    unfold set_siguiente. simpl. rewrite lookup_insert_ne by done.
    rewrite Hcell. simpl. eexists _, _. split; [done|]. split; [done|].
    split; [|split; [|split; [done|]]].
    + split; simpl.
      * rewrite <- Hcab. rewrite <- app_assoc. apply lseg_app. exists (Some c.1).
        split.
        -- eapply lseg_ext; [|exact Hl1]. intros b Hb.
           rewrite !lookup_insert_ne; [done| |].
           ++ intros <-. apply Hacs, elem_of_app. by left.
           ++ intros <-. eapply Hdis; [exact Hb|]. apply list_elem_of_here.
        -- simpl. split; [done|]. eexists. split; [apply lookup_insert_eq|].
           split; [done|]. eexists. split; [|done].
           rewrite lookup_insert_ne by done. apply lookup_insert_eq.
      * rewrite fmap_app. simpl. by rewrite last_snoc.
      * rewrite Hn, !length_app. simpl. lia.
      * rewrite !fmap_app. simpl. apply NoDup_app. split; [|split].
        -- apply NoDup_app. split; [done|]. split; [done|apply NoDup_singleton].
        -- intros b Hb Hb'. apply list_elem_of_singleton in Hb'. by subst.
        -- apply NoDup_singleton.
    + intros b Hb [x Hx]. simpl. rewrite !lookup_insert_ne; [done| |].
      * intros <-. congruence.
      * intros <-. apply Hb. rewrite fmap_app. apply elem_of_app. right.
        apply list_elem_of_here.
    + simpl. rewrite !dom_insert_L.
      assert (Hdom : c.1 ∈ dom (nodos m)) by (apply elem_of_dom; by eexists).
      apply set_eq. intros b. rewrite !elem_of_union, !elem_of_singleton.
      split; [intros [->|?]; auto|tauto].
Qed.

Lemma sum_bucle_spec cs : ∀ fuel h s p,
  lseg h p cs None → (length cs ≤ fuel)%nat →
  sum_bucle fuel h s p = Some (foldl suma s cs.*2).
Proof.
  induction cs as [|c cs IH]; intros fuel h s p; simpl.
  - intros -> _. by destruct fuel.
  - intros (-> & nx & Hc & Hl) Hf. destruct fuel as [|fuel]; [lia|].
    simpl. rewrite Hc. simpl. apply IH; [done|lia].
Qed.

Lemma sum_spec this m cs :
  lista_ok this m cs → sum this m = Some (foldl suma cero cs.*2).
Proof.
  intros [Hl Hc Hn Hnd]. unfold sum.
  destruct (cabeza this) as [cab|] eqn:Hcab.
  - apply sum_bucle_spec; [done|]. by eapply lseg_length.
  - destruct cs as [|c cs]; [done|]. simpl in Hl. by destruct Hl.
Qed.

Lemma pop_min_vacia outMin this m :
  lista_ok this m [] → pop_min outMin this m = Some (false, outMin, this, m).
Proof.
  intros [Hl _ _ _]. simpl in Hl. unfold pop_min. by rewrite Hl.
Qed.

Lemma clear_bucle_spec cs : ∀ fuel m p,
  lseg (nodos m) p cs None → NoDup cs.*1 → (length cs ≤ fuel)%nat →
  ∃ m',
    clear_bucle fuel m p = Some m' ∧
    (∀ a, a ∈ cs.*1 → nodos m' !! a = None) ∧
    (∀ b, b ∉ cs.*1 → nodos m' !! b = nodos m !! b) ∧
    salida m' = salida m ++ (Delete NodoLectura <$> cs.*1).
Proof.
  induction cs as [|[a x] cs IH]; intros fuel m p.
  - simpl. intros -> _ _. exists m. split; [by destruct fuel|].
    split; [intros a Ha; by apply elem_of_nil in Ha|].
    split; [done|]. by rewrite app_nil_r.
  - intros (-> & nx & Hc & Hl) Hnd Hf. simpl in Hc, Hf.
    rewrite fmap_cons in Hnd. apply NoDup_cons in Hnd as (Ha & Hnd).
    destruct fuel as [|fuel]; [lia|]. simpl.
    rewrite Hc. simpl. unfold delete_Nodo. rewrite Hc. simpl.
    destruct (IH fuel
      (emitir (Delete NodoLectura a) (con_nodos (delete a (nodos m)) m)) nx)
      as (m' & Hrun & Hfree & Hrest & Hout); [|done|lia|].
    { simpl. eapply lseg_ext; [|exact Hl]. intros b Hb.
      rewrite lookup_delete_ne; [done|]. by intros <-. }
    exists m'. split; [done|]. split; [|split].
    + intros b Hb. apply elem_of_cons in Hb as [->|Hb]; [|by apply Hfree].
      rewrite Hrest by done. simpl. apply lookup_delete_eq.
    + intros b Hb. apply not_elem_of_cons in Hb as (Hba & Hb).
      rewrite Hrest by done. simpl. by rewrite lookup_delete_ne.
    + rewrite Hout. simpl. by rewrite <- app_assoc.
Qed.

Lemma clear_spec this m cs :
  lista_ok this m cs →
  ∃ m',
    clear this m = Some (mkLista None None 0, m') ∧
    (∀ a, a ∈ cs.*1 → nodos m' !! a = None) ∧
    (∀ b, b ∉ cs.*1 → nodos m' !! b = nodos m !! b) ∧
    salida m' = salida m ++ (Delete NodoLectura <$> cs.*1).
Proof.
  intros [Hl Hc Hn Hnd].
  destruct (clear_bucle_spec cs (base.size (nodos m)) m (cabeza this))
    as (m' & Hrun & Hrest); [done|done|by eapply lseg_length|].
  exists m'. split; [|done]. unfold clear. by rewrite Hrun.
Qed.

(** The loop of [copiarDesde]: [rest] is what is left of the chain of
    [other], and [ds] the list built so far. *)
Lemma copiarDesde_bucle_spec rest : ∀ fuel this m ds p,
  lseg (nodos m) p rest None → lista_ok this m ds →
  (∀ a, a ∈ rest.*1 → a ∉ ds.*1) →
  (length rest ≤ fuel)%nat →
  ∃ es this' m',
    copiarDesde_bucle fuel this m p = Some (this', m') ∧
    lista_ok this' m' (ds ++ es) ∧
    es.*2 = rest.*2 ∧
    (∀ a, a ∈ es.*1 → nodos m !! a = None) ∧
    marco ds.*1 (nodos m) (nodos m') ∧
    salida m' = salida m.
Proof.
  induction rest as [|[a x] rest IH]; intros fuel this m ds p.
  - simpl. intros -> Hok _ _. exists [], this, m.
    split; [by destruct fuel|]. rewrite app_nil_r.
    split; [done|]. split; [done|].
    split; [intros a Ha; by apply elem_of_nil in Ha|].
    split; [apply marco_refl|done].
  - intros (-> & nx & Hc & Hl) Hok Hdis Hf. simpl in Hc, Hf.
    destruct fuel as [|fuel]; [lia|]. simpl. rewrite Hc. simpl.
    destruct (push_back_spec x this m ds Hok)
      as (b & this1 & m1 & Hpush & Hb & Hok1 & Hm1 & Hout1 & Hdom1).
    rewrite Hpush. simpl.
    assert (Ha : a ∉ ds.*1) by (apply Hdis; rewrite fmap_cons; apply list_elem_of_here).
    assert (Hc1 : nodos m1 !! a = Some (mkNodo x nx)).
    { rewrite Hm1; [done|done|by eexists]. }
    rewrite Hc1. simpl.
    assert (Hbrest : b ∉ rest.*1) by (by eapply cadena_no_fresca).
    destruct (IH fuel this1 m1 (ds ++ [(b, x)]) nx)
      as (es & this' & m' & Hrun & Hok' & Hes & Hfresh & Hm' & Hout');
      [|done| |lia|].
    { eapply marco_lseg; [exact Hm1| |exact Hl]. intros c Hc'.
      apply Hdis. rewrite fmap_cons. by apply list_elem_of_further. }
    { intros c Hc'. rewrite fmap_app. simpl. intros Hin.
      apply elem_of_app in Hin as [Hin|Hin].
      - eapply Hdis; [|exact Hin]. rewrite fmap_cons.
        by apply list_elem_of_further.
      - apply list_elem_of_singleton in Hin. by subst. }
    exists ((b, x) :: es), this', m'. split; [done|].
    split; [by rewrite <- app_assoc in Hok'|].
    split; [rewrite !fmap_cons; by f_equal|].
    split; [|split].
    + intros c Hc'. rewrite fmap_cons in Hc'.
      apply elem_of_cons in Hc' as [->|Hc']; [done|].
      apply Hfresh in Hc'. apply not_elem_of_dom. apply not_elem_of_dom in Hc'.
      rewrite Hdom1 in Hc'. intros Hin. apply Hc'. apply elem_of_union. by right.
    + intros c Hc' Hal. rewrite Hm'.
      * by apply Hm1.
      * rewrite fmap_app. simpl. intros Hin. apply elem_of_app in Hin as [Hin|Hin];
          [done|]. apply list_elem_of_singleton in Hin. subst.
        destruct Hal as [? ?]. congruence.
      * rewrite Hm1 by done. done.
    + by rewrite Hout'.
Qed.

Lemma copiarDesde_spec other this m cs ds :
  lista_ok other m cs → lista_ok this m ds →
  (∀ a, a ∈ cs.*1 → a ∉ ds.*1) →
  ∃ es this' m',
    copiarDesde other this m = Some (this', m') ∧
    lista_ok this' m' (ds ++ es) ∧
    es.*2 = cs.*2 ∧
    (∀ a, a ∈ es.*1 → nodos m !! a = None) ∧
    marco ds.*1 (nodos m) (nodos m') ∧
    salida m' = salida m.
Proof.
  intros [Hl Hc Hn Hnd] Hok Hdis. unfold copiarDesde.
  apply copiarDesde_bucle_spec with (rest := cs); [done..|].
  by eapply lseg_length.
Qed.

Lemma escanear_app rest : ∀ pre cm post pre' cm' post',
  escanear pre cm post rest = (pre', cm', post') →
  pre ++ cm :: post ++ rest = pre' ++ cm' :: post'.
Proof.
  induction rest as [|c rest IH]; intros pre cm post pre' cm' post'; simpl.
  - intros [= <- <- <-]. by rewrite app_nil_r.
  - destruct (menor c.2 cm.2); intros Hs; apply IH in Hs; rewrite <- Hs.
    + simpl. by rewrite <- app_assoc.
    + by rewrite <- (app_assoc post).
Qed.

Lemma seleccion_app cs pre cm post :
  seleccion cs = Some (pre, cm, post) → cs = pre ++ cm :: post.
Proof.
  destruct cs as [|c rest]; [done|]. simpl. intros [= Hs].
  by apply escanear_app in Hs.
Qed.

Lemma pop_min_bucle_spec rest : ∀ pre mq mv post fuel h curr pre' cm' post',
  lseg h curr rest None →
  (∃ nx, h !! mq = Some (mkNodo mv nx)) →
  (length rest ≤ fuel)%nat →
  escanear pre (mq, mv) post rest = (pre', cm', post') →
  pop_min_bucle fuel h (last pre.*1) mq
    (last (pre ++ (mq, mv) :: post).*1) curr = Some (last pre'.*1, cm'.1).
Proof.
  induction rest as [|[a x] rest IH];
    intros pre mq mv post fuel h curr pre' cm' post'; simpl.
  - intros -> _ _ [= <- <- <-]. by destruct fuel.
  - intros (-> & nx & Hc & Hl) [nq Hq] Hf.
    destruct fuel as [|fuel]; [lia|]. simpl. rewrite Hc, Hq. simpl.
    destruct (menor x mv) eqn:Hlt; intros Hs.
    + rewrite <- (IH (pre ++ (mq, mv) :: post) a x [] fuel h nx pre' cm' post');
        [|done|by eexists|lia|done].
      f_equal. rewrite fmap_app. simpl. by rewrite last_snoc.
    + rewrite <- (IH pre mq mv (post ++ [(a, x)]) fuel h nx pre' cm' post');
        [|done|by eexists|lia|done].
      f_equal.
      change ((mq, mv) :: post ++ [(a, x)]) with (((mq, mv) :: post) ++ [(a, x)]).
      rewrite app_assoc, fmap_app. simpl. by rewrite last_snoc.
Qed.

Lemma ultimo_no_es q (ps : list loc) :
  q ∉ ps → ps ≠ [] → last ps ≠ Some q.
Proof.
  intros Hq Hne Hlast. apply Hq. by apply last_Some_elem_of.
Qed.

(** [pop_min] on a list that is not empty: it unlinks and deletes the
    cell that the scan selects. *)
Lemma pop_min_spec outMin this m cs :
  lista_ok this m cs → cs ≠ [] →
  ∃ pre q v post this' m',
    pop_min outMin this m = Some (true, v, this', m') ∧
    seleccion cs = Some (pre, (q, v), post) ∧
    lista_ok this' m' (pre ++ post) ∧
    nodos m' !! q = None ∧
    marco cs.*1 (nodos m) (nodos m') ∧
    salida m' = salida m ++
      [Printf (LogNodoLiberado (formatNumber v)); Delete NodoLectura q].
Proof.
  intros Hok Hne. pose proof Hok as [Hl Hc Hn Hnd].
  pose proof (lseg_length _ _ _ _ Hl Hnd) as Hlen.
  destruct cs as [|[a x] rest]; [done|]. clear Hne.
  pose proof Hl as (Hcab & nx & Hcell & Hrest). simpl in Hcab, Hcell, Hlen.
  set (ps := ((a, x) :: rest).*1).
  destruct (escanear [] (a, x) [] rest) as [[pre [q v]] post] eqn:Hsel.
  pose proof (escanear_app _ _ _ _ _ _ _ Hsel) as Heq. simpl in Heq.
  assert (Hrun : pop_min_bucle (base.size (nodos m)) (nodos m) None a None (Some a)
                 = Some (last pre.*1, q)).
  { destruct (base.size (nodos m)) as [|fuel] eqn:Hsz; [lia|].
    simpl. rewrite Hcell. simpl.
    pose proof (pop_min_bucle_spec rest [] a x [] fuel (nodos m) nx pre (q, v) post)
      as Hrun. simpl in Hrun.
    destruct (menor x x); apply Hrun; try done; try (by eexists); lia. }
  unfold pop_min. rewrite Hcab, Hrun. simpl. rewrite Hsel.
  exists pre, q, v, post. subst ps. rewrite Heq in Hl, Hc, Hn, Hnd |- *.
  clear Hrun Hcell Hrest Heq Hlen Hsel.
  apply lseg_app in Hl as (r & Hl1 & Hl2).
  destruct Hl2 as (-> & nq & Hq & Hl2). simpl in Hq.
  rewrite Hq. simpl.
  rewrite fmap_app, fmap_cons in Hnd, Hc. simpl in Hnd, Hc.
  apply NoDup_app in Hnd as (Hnd1 & Hdis & Hnd2).
  apply NoDup_cons in Hnd2 as (Hqpost & Hnd2).
  assert (Hqpre : q ∉ pre.*1).
  { intros Hin. eapply Hdis; [exact Hin|]. apply list_elem_of_here. }
  assert (Hcola : (post = [] ∧ cola this = Some q) ∨
                  (post ≠ [] ∧ cola this = last post.*1 ∧ cola this ≠ Some q)).
  { destruct post as [|c0 post0]; [left|right].
    - split; [done|]. by rewrite Hc, fmap_nil, last_snoc.
    - assert (Hlast : cola this = last (c0 :: post0).*1).
      { rewrite Hc, last_app_cons, last_cons.
        destruct (last (c0 :: post0).*1) eqn:Hlp; [done|].
        apply last_None in Hlp. by rewrite fmap_cons in Hlp. }
      split; [done|]. split; [done|]. rewrite Hlast.
      by apply ultimo_no_es. }
  assert (Hn' : pred (n this) = length (pre ++ post)).
  { rewrite Hn, !length_app. simpl. lia. }
  assert (Hnd' : NoDup (pre ++ post).*1).
  { rewrite fmap_app. apply NoDup_app. split; [done|]. split; [|done].
    intros b Hb Hb'. eapply Hdis; [exact Hb|]. by apply list_elem_of_further. }
  destruct pre as [|[mp y] pre0 _] using rev_ind.
  - simpl in *. unfold delete_Nodo. simpl. rewrite Hq. simpl.
    eexists _, _. split; [done|]. split; [done|].
    split; [|split; [apply lookup_delete_eq|split]].
    + split; simpl; [| |done|done].
      * eapply lseg_ext; [|exact Hl2]. intros b Hb.
        rewrite lookup_delete_ne; [done|]. by intros <-.
      * destruct Hcola as [(-> & Hcq)|(Hp & Hcl & Hcq)].
        -- rewrite decide_True by done. simpl in Hl2. by rewrite Hl2.
        -- by rewrite decide_False by done.
    + intros b Hb _. simpl. rewrite lookup_delete_ne; [done|].
      intros <-. apply Hb. apply list_elem_of_here.
    + simpl. by rewrite <- app_assoc.
  - rewrite fmap_app in Hnd1, Hqpre, Hdis |- *. simpl in *.
    rewrite last_snoc. simpl.
    apply lseg_app in Hl1 as (r & Hl0 & Hl1). simpl in Hl1.
    destruct Hl1 as (-> & nmp & Hmp & Hnmp). subst nmp.
    apply NoDup_app in Hnd1 as (Hnd0 & Hdis0 & _).
    assert (Hmpq : mp ≠ q).
    { intros ->. apply Hqpre, elem_of_app. right. apply list_elem_of_here. }
    unfold set_siguiente. rewrite Hmp. simpl.
    unfold delete_Nodo. simpl. rewrite lookup_insert_ne by done.
    rewrite Hq. simpl.
    eexists _, _. split; [done|]. split; [done|].
    split; [|split; [apply lookup_delete_eq|split]].
    + split; simpl; [| |done|done].
      * rewrite <- app_assoc. apply lseg_app. exists (Some mp). split.
        -- eapply lseg_ext; [|exact Hl0]. intros b Hb.
           rewrite lookup_delete_ne, lookup_insert_ne; [done| |].
           ++ intros <-. eapply Hdis0; [exact Hb|]. apply list_elem_of_here.
           ++ intros <-. apply Hqpre, elem_of_app. by left.
        -- simpl. split; [done|]. exists nq. split.
           ++ rewrite lookup_delete_ne by done. apply lookup_insert_eq.
           ++ eapply lseg_ext; [|exact Hl2]. intros b Hb.
              rewrite lookup_delete_ne, lookup_insert_ne; [done| |].
              ** intros <-. eapply Hdis; [|by apply list_elem_of_further].
                 apply elem_of_app. right. apply list_elem_of_here.
              ** by intros <-.
      * destruct Hcola as [(-> & Hcq)|(Hp & Hcl & Hcq)].
        -- rewrite decide_True by done. rewrite app_nil_r, fmap_app.
           simpl. by rewrite last_snoc.
        -- rewrite decide_False by done. rewrite Hcl, fmap_app, last_app.
           destruct (last post.*1) eqn:Hlp; [done|].
           apply last_None in Hlp. by destruct post.
    + intros b Hb _. simpl.
      rewrite lookup_delete_ne, lookup_insert_ne; [done| |].
      * intros <-. apply Hb. rewrite !fmap_app. simpl.
        apply elem_of_app. left. apply elem_of_app. right.
        apply list_elem_of_here.
      * intros <-. apply Hb. rewrite !fmap_app. simpl.
        apply elem_of_app. right. apply list_elem_of_here.
    + simpl. by rewrite <- app_assoc.
Qed.

(** What the scan selects, under a strict order: no cell is below it. *)
Lemma escanear_minimal `{!OrdenEstricto T} rest : ∀ pre cm post pre' cm' post',
  Forall (λ c, menor c.2 cm.2 = false) (pre ++ post) →
  escanear pre cm post rest = (pre', cm', post') →
  Forall (λ c, menor c.2 cm'.2 = false) (pre' ++ post').
Proof.
  induction rest as [|c rest IH]; intros pre cm post pre' cm' post' Hall; simpl.
  - by intros [= <- <- <-].
  - destruct (menor c.2 cm.2) eqn:Hlt; intros Hs.
    + eapply IH; [|exact Hs]. rewrite app_nil_r.
      apply Forall_app in Hall as [Hpre Hpost].
      assert (Hbelow : ∀ y : T, menor y cm.2 = false → menor y c.2 = false).
      { intros y Hy. destruct (menor y c.2) eqn:Hyc; [|done].
        by rewrite (menor_trans y c.2 cm.2) in Hy. }
      apply Forall_app. split; [|constructor].
      * eapply Forall_impl; [exact Hpre|]. intros d. apply Hbelow.
      * apply Hbelow, menor_irrefl.
      * eapply Forall_impl; [exact Hpost|]. intros d. apply Hbelow.
    + eapply IH; [|exact Hs]. rewrite app_assoc. apply Forall_app.
      split; [done|]. by constructor.
Qed.

Lemma seleccion_minimal `{!OrdenEstricto T} cs pre cm post :
  seleccion cs = Some (pre, cm, post) →
  Forall (λ c, menor c.2 cm.2 = false) cs.
Proof.
  intros Hs. pose proof (seleccion_app _ _ _ _ Hs) as Heq.
  destruct cs as [|c rest]; [done|]. injection Hs as Hs.
  apply escanear_minimal in Hs; [|constructor].
  apply Forall_app in Hs as [Hpre Hpost]. rewrite Heq.
  apply Forall_app. split; [done|]. constructor; [apply menor_irrefl|done].
Qed.

(** Under a strict total order the selected cell is the first occurrence
    of the minimum: the cells before it are strictly above. *)
Lemma escanear_primero `{!OrdenTotal T} rest : ∀ pre cm post pre' cm' post',
  Forall (λ c, menor cm.2 c.2 = true) pre →
  Forall (λ c, menor c.2 cm.2 = false) post →
  escanear pre cm post rest = (pre', cm', post') →
  Forall (λ c, menor cm'.2 c.2 = true) pre' ∧
  Forall (λ c, menor c.2 cm'.2 = false) post'.
Proof.
  induction rest as [|c rest IH]; intros pre cm post pre' cm' post' Hpre Hpost; simpl.
  - by intros [= <- <- <-].
  - destruct (menor c.2 cm.2) eqn:Hlt; intros Hs.
    + eapply IH; [| |exact Hs]; [|constructor].
      assert (Habove : ∀ y : T, menor y cm.2 = false → menor c.2 y = true).
      { intros y Hy. destruct (menor c.2 y) eqn:Hcy; [done|].
        destruct (menor y c.2) eqn:Hyc.
        - by rewrite (menor_trans y c.2 cm.2) in Hy.
        - assert (c.2 = y) as <- by (by apply menor_total). congruence. }
      apply Forall_app. split; [|constructor].
      * eapply Forall_impl; [exact Hpre|]. simpl. intros d Hd.
        by eapply menor_trans.
      * done.
      * eapply Forall_impl; [exact Hpost|]. intros d. apply Habove.
    + eapply IH; [done| |exact Hs]. apply Forall_app. split; [done|].
      by constructor.
Qed.

Lemma seleccion_primero `{!OrdenTotal T} cs pre cm post :
  seleccion cs = Some (pre, cm, post) →
  Forall (λ c, menor cm.2 c.2 = true) pre ∧
  Forall (λ c, menor c.2 cm.2 = false) post.
Proof.
  destruct cs as [|c rest]; [done|]. intros [= Hs].
  eapply escanear_primero; [| |exact Hs]; constructor.
Qed.

End EspecContenedor.

(** ** pop_min *)

Section PopMin.
Context {T : Type} `{!Lectura T}.
Implicit Types (cs : list (loc * T)) (m : Mem T).

Lemma lista_ok_cabeza this m cs : lista_ok this m cs → cabeza this = head cs.*1.
Proof.
  intros [Hl _ _ _]. destruct cs as [|c cs]; simpl in *; [done|]. by destruct Hl.
Qed.

(** [pop_min] on a well-formed list, for a strict total order on [T], as
    the order of [int] is.
    On the empty list it returns [false] and changes nothing: [outMin], the
    object and the memory are the ones it received, and [size] is 0.  On a
    list that is not empty it returns [true] and, in [outMin], the value [v]
    of the cell [(q, v)] that it removes, where the cells before it are
    strictly above [v] and no cell after it is below [v]: the first
    occurrence of the minimum.  The other cells keep their order and form
    the list again, with [cabeza] on the first of them and [cola] on the
    last (both [NULL] when none is left), [size] is one less, the node [q]
    is released and no cell outside the list changes. *)
Theorem pop_min_primer_minimo `{!OrdenTotal T} (outMin : T) this m cs :
  lista_ok this m cs →
  (cs = [] →
     pop_min outMin this m = Some (false, outMin, this, m) ∧ size this = O) ∧
  (cs ≠ [] →
     ∃ pre q v post this' m',
       pop_min outMin this m = Some (true, v, this', m') ∧
       cs = pre ++ (q, v) :: post ∧
       Forall (λ c, menor v c.2 = true) pre ∧
       Forall (λ c, menor c.2 v = false) post ∧
       lista_ok this' m' (pre ++ post) ∧
       cabeza this' = head (pre ++ post).*1 ∧
       cola this' = last (pre ++ post).*1 ∧
       S (size this') = size this ∧
       nodos m' !! q = None ∧
       marco cs.*1 (nodos m) (nodos m')).
Proof.
  intros Hok. split.
  - intros ->. split; [by apply pop_min_vacia|]. by destruct Hok.
  - intros Hne.
    destruct (pop_min_spec outMin this m cs Hok Hne)
      as (pre & q & v & post & this' & m' & Hrun & Hsel & Hok' & Hq & Hm & _).
    exists pre, q, v, post, this', m'.
    pose proof (seleccion_app _ _ _ _ Hsel) as Heq.
    pose proof (seleccion_primero _ _ _ _ Hsel) as [Hpre Hpost].
    split; [done|]. split; [done|]. split; [done|]. split; [done|].
    split; [done|]. split; [by eapply lista_ok_cabeza|].
    split; [by destruct Hok'|]. split; [|done].
    rewrite (lista_ok_size _ _ _ Hok), (lista_ok_size _ _ _ Hok'), Heq.
    rewrite !length_app. simpl. lia.
Qed.

End PopMin.

Lemma lista_522_ok : lista_ok lista_522 mem_522 celdas_522.
Proof.
  split.
  - simpl. repeat (split; [reflexivity|]; eexists; split; [vm_compute; reflexivity|]).
    reflexivity.
  - reflexivity.
  - reflexivity.
  - apply (bool_decide_unpack _). vm_compute. reflexivity.
Qed.

Lemma pop_min_primer_minimo_witness :
  lista_ok lista_522 mem_522 celdas_522 ∧
  ∃ this' m',
    pop_min 0 lista_522 mem_522 = Some (true, 2, this', m') ∧
    lista_ok this' m' [(1%positive, 5); (3%positive, 2)] ∧
    size this' = 2%nat.
Proof.
  split; [exact lista_522_ok|].
  destruct (pop_min_primer_minimo 0 lista_522 mem_522 celdas_522 lista_522_ok)
    as [_ Hpop].
  destruct Hpop as (pre & q & v & post & this' & m' & Hrun & Heq & Hpre & Hpost
                    & Hok' & _ & _ & Hsz & _); [done|].
  assert (Hv : Some (true, v, this', m') =
               Some (true, 2, mkLista (Some 1%positive) (Some 3%positive) 2,
                     mkMem (delete 2%positive
                              (<[1%positive := mkNodo 5 (Some 3%positive)]> (nodos mem_522)))
                           [Printf (LogNodoLiberado (Fmt_d 2));
                            Delete NodoLectura 2%positive])).
  { rewrite <- Hrun. vm_compute. reflexivity. }
  injection Hv as -> -> ->. eexists _, _. split; [exact Hrun|]. split; [|reflexivity].
  split.
  - simpl. repeat (split; [reflexivity|]; eexists; split; [vm_compute; reflexivity|]).
    reflexivity.
  - reflexivity.
  - reflexivity.
  - apply (bool_decide_unpack _). vm_compute. reflexivity.
Defined.

(** ** Sequences of operations, copies and assignment *)

Section Secuencias.
Context {T : Type} `{!Lectura T}.
Implicit Types (cs : list (loc * T)) (m : Mem T).

(** One operation on a well-formed list [A]: it runs, [A] is well formed
    after it, and a list [B] that shares no node with [A] is unchanged. *)
Lemma ejecutar_spec op A m cs :
  lista_ok A m cs →
  ∃ r A' m' cs',
    ejecutar op A m = Some (r, A', m') ∧
    lista_ok A' m' cs' ∧
    Z.of_nat (length cs') =
      Z.of_nat (length cs) + (if es_push_back r then 1 else 0)
      - Z.of_nat (liberados_por r) ∧
    marco cs.*1 (nodos m) (nodos m') ∧
    (∀ a, a ∈ cs'.*1 → a ∈ cs.*1 ∨ nodos m !! a = None).
Proof.
  intros Hok. destruct op as [v| |]; simpl.
  - destruct (push_back_spec v A m cs Hok)
      as (a & A' & m' & Hrun & Ha & Hok' & Hm & _ & _).
    rewrite Hrun. simpl. exists HechoPushBack, A', m', (cs ++ [(a, v)]).
    split; [done|]. split; [done|]. split; [|split; [done|]].
    + rewrite length_app. simpl. lia.
    + intros b Hb. rewrite fmap_app in Hb. apply elem_of_app in Hb as [Hb|Hb];
        [by left|]. apply list_elem_of_singleton in Hb. subst. by right.
  - destruct (decide (cs = [])) as [->|Hne].
    + rewrite (pop_min_vacia cero A m Hok). simpl.
      exists (HechoPopMin false), A, m, []. split; [done|]. split; [done|].
      split; [done|]. split; [apply marco_refl|]. intros a Ha. by left.
    + destruct (pop_min_spec cero A m cs Hok Hne)
        as (pre & q & v & post & A' & m' & Hrun & Hsel & Hok' & Hq & Hm & _).
      rewrite Hrun. simpl. exists (HechoPopMin true), A', m', (pre ++ post).
      apply seleccion_app in Hsel. subst cs.
      split; [done|]. split; [done|]. split; [|split; [done|]].
      * rewrite !length_app. simpl. lia.
      * intros a Ha. left. rewrite fmap_app in Ha |- *. simpl.
        apply elem_of_app in Ha as [Ha|Ha]; apply elem_of_app; [by left|].
        right. by apply list_elem_of_further.
  - destruct (clear_spec A m cs Hok) as (m' & Hrun & Hfree & Hrest & _).
    rewrite Hrun. simpl. exists (HechoClear (size A)), (mkLista None None 0), m', [].
    split; [done|]. split; [apply lista_ok_vacia|]. split; [|split].
    + rewrite (lista_ok_size _ _ _ Hok). simpl. lia.
    + intros b Hb _. by apply Hrest.
    + intros a Ha. by apply elem_of_nil in Ha.
Qed.

Lemma cuenta_cons f r rs :
  cuenta f (r :: rs) = (if f r then 1 else 0) + cuenta f rs.
Proof. unfold cuenta. simpl. destruct (f r); simpl; lia. Qed.

Lemma eliminados_cons r rs :
  eliminados (r :: rs) = Z.of_nat (liberados_por r) + eliminados rs.
Proof. unfold eliminados. simpl. lia. Qed.

Lemma ejecutar_todas_spec ops : ∀ A m cs B bs,
  lista_ok A m cs → lista_ok B m bs → (∀ a, a ∈ bs.*1 → a ∉ cs.*1) →
  ∃ rs A' m' cs',
    ejecutar_todas ops A m = Some (rs, A', m') ∧
    lista_ok A' m' cs' ∧
    Z.of_nat (length cs') =
      Z.of_nat (length cs) + cuenta es_push_back rs - eliminados rs ∧
    lista_ok B m' bs.
Proof.
  induction ops as [|op ops IH]; intros A m cs B bs HA HB Hdis; simpl.
  - exists [], A, m, cs. split; [done|]. split; [done|]. split; [|done].
    unfold cuenta, eliminados. simpl. lia.
  - destruct (ejecutar_spec op A m cs HA)
      as (r & A1 & m1 & cs1 & Hrun & HA1 & Hlen1 & Hm1 & Hnew).
    rewrite Hrun. simpl.
    assert (HB1 : lista_ok B m1 bs).
    { eapply marco_lista_ok; [exact Hm1|exact Hdis|exact HB]. }
    destruct (IH A1 m1 cs1 B bs HA1 HB1)
      as (rs & A' & m' & cs' & Hruns & HA' & Hlen' & HB').
    { intros a Ha Ha1. destruct (Hnew a Ha1) as [Hin|Hfresh]; [by eapply Hdis|].
      destruct HB as [HlB _ _ _].
      destruct (lseg_alloc _ _ _ _ _ HlB Ha) as [? ?]. congruence. }
    rewrite Hruns. simpl. exists (r :: rs), A', m', cs'.
    split; [done|]. split; [done|]. split; [|done].
    rewrite cuenta_cons, eliminados_cons. lia.
Qed.

(** Every list that the operations build from a constructed one is well
    formed. *)
Lemma lista_alcanzable_ok (ops : list (Operacion T)) m :
  ∃ rs this' m' cs',
    ejecutar_todas ops ListaSensor_ctor m = Some (rs, this', m') ∧
    lista_ok this' m' cs'.
Proof.
  destruct (ejecutar_todas_spec ops ListaSensor_ctor m [] ListaSensor_ctor [])
    as (rs & A' & m' & cs' & Hrun & HA' & _);
    [apply lista_ok_vacia|apply lista_ok_vacia| |].
  { intros a Ha. by apply elem_of_nil in Ha. }
  by exists rs, A', m', cs'.
Qed.

(** C8, as the code has it.  Whatever the operations on a list since its
    construction, all of them run and [size()] is the number of appends
    minus the number of elements removed: one by each [pop_min] that
    returned [true], and by each [clear] as many as the list held. *)
Theorem size_apendices_menos_eliminados (ops : list (Operacion T)) m :
  ∃ rs this' m',
    ejecutar_todas ops ListaSensor_ctor m = Some (rs, this', m') ∧
    Z.of_nat (size this') = cuenta es_push_back rs - eliminados rs.
Proof.
  destruct (ejecutar_todas_spec ops ListaSensor_ctor m [] ListaSensor_ctor [])
    as (rs & A' & m' & cs' & Hrun & HA' & Hlen & _);
    [apply lista_ok_vacia|apply lista_ok_vacia| |].
  { intros a Ha. by apply elem_of_nil in Ha. }
  exists rs, A', m'. split; [done|].
  rewrite (lista_ok_size _ _ _ HA'), Hlen. simpl. lia.
Qed.

Lemma no_altera_disjuntas A B cs bs m :
  lista_ok A m cs → lista_ok B m bs → (∀ a, a ∈ bs.*1 → a ∉ cs.*1) →
  no_altera A B bs m.
Proof.
  intros HA HB Hdis ops.
  destruct (ejecutar_todas_spec ops A m cs B bs HA HB Hdis)
    as (rs & A' & m' & cs' & Hrun & _ & _ & HB').
  exists rs, A', m'. split; [done|]. split; [done|].
  split; [|by apply lista_ok_size in HB].
  by rewrite (sum_spec _ _ _ HB'), (sum_spec _ _ _ HB).
Qed.

End Secuencias.

(** C8, as the spec words it, fails: after two appends and one [clear] the
    size is 0, not 2 - 1. *)
Lemma size_apendices_menos_operaciones_counterexample :
  ∃ rs this' m',
    ejecutar_todas [OpPushBack 1; OpPushBack 2; OpClear] ListaSensor_ctor
      (mkMem (T:=Z) ∅ []) = Some (rs, this', m') ∧
    Z.of_nat (size this') ≠
      cuenta es_push_back rs - (cuenta es_pop_min_ok rs + cuenta es_clear rs).
Proof.
  eexists _, _, _. split; [vm_compute; reflexivity|]. vm_compute. discriminate.
Qed.

(** ** Copy construction and copy assignment *)

Section Copia.
Context {T : Type} `{!Lectura T}.
Implicit Types (cs : list (loc * T)) (m : Mem T).

Lemma es_copia_de_cadenas C D cs ds m :
  lista_ok C m cs → lista_ok D m ds → ds.*2 = cs.*2 →
  (∀ a, a ∈ ds.*1 → a ∉ cs.*1) → es_copia C D cs ds m.
Proof.
  intros HC HD Hval Hdis. split; [done|]. split; [done|]. split; [done|].
  split; [done|]. split.
  - by rewrite (sum_spec _ _ _ HC), (sum_spec _ _ _ HD), Hval.
  - rewrite (lista_ok_size _ _ _ HC), (lista_ok_size _ _ _ HD).
    by rewrite <- (length_fmap snd ds), Hval, length_fmap.
Qed.

Lemma es_copia_no_altera C D cs ds m :
  es_copia C D cs ds m → no_altera D C cs m ∧ no_altera C D ds m.
Proof.
  intros (HC & HD & _ & Hdis & _). split.
  - apply no_altera_disjuntas with (cs := ds); [done|done|].
    intros a Ha Ha'. by eapply Hdis.
  - by apply no_altera_disjuntas with (cs := cs).
Qed.

Lemma ListaSensor_copia_spec C m cs :
  lista_ok C m cs →
  ∃ D m' ds,
    ListaSensor_copia C m = Some (D, m') ∧
    es_copia C D cs ds m' ∧
    (∀ a, a ∈ ds.*1 → nodos m !! a = None) ∧
    salida m' = salida m.
Proof.
  intros HC.
  destruct (copiarDesde_spec C (mkLista None None 0) m cs [] HC (lista_ok_vacia m))
    as (es & D & m' & Hrun & HD & Hval & Hfresh & Hm & Hout).
  { intros a _ Ha. by apply elem_of_nil in Ha. }
  exists D, m', es. split; [done|]. split; [|done].
  apply es_copia_de_cadenas; [|done|done|].
  - eapply marco_lista_ok; [exact Hm| |exact HC].
    intros a _ Ha. by apply elem_of_nil in Ha.
  - intros a Ha. destruct HC as [HlC _ _ _].
    eapply cadena_no_fresca; [exact HlC|]. by apply Hfresh.
Qed.

(** C3.  Copy construction of a well-formed list [C] gives a list [D] in
    nodes that were not allocated before, with the values of [C] in the
    same order, the same [sum()] and the same [size()]; [C] is unchanged,
    no sequence of operations on [D] changes [C], and none on [C] changes
    [D].  Copy assignment of [C] to another object [A] first deletes the
    nodes that [A] owned, each once and in order, and then leaves in [A]
    such a copy.  Assignment of an object to itself returns with the store
    and the memory unchanged. *)
Theorem copia_independiente (C : ListaSensor T) m cs :
  lista_ok C m cs →
  (∃ D m' ds,
     ListaSensor_copia C m = Some (D, m') ∧
     es_copia C D cs ds m' ∧
     (∀ a, a ∈ ds.*1 → nodos m !! a = None) ∧
     no_altera D C cs m' ∧ no_altera C D ds m') ∧
  (∀ (objs : gmap loc (ListaSensor T)) this other A viejas,
     this ≠ other → objs !! this = Some A → objs !! other = Some C →
     lista_ok A m viejas → (∀ a, a ∈ viejas.*1 → a ∉ cs.*1) →
     ∃ D m' ds,
       operator_asignar this other objs m = Some (<[this := D]> objs, m') ∧
       salida m' = salida m ++ (Delete NodoLectura <$> viejas.*1) ∧
       es_copia C D cs ds m' ∧
       no_altera D C cs m' ∧ no_altera C D ds m') ∧
  (∀ (objs : gmap loc (ListaSensor T)) this,
     operator_asignar this this objs m = Some (objs, m)).
Proof.
  intros HC. split; [|split].
  - destruct (ListaSensor_copia_spec C m cs HC)
      as (D & m' & ds & Hrun & Hcopia & Hfresh & _).
    exists D, m', ds. split; [done|]. split; [done|]. split; [done|].
    by apply es_copia_no_altera.
  - intros objs this other A viejas Hne HA HCo HAok Hdis.
    unfold operator_asignar. rewrite decide_True by done. rewrite HA. simpl.
    destruct (clear_spec A m viejas HAok) as (m1 & Hclear & Hfree & Hrest & Hout1).
    rewrite Hclear. simpl. rewrite lookup_insert_ne by done. rewrite HCo. simpl.
    assert (HC1 : lista_ok C m1 cs).
    { eapply marco_lista_ok with (ps := viejas.*1); [|exact (λ a Ha Hv, Hdis a Hv Ha)|exact HC].
      intros b Hb _. by apply Hrest. }
    destruct (copiarDesde_spec C (mkLista None None 0) m1 cs [] HC1 (lista_ok_vacia m1))
      as (es & D & m' & Hrun & HD & Hval & Hfresh & Hm & Hout).
    { intros a _ Ha. by apply elem_of_nil in Ha. }
    rewrite Hrun. simpl. rewrite insert_insert_eq.
    exists D, m', es. split; [done|]. split; [by rewrite Hout, Hout1|].
    assert (Hcopia : es_copia C D cs es m').
    { apply es_copia_de_cadenas; [|done|done|].
      - eapply marco_lista_ok; [exact Hm| |exact HC1].
        intros a _ Ha. by apply elem_of_nil in Ha.
      - intros a Ha. destruct HC1 as [HlC _ _ _].
        eapply cadena_no_fresca; [exact HlC|]. by apply Hfresh. }
    split; [done|]. by apply es_copia_no_altera.
  - intros objs this. unfold operator_asignar. by rewrite decide_False by auto.
Qed.

End Copia.

Lemma copia_independiente_witness :
  lista_ok lista_522 mem_522 celdas_522 ∧
  ∃ D m',
    ListaSensor_copia lista_522 mem_522 = Some (D, m') ∧
    sum D m' = Some 9 ∧ size D = 3%nat ∧ sum lista_522 m' = Some 9.
Proof.
  split; [exact lista_522_ok|].
  destruct (copia_independiente lista_522 mem_522 celdas_522 lista_522_ok)
    as [(D & m' & ds & Hrun & (HC & HD & Hval & _ & Hsum & Hsize) & _) _].
  exists D, m'. split; [exact Hrun|].
  assert (HsC : sum lista_522 m' = Some 9) by (rewrite (sum_spec _ _ _ HC); reflexivity).
  split; [by rewrite Hsum|]. split; [by rewrite Hsize|done].
Defined.

(** ** SensorTemperatura *)

Lemma lista_ok_nodos {T} (this : ListaSensor T) (m m' : Mem T) cs :
  nodos m' = nodos m → lista_ok this m cs → lista_ok this m' cs.
Proof. intros Heq [Hl Hc Hn Hnd]. split; [by rewrite Heq|done..]. Qed.

Lemma promedio_float_spec (h : ListaSensor float) (m : Mem float) cs :
  lista_ok h m cs → promedio_float h m = Some (promedio_de cs.*2).
Proof.
  intros Hok. unfold promedio_float. rewrite (lista_ok_size _ _ _ Hok).
  destruct cs as [|c cs]; [done|]. rewrite decide_True by (simpl; lia).
  rewrite (sum_spec _ _ _ Hok). simpl. unfold promedio_de. simpl.
  by rewrite length_fmap.
Qed.

Section Temperatura.
Implicit Types (this : SensorTemperatura) (m : Mem float) (cs : list (loc * float)).

Lemma Temperatura_procesar_vacia this m :
  lista_ok (historial_T this) m [] →
  SensorTemperatura_procesarLectura this m =
    Some (this, mkMem (nodos m)
                  (salida m ++ [linea_procesando_T this; Printf TempNoHayLecturas])).
Proof.
  intros Hok. unfold SensorTemperatura_procesarLectura.
  rewrite (lista_ok_size _ _ _ Hok). simpl.
  unfold emitir. simpl. by rewrite <- app_assoc.
Qed.

Lemma Temperatura_procesar_spec this m cs :
  lista_ok (historial_T this) m cs → cs ≠ [] →
  ∃ pre q v post h' m1,
    seleccion cs = Some (pre, (q, v), post) ∧
    pop_min float_zero (historial_T this) (emitir (linea_procesando_T this) m)
      = Some (true, v, h', m1) ∧
    SensorTemperatura_procesarLectura this m =
      Some (mkTemp (nombre_T this) h',
            emitir (Printf (TempMinimaEliminada v (promedio_de (pre ++ post).*2))) m1) ∧
    lista_ok h' m1 (pre ++ post) ∧
    marco cs.*1 (nodos m) (nodos m1) ∧
    salida m1 = salida m ++
      [linea_procesando_T this; Printf (LogNodoLiberado (Fmt_3f v));
       Delete NodoLectura q].
Proof.
  intros Hok Hne.
  set (m0 := emitir (linea_procesando_T this) m).
  assert (Hok0 : lista_ok (historial_T this) m0 cs) by (by apply (lista_ok_nodos _ m)).
  destruct (pop_min_spec float_zero (historial_T this) m0 cs Hok0 Hne)
    as (pre & q & v & post & h' & m1 & Hrun & Hsel & Hok' & Hq & Hm & Hout).
  exists pre, q, v, post, h', m1. split; [done|]. split; [done|].
  split; [|split; [done|split; [done|]]].
  - unfold SensorTemperatura_procesarLectura.
    rewrite decide_False.
    2:{ rewrite (lista_ok_size _ _ _ Hok). by destruct cs. }
    fold (linea_procesando_T this). fold m0. rewrite Hrun. simpl.
    by rewrite (promedio_float_spec _ _ _ Hok').
  - rewrite Hout. simpl. by rewrite <- app_assoc.
Qed.

(** As many calls as there are readings leave none. *)
Lemma Temperatura_procesar_veces_spec k : ∀ this m cs,
  lista_ok (historial_T this) m cs → length cs = k →
  ∃ this' m',
    Temperatura_procesar_veces k this m = Some (this', m') ∧
    nombre_T this' = nombre_T this ∧
    lista_ok (historial_T this') m' [].
Proof.
  induction k as [|k IH]; intros this m cs Hok Hlen.
  - destruct cs; [|done]. by exists this, m.
  - destruct (Temperatura_procesar_spec this m cs Hok)
      as (pre & q & v & post & h' & m1 & Hsel & _ & Hrun & Hok' & _);
      [by destruct cs|].
    simpl. rewrite Hrun. simpl.
    apply seleccion_app in Hsel. subst cs.
    destruct (IH (mkTemp (nombre_T this) h')
                 (emitir (Printf (TempMinimaEliminada v (promedio_de (pre ++ post).*2))) m1)
                 (pre ++ post))
      as (this' & m' & Hruns & Hnom & Hfin).
    + by apply (lista_ok_nodos _ m1).
    + rewrite length_app in Hlen |- *. simpl in Hlen. lia.
    + by exists this', m'.
Qed.

End Temperatura.

Section TemperaturaTexto.
Context `{!Libc}.
Implicit Types (this : SensorTemperatura) (m : Mem float) (cs : list (loc * float)).

Lemma Temperatura_registrar_spec (txt : option (list ascii)) this m cs :
  lista_ok (historial_T this) m cs →
  match txt ≫= sscanf_f with
  | Some v =>
      ∃ a h' m',
        SensorTemperatura_registrarDesdeTexto txt this m
          = Some (true, mkTemp (nombre_T this) h', m') ∧
        lista_ok h' m' (cs ++ [(a, v)]) ∧
        nodos m !! a = None ∧
        marco cs.*1 (nodos m) (nodos m')
  | None => SensorTemperatura_registrarDesdeTexto txt this m = Some (false, this, m)
  end.
Proof.
  intros Hok. destruct txt as [t|]; simpl; [|done].
  destruct (sscanf_f t) as [v|] eqn:Hscan; [|done].
  unfold SensorTemperatura_agregar.
  set (m0 := emitir _ m).
  assert (Hok0 : lista_ok (historial_T this) m0 cs) by (by apply (lista_ok_nodos _ m)).
  destruct (push_back_spec v (historial_T this) m0 cs Hok0)
    as (a & h' & m' & Hrun & Ha & Hok' & Hm & _).
  rewrite Hrun. simpl. by exists a, h', m'.
Qed.

Lemma Temperatura_acciones_ok acs : ∀ this m cs,
  lista_ok (historial_T this) m cs →
  ∃ this' m' cs',
    Temperatura_acciones acs this m = Some (this', m') ∧
    lista_ok (historial_T this') m' cs'.
Proof.
  induction acs as [|[txt|] acs IH]; intros this m cs Hok; simpl.
  - by exists this, m, cs.
  - pose proof (Temperatura_registrar_spec txt this m cs Hok) as Hreg.
    destruct (txt ≫= sscanf_f) as [v|].
    + destruct Hreg as (a & h' & m' & Hrun & Hok' & _). rewrite Hrun. simpl.
      by apply (IH _ _ (cs ++ [(a, v)])).
    + rewrite Hreg. simpl. by apply (IH _ _ cs).
  - destruct (decide (cs = [])) as [->|Hne].
    + rewrite (Temperatura_procesar_vacia this m Hok). simpl.
      apply (IH _ _ []). by apply (lista_ok_nodos _ m).
    + destruct (Temperatura_procesar_spec this m cs Hok Hne)
        as (pre & q & v & post & h' & m1 & _ & _ & Hrun & Hok' & _).
      rewrite Hrun. simpl. apply (IH _ _ (pre ++ post)).
      by apply (lista_ok_nodos _ m1).
Qed.

End TemperaturaTexto.

(** [procesarLectura] of a Temperature sensor whose list is well
    formed.  With no reading it prints that there are none and changes
    neither the list nor the nodes.  Otherwise it removes one reading [v],
    below which no stored reading compares (the least of the readings, when
    none of them is a NaN), and prints [v] with the average of the readings
    that remain (0 when none remains).  As many calls as
    the sensor has readings leave it with none, and the call after them
    prints that there are none.  After "10.0", "2.0" and "7.0" one call
    prints the minimum 2.0 and the average 8.5 and leaves two readings. *)
Theorem Temperatura_procesarLectura_elimina_minimo
    (this : SensorTemperatura) (m : Mem float) (cs : list (loc * float)) :
  lista_ok (historial_T this) m cs →
  (cs = [] →
     SensorTemperatura_procesarLectura this m =
       Some (this, mkMem (nodos m)
                     (salida m ++ [linea_procesando_T this; Printf TempNoHayLecturas]))) ∧
  (cs ≠ [] →
     ∃ pre q v post h' m',
       cs = pre ++ (q, v) :: post ∧
       Forall (λ c, float_ltb c.2 v = false) cs ∧
       (Forall (λ c, es_nan c.2 = false) cs →
        Forall (λ c, float_leb v c.2 = true) cs) ∧
       SensorTemperatura_procesarLectura this m
         = Some (mkTemp (nombre_T this) h', m') ∧
       lista_ok h' m' (pre ++ post) ∧
       size h' = pred (size (historial_T this)) ∧
       salida m' = salida m ++
         [linea_procesando_T this; Printf (LogNodoLiberado (Fmt_3f v));
          Delete NodoLectura q;
          Printf (TempMinimaEliminada v (promedio_de (pre ++ post).*2))]) ∧
  (∃ this' m',
     Temperatura_procesar_veces (length cs) this m = Some (this', m') ∧
     size (historial_T this') = O ∧
     lista_ok (historial_T this') m' [] ∧
     SensorTemperatura_procesarLectura this' m' =
       Some (this', mkMem (nodos m')
                      (salida m' ++ [linea_procesando_T this'; Printf TempNoHayLecturas]))) ∧
  (escenario_T001 = Some (true, sensor_T001, mem_T001) ∧
   ∃ s1 m1,
     SensorTemperatura_procesarLectura sensor_T001 mem_T001 = Some (s1, m1) ∧
     last (salida m1) = Some (Printf (TempMinimaEliminada float_2_0 float_8_5)) ∧
     size (historial_T s1) = 2%nat).
Proof.
  intros Hok. split; [|split; [|split]].
  - intros ->. by apply Temperatura_procesar_vacia.
  - intros Hne.
    destruct (Temperatura_procesar_spec this m cs Hok Hne)
      as (pre & q & v & post & h' & m1 & Hsel & _ & Hrun & Hok' & _ & Hout).
    exists pre, q, v, post, h', (emitir (Printf (TempMinimaEliminada v (promedio_de (pre ++ post).*2))) m1).
    pose proof (seleccion_minimal _ _ _ _ Hsel) as Hmin.
    pose proof (seleccion_app _ _ _ _ Hsel) as Heq.
    split; [done|]. split; [done|]. split.
    { intros Hnan.
      assert (Hv : es_nan v = false).
      { rewrite Heq in Hnan. apply Forall_app in Hnan as [_ Hnan].
        by apply Forall_cons in Hnan as [Hnan _]. }
      rewrite Forall_forall in Hmin, Hnan |- *. intros c Hc.
      apply float_no_menor_leb; [by apply Hnan|done|by apply Hmin]. }
    split; [done|].
    split; [by apply (lista_ok_nodos _ m1)|]. split.
    + rewrite (lista_ok_size _ _ _ Hok), (lista_ok_size _ _ _ Hok'), Heq.
      rewrite !length_app. simpl. lia.
    + simpl. rewrite Hout. by rewrite <- app_assoc.
  - destruct (Temperatura_procesar_veces_spec (length cs) this m cs Hok eq_refl)
      as (this' & m' & Hrun & _ & Hfin).
    exists this', m'. split; [done|]. split; [by destruct Hfin|].
    split; [done|]. by apply Temperatura_procesar_vacia.
  - split; [vm_compute; reflexivity|]. eexists _, _.
    split; [vm_compute; reflexivity|]. split; vm_compute; reflexivity.
Qed.

Lemma sensor_T001_ok : lista_ok (historial_T sensor_T001) mem_T001 celdas_T001.
Proof.
  split.
  - simpl. repeat (split; [reflexivity|]; eexists; split; [vm_compute; reflexivity|]).
    reflexivity.
  - reflexivity.
  - reflexivity.
  - apply (bool_decide_unpack _). vm_compute. reflexivity.
Qed.

Lemma Temperatura_procesarLectura_elimina_minimo_witness :
  lista_ok (historial_T sensor_T001) mem_T001 celdas_T001 ∧
  ∃ s1 m1,
    SensorTemperatura_procesarLectura sensor_T001 mem_T001 = Some (s1, m1) ∧
    size (historial_T s1) = 2%nat.
Proof.
  split; [exact sensor_T001_ok|].
  destruct (Temperatura_procesarLectura_elimina_minimo sensor_T001 mem_T001 celdas_T001
              sensor_T001_ok) as (_ & Hproc & _).
  destruct Hproc as (pre & q & v & post & h' & m' & _ & _ & _ & Hrun & _ & Hsz & _);
    [done|].
  exists (mkTemp (nombre_T sensor_T001) h'), m'. split; [exact Hrun|exact Hsz].
Defined.

(** ** The branches of SensorTemperatura::procesarLectura *)

(** C10.  In every state that a Temperature sensor reaches from its
    construction, by readings fed as text and by processing calls, when
    [size()] is not 0 the call of [pop_min] in [procesarLectura] returns
    [true]: the call prints the removed minimum with the average of the
    rest, and the branch for a [pop_min] that returned [false] is not
    taken. *)
Theorem Temperatura_pop_min_devuelve_true `{!Libc}
    (id : list ascii) (acs : list Accion) (m0 : Mem float) :
  ∃ this m,
    Temperatura_acciones acs (SensorTemperatura_ctor id) m0 = Some (this, m) ∧
    (size (historial_T this) ≠ O →
     ∃ v h' m1 promedio,
       pop_min float_zero (historial_T this) (emitir (linea_procesando_T this) m)
         = Some (true, v, h', m1) ∧
       SensorTemperatura_procesarLectura this m =
         Some (mkTemp (nombre_T this) h',
               emitir (Printf (TempMinimaEliminada v promedio)) m1)).
Proof.
  destruct (Temperatura_acciones_ok acs (SensorTemperatura_ctor id) m0 [])
    as (this & m & cs & Hrun & Hok); [apply lista_ok_vacia|].
  exists this, m. split; [done|]. intros Hsize.
  destruct (Temperatura_procesar_spec this m cs Hok)
    as (pre & q & v & post & h' & m1 & _ & Hpop & Hproc & _).
  { intros ->. apply Hsize. by rewrite (lista_ok_size _ _ _ Hok). }
  by exists v, h', m1, (promedio_de (pre ++ post).*2).
Qed.

(** ** SensorPresion *)

Lemma int_wrap_suma a b : int_wrap (int_wrap a + b) = int_wrap (a + b).
Proof.
  unfold int_wrap. f_equal.
  replace ((a + 2 ^ 31) mod 2 ^ 32 - 2 ^ 31 + b + 2 ^ 31)
    with ((a + 2 ^ 31) mod 2 ^ 32 + b) by lia.
  rewrite Zplus_mod_idemp_l. f_equal. lia.
Qed.

Lemma int_wrap_en_rango z : - 2 ^ 31 ≤ z < 2 ^ 31 → int_wrap z = z.
Proof. intros Hz. unfold int_wrap. rewrite Z.mod_small; lia. Qed.

Lemma foldl_int_add vs : ∀ a,
  foldl int_add (int_wrap a) vs = int_wrap (a + suma_int vs).
Proof.
  induction vs as [|v vs IH]; intros a; simpl.
  - by rewrite Z.add_0_r.
  - change (int_add (int_wrap a) v) with (int_wrap (int_wrap a + v)).
    by rewrite IH, <- Z.add_assoc, int_wrap_suma.
Qed.

Lemma sum_int_spec (h : ListaSensor Z) (m : Mem Z) cs :
  lista_ok h m cs → sum h m = Some (int_wrap (suma_int cs.*2)).
Proof.
  intros Hok. rewrite (sum_spec _ _ _ Hok). f_equal.
  change (cero (T:=Z)) with (int_wrap 0). apply foldl_int_add.
Qed.

Section Presion.
Implicit Types (this : SensorPresion) (m : Mem Z) (cs : list (loc * Z)).

(** What [procesarLectura] prints after its first line. *)
Lemma Presion_procesar_spec this m cs :
  lista_ok (historial_P this) m cs →
  SensorPresion_procesarLectura this m =
    Some (this, mkMem (nodos m)
      (salida m ++
         [linea_procesando_P this;
          Printf (match cs with
                  | [] => PresNoHayLecturas
                  | _ => PresPromedio (promedio_presion cs.*2) (length cs)
                  end)])).
Proof.
  intros Hok. unfold SensorPresion_procesarLectura.
  rewrite (lista_ok_size _ _ _ Hok).
  destruct cs as [|c cs].
  - simpl. unfold emitir. simpl. by rewrite <- app_assoc.
  - rewrite decide_False by done.
    rewrite (sum_int_spec _ (emitir (linea_procesando_P this) m) (c :: cs))
      by (by apply (lista_ok_nodos _ m)).
    simpl. unfold emitir, promedio_presion. simpl.
    rewrite <- app_assoc. simpl. by rewrite length_fmap.
Qed.

Lemma Presion_procesar_veces_spec k : ∀ this m cs,
  lista_ok (historial_P this) m cs →
  ∃ m',
    Presion_procesar_veces k this m = Some (this, m') ∧
    nodos m' = nodos m ∧ lista_ok (historial_P this) m' cs.
Proof.
  induction k as [|k IH]; intros this m cs Hok; simpl.
  - by exists m.
  - rewrite (Presion_procesar_spec this m cs Hok). simpl.
    destruct (IH this (mkMem (nodos m) (salida m ++
       [linea_procesando_P this;
        Printf (match cs with
                | [] => PresNoHayLecturas
                | _ => PresPromedio (promedio_presion cs.*2) (length cs)
                end)])) cs) as (m' & Hrun & Hnod & Hok').
    + by apply (lista_ok_nodos _ m).
    + by exists m'.
Qed.

End Presion.

(** C4.  [procesarLectura] of a Pressure sensor whose list is well formed
    changes neither the sensor nor the nodes.  With no reading it prints
    that there are none.  Otherwise it prints the count and the average,
    which is the [float] quotient of the sum of the readings, added as
    [int], by the count; when the sum of the readings is in the range of
    [int] that sum is the exact one.  Any number of calls in a row leaves
    the same list with the same cells, so neither [size()] nor the stored
    readings change.  After "80" and "90" a call prints the average 85.0
    over 2 readings and the size is still 2. *)
Theorem Presion_procesarLectura_no_destructiva
    (this : SensorPresion) (m : Mem Z) (cs : list (loc * Z)) :
  lista_ok (historial_P this) m cs →
  (cs = [] →
     SensorPresion_procesarLectura this m =
       Some (this, mkMem (nodos m)
                     (salida m ++ [linea_procesando_P this; Printf PresNoHayLecturas]))) ∧
  (cs ≠ [] →
     SensorPresion_procesarLectura this m =
       Some (this, mkMem (nodos m)
                     (salida m ++
                        [linea_procesando_P this;
                         Printf (PresPromedio (promedio_presion cs.*2) (length cs))])) ∧
     (- 2 ^ 31 ≤ suma_int cs.*2 < 2 ^ 31 →
      promedio_presion cs.*2 =
        float_div (float_of_int (suma_int cs.*2)) (float_of_size (length cs)))) ∧
  (∀ k, ∃ m',
     Presion_procesar_veces k this m = Some (this, m') ∧
     nodos m' = nodos m ∧
     lista_ok (historial_P this) m' cs ∧
     size (historial_P this) = length cs) ∧
  (escenario_P001 = Some (true, sensor_P001, mem_P001) ∧
   SensorPresion_procesarLectura sensor_P001 mem_P001 =
     Some (sensor_P001,
           mkMem (nodos mem_P001)
                 (salida mem_P001 ++
                    [linea_procesando_P sensor_P001;
                     Printf (PresPromedio float_85_0 2)])) ∧
   size (historial_P sensor_P001) = 2%nat).
Proof.
  intros Hok. split; [|split; [|split]].
  - intros ->. by rewrite (Presion_procesar_spec this m [] Hok).
  - intros Hne. split.
    + rewrite (Presion_procesar_spec this m cs Hok). by destruct cs.
    + intros Hrango. unfold promedio_presion.
      by rewrite int_wrap_en_rango, length_fmap.
  - intros k. destruct (Presion_procesar_veces_spec k this m cs Hok)
      as (m' & Hrun & Hnod & Hok').
    exists m'. split; [done|]. split; [done|]. split; [done|].
    by apply lista_ok_size in Hok.
  - split; [vm_compute; reflexivity|]. split; vm_compute; reflexivity.
Qed.

Lemma sensor_P001_ok : lista_ok (historial_P sensor_P001) mem_P001 celdas_P001.
Proof.
  split.
  - simpl. repeat (split; [reflexivity|]; eexists; split; [vm_compute; reflexivity|]).
    reflexivity.
  - reflexivity.
  - reflexivity.
  - apply (bool_decide_unpack _). vm_compute. reflexivity.
Qed.

Lemma Presion_procesarLectura_no_destructiva_witness :
  lista_ok (historial_P sensor_P001) mem_P001 celdas_P001 ∧
  ∃ m',
    Presion_procesar_veces 3 sensor_P001 mem_P001 = Some (sensor_P001, m') ∧
    nodos m' = nodos mem_P001.
Proof.
  split; [exact sensor_P001_ok|].
  destruct (Presion_procesarLectura_no_destructiva sensor_P001 mem_P001 celdas_P001
              sensor_P001_ok) as (_ & _ & Hveces & _).
  destruct (Hveces 3%nat) as (m' & Hrun & Hnod & _).
  exists m'. split; [exact Hrun|exact Hnod].
Defined.

(** ** registrarDesdeTexto *)

Section PresionTexto.
Context `{!Libc}.
Implicit Types (this : SensorPresion) (m : Mem Z) (cs : list (loc * Z)).

Lemma Presion_registrar_spec (txt : option (list ascii)) this m cs :
  lista_ok (historial_P this) m cs →
  match txt ≫= sscanf_d with
  | Some v =>
      ∃ a h' m',
        SensorPresion_registrarDesdeTexto txt this m
          = Some (true, mkPres (nombre_P this) h', m') ∧
        lista_ok h' m' (cs ++ [(a, v)]) ∧
        nodos m !! a = None ∧
        marco cs.*1 (nodos m) (nodos m')
  | None => SensorPresion_registrarDesdeTexto txt this m = Some (false, this, m)
  end.
Proof.
  intros Hok. destruct txt as [t|]; simpl; [|done].
  destruct (sscanf_d t) as [v|] eqn:Hscan; [|done].
  unfold SensorPresion_agregar.
  set (m0 := emitir _ m).
  assert (Hok0 : lista_ok (historial_P this) m0 cs) by (by apply (lista_ok_nodos _ m)).
  destruct (push_back_spec v (historial_P this) m0 cs Hok0)
    as (a & h' & m' & Hrun & Ha & Hok' & Hm & _).
  rewrite Hrun. simpl. by exists a, h', m'.
Qed.

End PresionTexto.

Lemma parsea_sii {A} (scan : list ascii → option A) (txt : option (list ascii)) v :
  txt ≫= scan = Some v ↔ ∃ t, txt = Some t ∧ scan t = Some v.
Proof.
  destruct txt as [t|]; simpl.
  - split; [intros Hs; by exists t|]. by intros (t' & [= <-] & Hs).
  - split; [done|]. by intros (t' & ? & _).
Qed.

(** [registrarDesdeTexto] of a sensor whose list is well formed, for
    any text (or a null pointer) and whatever the conversions of [sscanf]
    accept.  It returns [true] exactly when the text is there and the
    conversion of the variant reads a value from it ("%f" for Temperature,
    "%d" for Pressure); then that value is appended as one reading, after
    the others, and the size grows by one.  When it returns [false] the
    sensor and the memory, output included, are the ones it received.
    With the decimal grammar, "not-a-number" fed to the Pressure sensor
    "P-001" is rejected and the size stays 2, and the empty text is
    rejected by both variants. *)
Theorem registrarDesdeTexto_segun_sscanf `{!Libc} (txt : option (list ascii))
    (st : SensorTemperatura) (mf : Mem float) (csf : list (loc * float))
    (sp : SensorPresion) (mi : Mem Z) (csi : list (loc * Z)) :
  lista_ok (historial_T st) mf csf →
  lista_ok (historial_P sp) mi csi →
  (∃ ok st' mf',
     SensorTemperatura_registrarDesdeTexto txt st mf = Some (ok, st', mf') ∧
     (ok = true ↔ ∃ t v, txt = Some t ∧ sscanf_f t = Some v) ∧
     (ok = true →
        ∃ a v, txt ≫= sscanf_f = Some v ∧
          lista_ok (historial_T st') mf' (csf ++ [(a, v)]) ∧
          size (historial_T st') = S (size (historial_T st)) ∧
          nombre_T st' = nombre_T st) ∧
     (ok = false → st' = st ∧ mf' = mf)) ∧
  (∃ ok sp' mi',
     SensorPresion_registrarDesdeTexto txt sp mi = Some (ok, sp', mi') ∧
     (ok = true ↔ ∃ t v, txt = Some t ∧ sscanf_d t = Some v) ∧
     (ok = true →
        ∃ a v, txt ≫= sscanf_d = Some v ∧
          lista_ok (historial_P sp') mi' (csi ++ [(a, v)]) ∧
          size (historial_P sp') = S (size (historial_P sp)) ∧
          nombre_P sp' = nombre_P sp) ∧
     (ok = false → sp' = sp ∧ mi' = mi)) ∧
  (@SensorPresion_registrarDesdeTexto libc_decimal
     (Some (texto "not-a-number")) sensor_P001 mem_P001
     = Some (false, sensor_P001, mem_P001) ∧
   size (historial_P sensor_P001) = 2%nat ∧
   @SensorPresion_registrarDesdeTexto libc_decimal
     (Some (texto "")) sensor_P001 mem_P001
     = Some (false, sensor_P001, mem_P001) ∧
   @SensorTemperatura_registrarDesdeTexto libc_decimal
     (Some (texto "")) sensor_T001 mem_T001
     = Some (false, sensor_T001, mem_T001)).
Proof.
  intros Hf Hi. split; [|split].
  - pose proof (Temperatura_registrar_spec txt st mf csf Hf) as Hreg.
    destruct (txt ≫= sscanf_f) as [v|] eqn:Hscan.
    + destruct Hreg as (a & h' & m' & Hrun & Hok' & _).
      exists true, (mkTemp (nombre_T st) h'), m'. split; [done|]. split; [|split].
      * split; [|done]. intros _. apply parsea_sii in Hscan as (t & ? & ?).
        by exists t, v.
      * intros _. exists a, v. split; [done|]. split; [done|]. split; [|done].
        simpl. rewrite (lista_ok_size _ _ _ Hok'), (lista_ok_size _ _ _ Hf).
        rewrite length_app. simpl. lia.
      * done.
    + exists false, st, mf. split; [done|]. split; [|split]; [|done|done].
      split; [done|]. intros (t & v & Ht & Hv).
      assert (txt ≫= sscanf_f = Some v) by (apply parsea_sii; by exists t).
      congruence.
  - pose proof (Presion_registrar_spec txt sp mi csi Hi) as Hreg.
    destruct (txt ≫= sscanf_d) as [v|] eqn:Hscan.
    + destruct Hreg as (a & h' & m' & Hrun & Hok' & _).
      exists true, (mkPres (nombre_P sp) h'), m'. split; [done|]. split; [|split].
      * split; [|done]. intros _. apply parsea_sii in Hscan as (t & ? & ?).
        by exists t, v.
      * intros _. exists a, v. split; [done|]. split; [done|]. split; [|done].
        simpl. rewrite (lista_ok_size _ _ _ Hok'), (lista_ok_size _ _ _ Hi).
        rewrite length_app. simpl. lia.
      * done.
    + exists false, sp, mi. split; [done|]. split; [|split]; [|done|done].
      split; [done|]. intros (t & v & Ht & Hv).
      assert (txt ≫= sscanf_d = Some v) by (apply parsea_sii; by exists t).
      congruence.
  - repeat split; vm_compute; reflexivity.
Qed.

Lemma registrarDesdeTexto_segun_sscanf_witness :
  lista_ok (historial_T sensor_T001) mem_T001 celdas_T001 ∧
  lista_ok (historial_P sensor_P001) mem_P001 celdas_P001 ∧
  ∃ sp' mi' a,
    @SensorPresion_registrarDesdeTexto libc_decimal (Some (texto "85"))
      sensor_P001 mem_P001 = Some (true, sp', mi') ∧
    lista_ok (historial_P sp') mi' (celdas_P001 ++ [(a, 85)]).
Proof.
  split; [exact sensor_T001_ok|]. split; [exact sensor_P001_ok|].
  destruct (@registrarDesdeTexto_segun_sscanf libc_decimal (Some (texto "85"))
              sensor_T001 mem_T001 celdas_T001 sensor_P001 mem_P001 celdas_P001
              sensor_T001_ok sensor_P001_ok)
    as (_ & (ok & sp' & mi' & Hrun & Hiff & Hsi & _) & _).
  assert (Hok : ok = true).
  { apply Hiff. exists (texto "85"), 85. split; [reflexivity|]. vm_compute. reflexivity. }
  subst ok. destruct (Hsi eq_refl) as (a & v & Hv & Hok' & _).
  assert (v = 85) as -> by (vm_compute in Hv; congruence).
  by exists sp', mi', a.
Defined.

(** ** C strings *)

Lemma codigo_inj c1 c2 : codigo c1 = codigo c2 → c1 = c2.
Proof.
  unfold codigo. intros H. apply N2Z.inj in H.
  rewrite <- (ascii_N_embedding c1), <- (ascii_N_embedding c2). by rewrite H.
Qed.

Lemma codigo_NUL c : codigo c = 0 ↔ c = NUL.
Proof.
  split; [|by intros ->]. intros H. apply codigo_inj. by rewrite H.
Qed.

(** [strcmp] returns 0 exactly on equal texts. *)
Lemma strcmp_0 a : ∀ b, strcmp a b = 0 ↔ c_str a = c_str b.
Proof.
  induction a as [|ca a IH]; intros [|cb b]; simpl.
  - done.
  - destruct (decide (cb = NUL)) as [->|Hne]; [done|].
    split; [|done]. intros H. exfalso. apply Hne, codigo_NUL. lia.
  - destruct (decide (ca = NUL)) as [->|Hne]; [done|].
    split; [|done]. intros H. exfalso. apply Hne, codigo_NUL. lia.
  - destruct (decide (ca = cb)) as [->|Hne].
    + destruct (decide (cb = NUL)); [done|]. rewrite IH.
      split; [by intros ->|]. by intros [= ?].
    + split.
      * intros H. exfalso. apply Hne, codigo_inj. lia.
      * destruct (decide (ca = NUL)) as [->|Ha], (decide (cb = NUL)) as [->|Hb];
          try done. by intros [= ? _].
Qed.

Lemma c_str_replicate_NUL k : c_str (replicate (S k) NUL) = [].
Proof. done. Qed.

(** The array that the constructor leaves in [nombre]: the first [k]
    characters of the text of [id], for an array of [k + 1]. *)
Lemma c_str_strncpy k : ∀ id,
  c_str (<[k := NUL]> (strncpy id (S k))) = take k (c_str id).
Proof.
  induction k as [|k IH]; intros id.
  - destruct id as [|c id]; [done|].
    simpl. by destruct (decide (c = NUL)).
  - destruct id as [|c id]; [done|].
    change (strncpy (c :: id) (S (S k)))
      with (if decide (c = NUL) then replicate (S (S k)) NUL
            else c :: strncpy id (S k)).
    change (c_str (c :: id)) with (if decide (c = NUL) then [] else c :: c_str id).
    destruct (decide (c = NUL)) as [->|Hc]; [done|].
    change (<[S k := NUL]> (c :: strncpy id (S k)))
      with (c :: <[k := NUL]> (strncpy id (S k))).
    change (c_str (c :: <[k:=NUL]> (strncpy id (S k))))
      with (if decide (c = NUL) then [] else c :: c_str (<[k:=NUL]> (strncpy id (S k)))).
    rewrite decide_False by done. by rewrite IH.
Qed.

Lemma getNombre_ctor id : c_str (SensorBase_ctor id) = take 49 (c_str id).
Proof. apply (c_str_strncpy 49). Qed.

(** ** The registry *)

Lemma coincide_strcmp id e :
  strcmp (getNombre (e_sensor e)) id = 0 ↔ coincide id e = true.
Proof.
  unfold coincide, nombre_de. by rewrite strcmp_0, bool_decide_eq_true.
Qed.

Lemma buscarPorNombre_bucle_spec id es : ∀ fuel w p,
  lseg (nodos_g w) p (celdas_registro es) None →
  Forall (sensor_en w) es →
  (length es ≤ fuel)%nat →
  buscarPorNombre_bucle fuel w id p = Some (e_dir <$> List.find (coincide id) es).
Proof.
  induction es as [|e es IH]; intros fuel w p; simpl.
  - intros -> _ _. by destruct fuel.
  - intros (-> & nx & Hc & Hl) Hs Hf. simpl in Hc.
    apply Forall_cons in Hs as [[He _] Hs].
    destruct fuel as [|fuel]; [lia|]. simpl. rewrite Hc. simpl. rewrite He. simpl.
    destruct (coincide id e) eqn:Hco.
    + rewrite decide_True by (by apply coincide_strcmp). done.
    + rewrite decide_False.
      2:{ intros H. apply coincide_strcmp in H. congruence. }
      apply IH; [done|done|lia].
Qed.

Lemma buscarPorNombre_spec id this w es :
  registro_ok this w es →
  buscarPorNombre id this w = Some (e_dir <$> List.find (coincide id) es).
Proof.
  intros [[Hl Hc Hn Hnd] Hs _ _ _]. unfold buscarPorNombre.
  apply buscarPorNombre_bucle_spec; [done|done|].
  pose proof (lseg_length _ _ _ _ Hl Hnd) as Hlen.
  unfold celdas_registro in Hlen. by rewrite length_fmap in Hlen.
Qed.

Lemma find_primera {A} (f : A → bool) (l1 : list A) x l2 :
  Forall (λ y, f y = false) l1 → f x = true → List.find f (l1 ++ x :: l2) = Some x.
Proof.
  induction l1 as [|y l1 IH]; simpl; intros Hall Hx.
  - by rewrite Hx.
  - apply Forall_cons in Hall as [Hy Hall]. rewrite Hy. by apply IH.
Qed.

Lemma find_ninguna {A} (f : A → bool) (l : list A) :
  Forall (λ y, f y = false) l → List.find f l = None.
Proof.
  induction l as [|y l IH]; simpl; intros Hall; [done|].
  apply Forall_cons in Hall as [Hy Hall]. rewrite Hy. by apply IH.
Qed.

Lemma celdas_de_app t es1 es2 :
  celdas_de t (es1 ++ es2) = celdas_de t es1 ++ celdas_de t es2.
Proof.
  induction es1 as [|e es1 IH]; simpl; [done|].
  by rewrite IH, app_assoc.
Qed.

Lemma lista_ok_ext {T} (this : ListaSensor T) (m m' : Mem T) cs :
  (∀ a, a ∈ cs.*1 → nodos m' !! a = nodos m !! a) →
  lista_ok this m cs → lista_ok this m' cs.
Proof.
  intros Hext [Hl Hc Hn Hnd]. split; [|done..]. by eapply lseg_ext.
Qed.

(** The list of a sensor depends on its own nodes only. *)
Lemma historial_ok_ext s w w' celdas :
  match s with
  | EsTemperatura _ => ∀ b, b ∈ celdas → nodos_f w' !! b = nodos_f w !! b
  | EsPresion _ => ∀ b, b ∈ celdas → nodos_i w' !! b = nodos_i w !! b
  end →
  historial_ok s w celdas → historial_ok s w' celdas.
Proof.
  destruct s as [t|p]; simpl; intros Hext (cs & Hok & Hcs); exists cs;
    (split; [|done]); (eapply lista_ok_ext; [|exact Hok]);
    rewrite Hcs; exact Hext.
Qed.

Section Crear.
Context `{!Libc}.

Lemma historial_ok_nuevo t id w : historial_ok (sensor_nuevo t id) w [].
Proof. destruct t; simpl; exists []; split; try done; apply lista_ok_vacia. Qed.

(** A sensor created is appended after the entries of the registry. *)
Lemma crear_sensor_spec t id this w es :
  registro_ok this w es →
  ∃ a nodo this' w',
    crear_sensor t id this w = Some (a, this', w') ∧
    sensores w !! a = None ∧
    registro_ok this' w' (es ++ [mkEntrada nodo a (sensor_nuevo t id) []]).
Proof.
  intros [Hlista Hs Hdirs Hcf Hci]. unfold crear_sensor, new_Sensor.
  set (a := fresh (dom (sensores w))).
  assert (Ha : sensores w !! a = None) by apply fresh_None.
  unfold ListaGeneral_push_back.
  set (w1 := con_sensores (<[a := sensor_nuevo t id]> (sensores w)) w).
  destruct (push_back_spec (Some a) this (mem_g w1) _ Hlista)
    as (nodo & this' & m' & Hrun & Hnodo & Hok' & Hm & Hout & _).
  rewrite Hrun. simpl. exists a, nodo, this', (con_mem_g m' w1).
  split; [done|]. split; [done|]. split.
  - unfold celdas_registro. rewrite fmap_app. simpl.
    eapply lista_ok_nodos; [|exact Hok']. done.
  - apply Forall_app. split.
    + eapply Forall_impl; [exact Hs|]. intros e [He Hh]. split.
      * subst w1. simpl. rewrite lookup_insert_ne; [done|].
        intros Heq. rewrite <- Heq in He. congruence.
      * eapply historial_ok_ext; [|exact Hh]. by destruct (e_sensor e).
    + constructor; [|constructor]. split; simpl.
      * apply lookup_insert_eq.
      * apply historial_ok_nuevo.
  - rewrite fmap_app. simpl. apply NoDup_app. split; [done|]. split.
    + intros b Hb Hb'. apply list_elem_of_singleton in Hb'. subst b.
      apply list_elem_of_fmap in Hb as (e & Heq & He).
      rewrite Forall_forall in Hs. destruct (Hs e He) as [Hlook _].
      rewrite <- Heq in Hlook. congruence.
    + apply NoDup_singleton.
  - rewrite celdas_de_app. simpl. unfold celdas_propias. simpl.
    case_decide; by rewrite !app_nil_r.
  - rewrite celdas_de_app. simpl. unfold celdas_propias. simpl.
    case_decide; by rewrite !app_nil_r.
Qed.

End Crear.

(** ** buscarPorNombre *)

Lemma no_coincide id e : nombre_de e ≠ c_str id ↔ coincide id e = false.
Proof. unfold coincide. by rewrite bool_decide_eq_false. Qed.

(** C6.  [buscarPorNombre] on a well-formed registry returns the sensor of
    the first entry, in the order of the chain, whose identifier is the
    text of [id], character by character, and [NULL] when no entry has it;
    entries with the same identifier are allowed, and the first of them is
    the one returned.  The order of the chain is the insertion order: a
    sensor that is created goes after the entries that are there. *)
Theorem buscarPorNombre_primera_coincidencia (id : list ascii)
    (this : ListaGeneral) (w : Mundo) (es : list Entrada) :
  registro_ok this w es →
  buscarPorNombre id this w = Some (e_dir <$> List.find (coincide id) es) ∧
  (∀ es1 e es2,
     es = es1 ++ e :: es2 →
     Forall (λ e', nombre_de e' ≠ c_str id) es1 →
     nombre_de e = c_str id →
     buscarPorNombre id this w = Some (Some (e_dir e))) ∧
  (Forall (λ e', nombre_de e' ≠ c_str id) es →
     buscarPorNombre id this w = Some None) ∧
  (∀ t id', ∃ a nodo this' w',
     crear_sensor t id' this w = Some (a, this', w') ∧
     registro_ok this' w' (es ++ [mkEntrada nodo a (sensor_nuevo t id') []])).
Proof.
  intros Hok. pose proof (buscarPorNombre_spec id this w es Hok) as Hrun.
  split; [done|]. split; [|split].
  - intros es1 e es2 -> Hes1 He. rewrite Hrun, find_primera; [done| |].
    + eapply Forall_impl; [exact Hes1|]. intros e'. apply no_coincide.
    + by apply bool_decide_eq_true.
  - intros Hes. rewrite Hrun, find_ninguna; [done|].
    eapply Forall_impl; [exact Hes|]. intros e'. apply no_coincide.
  - intros t id'. destruct (crear_sensor_spec t id' this w es Hok)
      as (a & nodo & this' & w' & Hcrear & _ & Hok').
    by exists a, nodo, this', w'.
Qed.

Lemma registro_dup_ok : registro_ok registro_dup mundo_dup entradas_dup.
Proof.
  split.
  - split.
    + simpl. repeat (split; [reflexivity|]; eexists; split; [vm_compute; reflexivity|]).
      reflexivity.
    + reflexivity.
    + reflexivity.
    + apply (bool_decide_unpack _). vm_compute. reflexivity.
  - repeat constructor; try (vm_compute; reflexivity);
      exists []; split; try reflexivity; apply lista_ok_vacia.
  - apply (bool_decide_unpack _). vm_compute. reflexivity.
  - apply NoDup_nil_2.
  - apply NoDup_nil_2.
Qed.

Lemma buscarPorNombre_primera_coincidencia_witness :
  registro_ok registro_dup mundo_dup entradas_dup ∧
  buscarPorNombre (texto "S-1") registro_dup mundo_dup = Some (Some 1%positive) ∧
  buscarPorNombre (texto "S-2") registro_dup mundo_dup = Some (Some 3%positive) ∧
  buscarPorNombre (texto "S-3") registro_dup mundo_dup = Some None.
Proof.
  split; [exact registro_dup_ok|].
  pose proof (λ id, proj1 (buscarPorNombre_primera_coincidencia id
                registro_dup mundo_dup entradas_dup registro_dup_ok)) as Hbuscar.
  split; [|split]; rewrite Hbuscar; vm_compute; reflexivity.
Defined.

(** ** The identifier of a sensor *)

Lemma sensor_nuevo_nombre t id : getNombre (sensor_nuevo t id) = SensorBase_ctor id.
Proof. by destruct t. Qed.

(** C9.  The identifier that [getNombre] returns for a sensor constructed
    with [id] has 49 characters at most: it is the text of [id] when that
    has 49 characters or fewer, and its first 49 characters otherwise.  A
    sensor that is created with an identifier of more than 49 characters
    and appended to a well-formed registry is not what [buscarPorNombre]
    returns for that identifier; for one of 50 characters and the empty
    registry, it returns [NULL]. *)
Theorem nombre_truncado_a_49 (t : Tipo) (id : list ascii) :
  (length (c_str (getNombre (sensor_nuevo t id))) ≤ 49)%nat ∧
  ((strlen id ≤ 49)%nat → c_str (getNombre (sensor_nuevo t id)) = c_str id) ∧
  ((49 < strlen id)%nat →
     c_str (getNombre (sensor_nuevo t id)) = take 49 (c_str id)) ∧
  ((49 < strlen id)%nat →
     ∀ this w es, registro_ok this w es →
       ∃ a this' w',
         crear_sensor t id this w = Some (a, this', w') ∧
         buscarPorNombre id this' w' ≠ Some (Some a)) ∧
  ((49 < strlen id_largo)%nat ∧
   ∃ a this' w',
     crear_sensor t id_largo ListaGeneral_ctor mundo_vacio = Some (a, this', w') ∧
     buscarPorNombre id_largo this' w' = Some None).
Proof.
  rewrite sensor_nuevo_nombre, getNombre_ctor. unfold strlen.
  split; [|split; [|split; [|split]]].
  - rewrite length_take. lia.
  - intros Hlen. by rewrite take_ge.
  - done.
  - intros Hlen this w es Hok.
    destruct (crear_sensor_spec t id this w es Hok)
      as (a & nodo & this' & w' & Hcrear & Ha & Hok').
    exists a, this', w'. split; [done|].
    rewrite (buscarPorNombre_spec id this' w' _ Hok').
    destruct (List.find (coincide id) _) as [e|] eqn:Hfind; [|done].
    apply List.find_some in Hfind as [Hin Hco]. apply list_elem_of_In in Hin.
    apply bool_decide_eq_true in Hco. simpl. intros [= Hdir].
    apply elem_of_app in Hin as [Hin|Hin].
    + destruct Hok as [_ Hs _ _ _]. rewrite Forall_forall in Hs.
      destruct (Hs e Hin) as [Hlook _]. rewrite Hdir in Hlook. congruence.
    + apply list_elem_of_singleton in Hin. subst e.
      unfold nombre_de in Hco. simpl in Hco.
      rewrite sensor_nuevo_nombre, getNombre_ctor in Hco.
      apply (f_equal length) in Hco. rewrite length_take in Hco. lia.
  - split; [vm_compute; lia|]. destruct t; eexists _, _, _;
      (split; [vm_compute; reflexivity|]); vm_compute; reflexivity.
Qed.

(** ** liberarTodo *)

(** Two rounds of releases, told on the cells: those of [X], then those of
    [Y]. *)
Lemma lookup_liberados {A} (h0 h1 h2 : gmap loc A) (X Y : list loc) :
  (∀ a, h1 !! a = if decide (a ∈ X) then None else h0 !! a) →
  (∀ a, h2 !! a = if decide (a ∈ Y) then None else h1 !! a) →
  ∀ a, h2 !! a = if decide (a ∈ X ++ Y) then None else h0 !! a.
Proof.
  intros H1 H2 a. rewrite H2, H1.
  destruct (decide (a ∈ X)) as [HX|HX], (decide (a ∈ Y)) as [HY|HY].
  - rewrite decide_True; [done|]. apply elem_of_app. by left.
  - rewrite decide_True; [done|]. apply elem_of_app. by left.
  - rewrite decide_True; [done|]. apply elem_of_app. by right.
  - rewrite decide_False; [done|]. intros Hin.
    apply elem_of_app in Hin as [?|?]; done.
Qed.

Lemma lookup_liberado_uno {A} (h : gmap loc A) (p : loc) :
  ∀ a, delete p h !! a = if decide (a ∈ [p]) then None else h !! a.
Proof.
  intros a. destruct (decide (a ∈ [p])) as [Hin|Hin].
  - apply list_elem_of_singleton in Hin. subst. apply lookup_delete_eq.
  - rewrite lookup_delete_ne; [done|]. intros ->. apply Hin, list_elem_of_here.
Qed.

Lemma lookup_liberado_ninguno {A} (h : gmap loc A) :
  ∀ a, h !! a = if decide (a ∈ @nil loc) then None else h !! a.
Proof.
  intros a. rewrite decide_False; [done|]. intros Hin. by apply elem_of_nil in Hin.
Qed.

Lemma clear_liberados {T} (this : ListaSensor T) (m : Mem T) cs :
  lista_ok this m cs →
  ∃ m',
    clear this m = Some (mkLista None None 0, m') ∧
    (∀ a, nodos m' !! a = if decide (a ∈ cs.*1) then None else nodos m !! a) ∧
    salida m' = salida m ++ (Delete NodoLectura <$> cs.*1).
Proof.
  intros Hok. destruct (clear_spec this m cs Hok) as (m' & Hrun & Hfree & Hrest & Hout).
  exists m'. split; [done|]. split; [|done].
  intros a. destruct (decide (a ∈ cs.*1)); [by apply Hfree|by apply Hrest].
Qed.

(** The virtual destructor of a sensor whose list is well formed: it
    prints its line and deletes the nodes of the list, and nothing else. *)
Lemma destructor_spec s w celdas :
  historial_ok s w celdas →
  ∃ w',
    destructor s w = Some w' ∧
    consola w' = consola w ++
      Printf (DestructorSensor (impreso (getNombre s)) (tipo_de s))
      :: (Delete NodoLectura <$> celdas) ∧
    sensores w' = sensores w ∧
    nodos_g w' = nodos_g w ∧
    (∀ a, nodos_f w' !! a =
          if decide (a ∈ (if decide (tipo_de s = Temperatura) then celdas else []))
          then None else nodos_f w !! a) ∧
    (∀ a, nodos_i w' !! a =
          if decide (a ∈ (if decide (tipo_de s = Presion) then celdas else []))
          then None else nodos_i w !! a).
Proof.
  destruct s as [t|p]; simpl; intros (cs & Hok & Hcs).
  - unfold SensorTemperatura_dtor, ListaSensor_dtor.
    set (m0 := emitir _ (mem_f w)).
    destruct (clear_liberados (historial_T t) m0 cs) as (m' & Hrun & Hlib & Hout);
      [by apply (lista_ok_nodos _ (mem_f w))|].
    rewrite Hrun. simpl. eexists. split; [done|]. simpl.
    rewrite Hout, Hcs in *. simpl. rewrite <- app_assoc.
    split; [done|]. split; [done|]. split; [done|]. split; [exact Hlib|].
    apply lookup_liberado_ninguno.
  - unfold SensorPresion_dtor, ListaSensor_dtor.
    set (m0 := emitir _ (mem_i w)).
    destruct (clear_liberados (historial_P p) m0 cs) as (m' & Hrun & Hlib & Hout);
      [by apply (lista_ok_nodos _ (mem_i w))|].
    rewrite Hrun. simpl. eexists. split; [done|]. simpl.
    rewrite Hout, Hcs in *. simpl. rewrite <- app_assoc.
    split; [done|]. split; [done|]. split; [done|]. split; [|exact Hlib].
    apply lookup_liberado_ninguno.
Qed.

Lemma celdas_propias_elem t e b :
  b ∈ e_celdas e → tipo_de (e_sensor e) = t → b ∈ celdas_propias t e.
Proof. intros Hb Ht. unfold celdas_propias. by rewrite decide_True. Qed.

Lemma celdas_de_elem t e es b :
  e ∈ es → b ∈ celdas_propias t e → b ∈ celdas_de t es.
Proof.
  induction es as [|e' es IH]; intros He Hb; [by apply elem_of_nil in He|].
  simpl. apply elem_of_app. apply elem_of_cons in He as [->|He]; [by left|].
  right. by apply IH.
Qed.

Lemma sensores_eliminados_app evs1 evs2 :
  sensores_eliminados (evs1 ++ evs2) = sensores_eliminados evs1 ++ sensores_eliminados evs2.
Proof. apply omap_app. Qed.

Lemma sensores_eliminados_lecturas ps :
  sensores_eliminados (Delete NodoLectura <$> ps) = [].
Proof. induction ps as [|p ps IH]; [done|]. simpl. exact IH. Qed.

Lemma sensores_eliminados_liberacion es :
  sensores_eliminados (concat (eventos_liberacion <$> es)) = e_dir <$> es.
Proof.
  induction es as [|e es IH]; [done|].
  change (concat (eventos_liberacion <$> e :: es))
    with (eventos_liberacion e ++ concat (eventos_liberacion <$> es)).
  rewrite sensores_eliminados_app, IH. unfold eventos_liberacion.
  rewrite !sensores_eliminados_app, sensores_eliminados_lecturas. done.
Qed.

(** The loop of [liberarTodo] on the entries that are left: it releases
    them one by one, in order. *)
Lemma liberarTodo_bucle_spec es : ∀ fuel w p,
  lseg (nodos_g w) p (celdas_registro es) None →
  NoDup (e_nodo <$> es) →
  Forall (sensor_en w) es →
  NoDup (e_dir <$> es) →
  NoDup (celdas_de Temperatura es) →
  NoDup (celdas_de Presion es) →
  (length es ≤ fuel)%nat →
  ∃ w',
    liberarTodo_bucle fuel w p = Some w' ∧
    consola w' = consola w ++ concat (eventos_liberacion <$> es) ∧
    (∀ a, sensores w' !! a =
          if decide (a ∈ e_dir <$> es) then None else sensores w !! a) ∧
    (∀ a, nodos_g w' !! a =
          if decide (a ∈ e_nodo <$> es) then None else nodos_g w !! a) ∧
    (∀ a, nodos_f w' !! a =
          if decide (a ∈ celdas_de Temperatura es) then None else nodos_f w !! a) ∧
    (∀ a, nodos_i w' !! a =
          if decide (a ∈ celdas_de Presion es) then None else nodos_i w !! a).
Proof.
  induction es as [|e es IH]; intros fuel w p.
  - simpl. intros -> _ _ _ _ _ _. exists w. split; [by destruct fuel|].
    rewrite app_nil_r. split; [done|].
    repeat split; apply lookup_liberado_ninguno.
  - intros (-> & nx & Hc & Hl) Hnn Hs Hnd Hnf Hni Hf. simpl in Hc, Hf.
    rewrite fmap_cons in Hnn, Hnd.
    apply NoDup_cons in Hnn as [Hp Hnn]. apply NoDup_cons in Hnd as [Hd Hnd].
    simpl in Hnf, Hni.
    apply NoDup_app in Hnf as (_ & Hdf & Hnf). apply NoDup_app in Hni as (_ & Hdi & Hni).
    apply Forall_cons in Hs as [[He Hh] Hs].
    destruct fuel as [|fuel]; [lia|]. simpl. rewrite Hc. simpl. rewrite He. simpl.
    set (w1 := imprimir (LiberandoNodo (impreso (getNombre (e_sensor e)))) w).
    destruct (destructor_spec (e_sensor e) w1 (e_celdas e))
      as (w2 & Hdes & Hout2 & Hsen2 & Hg2 & Hf2 & Hi2).
    { eapply historial_ok_ext; [|exact Hh]. by destruct (e_sensor e). }
    rewrite Hdes. simpl.
    unfold delete_NodoG. simpl. rewrite Hg2. change (nodos_g w1) with (nodos_g w).
    rewrite Hc. simpl.
    set (w4 := registrar_evento (Delete NodoGeneral (e_nodo e)) _).
    destruct (IH fuel w4 nx) as (w' & Hrun & Hout & Hsen & Hg & Hff & Hii);
      [| done | | done | done | done | lia |].
    { subst w4. simpl.
      eapply lseg_ext; [|exact Hl]. intros b Hb.
      rewrite lookup_delete_ne; [done|]. intros <-. apply Hp.
      unfold celdas_registro in Hb. rewrite <- list_fmap_compose in Hb. exact Hb. }
    { rewrite Forall_forall in Hs |- *. intros e' He'.
      destruct (Hs e' He') as [Hlook Hhist]. split.
      - subst w4. simpl. rewrite Hsen2. change (sensores w1) with (sensores w).
        rewrite lookup_delete_ne; [done|]. intros Heq. apply Hd.
        rewrite Heq. by apply list_elem_of_fmap_2.
      - eapply historial_ok_ext; [|exact Hhist].
        destruct (e_sensor e') eqn:Hte'.
        + intros b Hb. subst w4. simpl. rewrite Hf2.
          change (nodos_f w1) with (nodos_f w). rewrite decide_False; [done|].
          intros Hin. eapply Hdf; [exact Hin|].
          eapply celdas_de_elem; [exact He'|]. apply celdas_propias_elem; [done|].
          by rewrite Hte'.
        + intros b Hb. subst w4. simpl. rewrite Hi2.
          change (nodos_i w1) with (nodos_i w). rewrite decide_False; [done|].
          intros Hin. eapply Hdi; [exact Hin|].
          eapply celdas_de_elem; [exact He'|]. apply celdas_propias_elem; [done|].
          by rewrite Hte'. }
    exists w'. split; [done|]. split; [|split; [|split; [|split]]].
    + rewrite Hout. subst w4. simpl. rewrite Hout2. subst w1. simpl.
      unfold eventos_liberacion. rewrite <- !app_assoc. simpl.
      by rewrite <- ?app_assoc.
    + apply (lookup_liberados _ (delete (e_dir e) (sensores w)) _ [e_dir e]);
        [apply lookup_liberado_uno|].
      intros a. rewrite Hsen. subst w4. simpl. by rewrite Hsen2.
    + apply (lookup_liberados _ (delete (e_nodo e) (nodos_g w)) _ [e_nodo e]);
        [apply lookup_liberado_uno|].
      intros a. rewrite Hg. by subst w4.
    + apply (lookup_liberados _ (nodos_f w2) _ (celdas_propias Temperatura e));
        [exact Hf2|]. intros a. by rewrite Hff.
    + apply (lookup_liberados _ (nodos_i w2) _ (celdas_propias Presion e));
        [exact Hi2|]. intros a. by rewrite Hii.
Qed.

Lemma sensor_en_imprimir l w e : sensor_en w e → sensor_en (imprimir l w) e.
Proof.
  intros [He Hh]. split; [done|].
  eapply historial_ok_ext; [|exact Hh]. by destruct (e_sensor e).
Qed.

Lemma registro_vacio_ok w : registro_ok (mkLista None None 0) w [].
Proof.
  split; [apply lista_ok_vacia|constructor|apply NoDup_nil_2..].
Qed.

(** C7.  [liberarTodo] on a well-formed registry destroys every sensor it
    owns: each is deleted once, in insertion order, after its destructor
    has deleted the nodes of its list, and each node of the registry after
    its sensor; nothing else is released.  It leaves the registry empty,
    and a call on an empty registry returns with nothing printed and
    nothing changed, so a second call does nothing.  The destructor of the
    registry is this call. *)
Theorem liberarTodo_en_orden_de_insercion
    (this : ListaGeneral) (w : Mundo) (es : list Entrada) :
  registro_ok this w es →
  ∃ w',
    liberarTodo this w = Some (mkLista None None 0, w') ∧
    ListaGeneral_dtor this w = liberarTodo this w ∧
    consola w' = consola w ++
      match es with
      | [] => []
      | _ => Printf LiberacionEnCascada
             :: concat (eventos_liberacion <$> es) ++ [Printf SistemaCerrado]
      end ∧
    sensores_eliminados (drop (length (consola w)) (consola w')) = e_dir <$> es ∧
    NoDup (e_dir <$> es) ∧
    (∀ a, sensores w' !! a =
          if decide (a ∈ e_dir <$> es) then None else sensores w !! a) ∧
    (∀ a, nodos_g w' !! a =
          if decide (a ∈ e_nodo <$> es) then None else nodos_g w !! a) ∧
    (∀ a, nodos_f w' !! a =
          if decide (a ∈ celdas_de Temperatura es) then None else nodos_f w !! a) ∧
    (∀ a, nodos_i w' !! a =
          if decide (a ∈ celdas_de Presion es) then None else nodos_i w !! a) ∧
    registro_ok (mkLista None None 0) w' [] ∧
    liberarTodo (mkLista None None 0) w' = Some (mkLista None None 0, w') ∧
    (es = [] → this = mkLista None None 0 ∧ w' = w).
Proof.
  intros [Hlista Hs Hdirs Hcf Hci].
  destruct es as [|e es].
  - exists w. pose proof Hlista as [Hl Hc Hn _]. simpl in Hl, Hc, Hn.
    assert (Hthis : this = mkLista None None 0).
    { destruct this as [cab col k]. simpl in *. by subst. }
    subst this. split; [done|]. split; [done|].
    split; [by rewrite app_nil_r|]. split; [by rewrite drop_all|].
    split; [done|]. repeat (split; [apply lookup_liberado_ninguno|]).
    split; [apply registro_vacio_ok|done].
  - pose proof Hlista as [Hl Hc Hn Hnd].
    pose proof (lseg_length _ _ _ _ Hl Hnd) as Hlen.
    unfold celdas_registro in Hlen, Hnd. rewrite length_fmap in Hlen.
    rewrite <- list_fmap_compose in Hnd.
    assert (Hcab : is_Some (cabeza this)).
    { destruct Hl as (-> & _). by eexists. }
    destruct Hcab as [cab Hcab].
    set (w0 := imprimir LiberacionEnCascada w).
    destruct (liberarTodo_bucle_spec (e :: es) (base.size (nodos_g w0)) w0 (cabeza this))
      as (w1 & Hrun & Hout & Hsen & Hg & Hff & Hii); [done|done| |done|done|done|done|].
    { eapply Forall_impl; [exact Hs|]. intros e'. apply sensor_en_imprimir. }
    exists (imprimir SistemaCerrado w1).
    assert (Hlib : liberarTodo this w = Some (mkLista None None 0, imprimir SistemaCerrado w1)).
    { unfold liberarTodo. rewrite Hcab. fold w0. rewrite <- Hcab, Hrun. done. }
    assert (Hcons : consola (imprimir SistemaCerrado w1) =
                    consola w ++ Printf LiberacionEnCascada
                      :: concat (eventos_liberacion <$> e :: es) ++ [Printf SistemaCerrado]).
    { simpl consola at 1. rewrite Hout. subst w0. simpl consola at 1.
      rewrite <- !app_assoc. done. }
    split; [done|]. split; [done|]. split; [done|]. split.
    { rewrite Hcons, drop_app_length.
      change (Printf LiberacionEnCascada :: ?l) with ([Printf LiberacionEnCascada] ++ l).
      rewrite !sensores_eliminados_app, sensores_eliminados_liberacion.
      simpl. by rewrite app_nil_r. }
    split; [done|]. split; [done|]. split; [done|]. split; [done|]. split; [done|].
    split; [apply registro_vacio_ok|]. split; done.
Qed.

Lemma liberarTodo_en_orden_de_insercion_witness :
  registro_ok registro_dup mundo_dup entradas_dup ∧
  ∃ w',
    liberarTodo registro_dup mundo_dup = Some (mkLista None None 0, w') ∧
    sensores_eliminados (consola w') = [1%positive; 2%positive; 3%positive] ∧
    liberarTodo (mkLista None None 0) w' = Some (mkLista None None 0, w').
Proof.
  split; [exact registro_dup_ok|].
  destruct (liberarTodo_en_orden_de_insercion registro_dup mundo_dup entradas_dup
              registro_dup_ok)
    as (w' & Hrun & _ & _ & Helim & _ & _ & _ & _ & _ & _ & Hotra & _).
  exists w'. split; [exact Hrun|]. split; [exact Helim|exact Hotra].
Defined.

(** ** Inputs on which the code does not do what its comments announce *)

(** C1.  [pop_min] on the list of [float] that [push_back(NaN)] and
    [push_back(2.0)] build from the empty list: it returns [true] with the
    NaN in [outMin] and releases the head node, and 2.0 stays, alone,
    though the NaN is not at most 2.0 and 2.0 is at most itself.  The scan
    starts with the head as the minimum and no value compares below a NaN.
    With the same two values appended in the other order, it is 2.0 that
    [pop_min] returns and the NaN that stays. *)
Theorem pop_min_nan_en_cabeza :
  push_back_todos [S754_nan; float_2_0] ListaSensor_ctor memoria_vacia
    = Some (lista_dos, mem_nan_2) ∧
  pop_min float_zero lista_dos mem_nan_2
    = Some (true, S754_nan,
            mkLista (Some 2%positive) (Some 2%positive) 1,
            mkMem (list_to_map [(2%positive, mkNodo float_2_0 None)])
                  [Printf (LogNodoLiberado (Fmt_3f S754_nan));
                   Delete NodoLectura 1%positive]) ∧
  float_ltb float_2_0 S754_nan = false ∧
  float_leb S754_nan float_2_0 = false ∧
  float_leb float_2_0 float_2_0 = true ∧
  push_back_todos [float_2_0; S754_nan] ListaSensor_ctor memoria_vacia
    = Some (lista_dos, mem_2_nan) ∧
  pop_min float_zero lista_dos mem_2_nan
    = Some (true, float_2_0,
            mkLista (Some 2%positive) (Some 2%positive) 1,
            mkMem (list_to_map [(2%positive, mkNodo S754_nan None)])
                  [Printf (LogNodoLiberado (Fmt_3f float_2_0));
                   Delete NodoLectura 1%positive]).
Proof. repeat split; vm_compute; reflexivity. Qed.

(** C2.  [procesarLectura] of the Temperature sensor "T-001" after the
    texts "nan", "2.0" and "7.0", which [registrarDesdeTexto] takes all
    three: it removes the NaN, the first reading, and prints it as the
    lowest reading with the average 4.5 of 2.0 and 7.0, which stay, though
    the NaN is not at most 2.0 and 2.0 is below 7.0. *)
Theorem Temperatura_procesarLectura_elimina_nan :
  escenario_nan = Some (true, sensor_nan, mem_nan) ∧
  SensorTemperatura_procesarLectura sensor_nan mem_nan
    = Some (mkTemp (SensorBase_ctor (texto "T-001"))
                   (mkLista (Some 2%positive) (Some 3%positive) 2),
            mkMem (list_to_map [(2%positive, mkNodo float_2_0 (Some 3%positive));
                                (3%positive, mkNodo float_7_0 None)])
                  (salida mem_nan ++
                   [Printf (ProcesandoSensor "T-001" Temperatura);
                    Printf (LogNodoLiberado (Fmt_3f S754_nan));
                    Delete NodoLectura 1%positive;
                    Printf (TempMinimaEliminada S754_nan float_4_5)])) ∧
  float_leb S754_nan float_2_0 = false ∧
  float_ltb float_2_0 float_7_0 = true.
Proof. repeat split; vm_compute; reflexivity. Qed.

(** C5.  [registrarDesdeTexto] on texts that are more than a numeral, read
    with the decimal grammar.  The Pressure sensor "P-001", with the
    readings 80 and 90, takes "12abc" and appends 12, takes "3.99" and
    appends 3, takes " -7up" and appends -7; the Temperature sensor
    "T-001", with 10.0, 2.0 and 7.0, takes "45.3xyz" and appends 45.3.
    Each returns [true] and the list has one reading more. *)
Theorem registrarDesdeTexto_acepta_resto :
  @SensorPresion_registrarDesdeTexto libc_decimal (Some (texto "12abc"))
     sensor_P001 mem_P001 = Some (true, sensor_P001_mas, mem_P001_mas 12) ∧
  @SensorPresion_registrarDesdeTexto libc_decimal (Some (texto "3.99"))
     sensor_P001 mem_P001 = Some (true, sensor_P001_mas, mem_P001_mas 3) ∧
  @SensorPresion_registrarDesdeTexto libc_decimal (Some (texto " -7up"))
     sensor_P001 mem_P001 = Some (true, sensor_P001_mas, mem_P001_mas (-7)) ∧
  @SensorTemperatura_registrarDesdeTexto libc_decimal (Some (texto "45.3xyz"))
     sensor_T001 mem_T001 = Some (true, sensor_T001_mas, mem_T001_mas float_45_3) ∧
  size (historial_P sensor_P001) = 2%nat ∧
  size (historial_P sensor_P001_mas) = 3%nat ∧
  size (historial_T sensor_T001) = 3%nat ∧
  size (historial_T sensor_T001_mas) = 4%nat.
Proof. repeat split; vm_compute; reflexivity. Qed.

(** * Further properties of the code *)

(** ** push_back, sum, clear *)

Section ListaExtra.
Context {T : Type} `{!Lectura T}.
Implicit Types (cs : list (loc * T)) (m : Mem T).

(** X1.  [push_back(v)] on a well-formed list puts [v] in a node that was
    not allocated, after the last node: the elements that were there keep
    their nodes, values and order, [cola] is the new node, the size grows
    by one, nothing is printed and no allocated cell outside the list
    changes. *)
Theorem push_back_al_final (v : T) this m cs :
  lista_ok this m cs →
  ∃ a this' m',
    push_back v this m = Some (this', m') ∧
    nodos m !! a = None ∧
    lista_ok this' m' (cs ++ [(a, v)]) ∧
    cola this' = Some a ∧
    size this' = S (size this) ∧
    salida m' = salida m ∧
    marco cs.*1 (nodos m) (nodos m').
Proof.
  intros Hok.
  destruct (push_back_spec v this m cs Hok)
    as (a & this' & m' & Hrun & Ha & Hok' & Hm & Hout & _).
  exists a, this', m'. split; [done|]. split; [done|]. split; [done|].
  split; [|split; [|done]].
  - destruct Hok' as [_ Hc _ _]. rewrite Hc, fmap_app. simpl. apply last_snoc.
  - rewrite (lista_ok_size _ _ _ Hok), (lista_ok_size _ _ _ Hok'), length_app.
    simpl. lia.
Qed.

(** X2.  [sum()] on a well-formed list is [T(0)] with the elements added
    to it one by one with [+=], from the first to the last; on the empty
    list it is [T(0)]. *)
Theorem sum_pliegue_en_orden this m cs :
  lista_ok this m cs →
  sum this m = Some (foldl suma cero cs.*2) ∧
  (cs = [] → sum this m = Some cero).
Proof.
  intros Hok. split; [by apply sum_spec|].
  intros ->. by rewrite (sum_spec _ _ _ Hok).
Qed.

(** X3.  [clear()] on a well-formed list deletes every node of the list
    once, from the first to the last, and no other cell; it leaves the
    empty list, on which [clear()] and the destructor delete nothing and
    change nothing. *)
Theorem clear_libera_cada_nodo this m cs :
  lista_ok this m cs →
  ∃ m',
    clear this m = Some (mkLista None None 0, m') ∧
    ListaSensor_dtor this m = clear this m ∧
    salida m' = salida m ++ (Delete NodoLectura <$> cs.*1) ∧
    (∀ a, nodos m' !! a = if decide (a ∈ cs.*1) then None else nodos m !! a) ∧
    lista_ok (mkLista None None 0) m' [] ∧
    clear (mkLista None None 0) m' = Some (mkLista None None 0, m') ∧
    ListaSensor_dtor (mkLista None None 0) m' = Some (mkLista None None 0, m').
Proof.
  intros Hok. destruct (clear_liberados this m cs Hok) as (m' & Hrun & Hlib & Hout).
  exists m'. split; [done|]. split; [done|]. split; [done|]. split; [done|].
  split; [apply lista_ok_vacia|].
  assert (Hotra : clear (mkLista None None 0) m' = Some (mkLista None None 0, m')).
  { unfold clear. simpl. by destruct (base.size (nodos m')). }
  by split.
Qed.

End ListaExtra.

Lemma push_back_al_final_witness :
  lista_ok lista_522 mem_522 celdas_522 ∧
  ∃ a this' m',
    push_back 7 lista_522 mem_522 = Some (this', m') ∧
    lista_ok this' m' (celdas_522 ++ [(a, 7)]) ∧ size this' = 4%nat.
Proof.
  split; [exact lista_522_ok|].
  destruct (push_back_al_final 7 lista_522 mem_522 celdas_522 lista_522_ok)
    as (a & this' & m' & Hrun & _ & Hok' & _ & Hsz & _).
  exists a, this', m'. split; [exact Hrun|]. split; [exact Hok'|exact Hsz].
Defined.

Lemma sum_pliegue_en_orden_witness :
  lista_ok lista_522 mem_522 celdas_522 ∧ sum lista_522 mem_522 = Some 9.
Proof.
  split; [exact lista_522_ok|].
  exact (proj1 (sum_pliegue_en_orden lista_522 mem_522 celdas_522 lista_522_ok)).
Defined.

Lemma clear_libera_cada_nodo_witness :
  lista_ok lista_522 mem_522 celdas_522 ∧
  ∃ m',
    clear lista_522 mem_522 = Some (mkLista None None 0, m') ∧
    salida m' = [Delete NodoLectura 1%positive; Delete NodoLectura 2%positive;
                 Delete NodoLectura 3%positive].
Proof.
  split; [exact lista_522_ok|].
  destruct (clear_libera_cada_nodo lista_522 mem_522 celdas_522 lista_522_ok)
    as (m' & Hrun & _ & Hout & _).
  exists m'. split; [exact Hrun|exact Hout].
Defined.

(** X4.  On a list of [int], [sum()] is the sum of the readings reduced to
    32 bits, whatever the intermediate sums were; so two lists with the
    same readings in any order have the same [sum()], and the sum is exact
    when it is in the range of [int]. *)
Theorem sum_int_no_depende_del_orden
    (this : ListaSensor Z) (m : Mem Z) (cs : list (loc * Z))
    (this2 : ListaSensor Z) (m2 : Mem Z) (cs2 : list (loc * Z)) :
  lista_ok this m cs → lista_ok this2 m2 cs2 → cs.*2 ≡ₚ cs2.*2 →
  sum this m = Some (int_wrap (suma_int cs.*2)) ∧
  sum this2 m2 = sum this m ∧
  (- 2 ^ 31 ≤ suma_int cs.*2 < 2 ^ 31 → sum this m = Some (suma_int cs.*2)).
Proof.
  intros Hok Hok2 Hperm.
  rewrite (sum_int_spec _ _ _ Hok), (sum_int_spec _ _ _ Hok2).
  split; [done|]. split.
  - do 2 f_equal. unfold suma_int. symmetry.
    apply (foldr_permutation (=) Z.add 0); [|done]. intros; lia.
  - intros Hr. by rewrite int_wrap_en_rango.
Qed.

Lemma sum_int_no_depende_del_orden_witness :
  lista_ok lista_522 mem_522 celdas_522 ∧
  celdas_522.*2 ≡ₚ celdas_522.*2 ∧
  sum lista_522 mem_522 = Some 9.
Proof.
  split; [exact lista_522_ok|]. split; [reflexivity|].
  destruct (sum_int_no_depende_del_orden lista_522 mem_522 celdas_522
              lista_522 mem_522 celdas_522 lista_522_ok lista_522_ok
              (reflexivity _)) as (_ & _ & Hexacta).
  apply Hexacta. vm_compute. split; [discriminate|reflexivity].
Defined.

(** ** find_first *)

Section FindFirst.
Context {T : Type} `{!Igualdad T}.
Implicit Types (cs : list (loc * T)) (m : Mem T).

Lemma find_first_bucle_spec (value found : T) cs : ∀ fuel h p,
  lseg h p cs None → (length cs ≤ fuel)%nat →
  find_first_bucle fuel h value found p =
    Some (match List.find (λ x, igual x value) cs.*2 with
          | Some x => (true, x)
          | None => (false, found)
          end).
Proof.
  induction cs as [|c cs IH]; intros fuel h p; simpl.
  - intros -> _. by destruct fuel.
  - intros (-> & nx & Hc & Hl) Hf. destruct fuel as [|fuel]; [lia|].
    simpl. rewrite Hc. simpl. destruct (igual c.2 value); [done|].
    apply IH; [done|lia].
Qed.

Lemma find_first_spec (value found : T) (this : ListaSensor T) m cs :
  lista_ok this m cs →
  find_first value found this m =
    Some (match List.find (λ x, igual x value) cs.*2 with
          | Some x => (true, x)
          | None => (false, found)
          end).
Proof.
  intros [Hl Hc Hn Hnd]. apply find_first_bucle_spec; [done|].
  by eapply lseg_length.
Qed.

(** X5.  [find_first(value, found)] on a well-formed list returns [true]
    and, in [found], the first element that [==] takes for equal to
    [value]; when no element is, it returns [false] and leaves [found] as
    it was. *)
Theorem find_first_primera_igual (value found : T) (this : ListaSensor T) m cs :
  lista_ok this m cs →
  find_first value found this m =
    Some (match List.find (λ x, igual x value) cs.*2 with
          | Some x => (true, x)
          | None => (false, found)
          end) ∧
  (∀ pre x post,
     cs.*2 = pre ++ x :: post →
     Forall (λ y, igual y value = false) pre → igual x value = true →
     find_first value found this m = Some (true, x)) ∧
  (Forall (λ y, igual y value = false) cs.*2 →
     find_first value found this m = Some (false, found)).
Proof.
  intros Hok. pose proof (find_first_spec value found this m cs Hok) as Hrun.
  split; [done|]. split.
  - intros pre x post Heq Hpre Hx. rewrite Hrun, Heq.
    by rewrite (find_primera (λ x, igual x value) pre x post).
  - intros Hall. rewrite Hrun. by rewrite find_ninguna.
Qed.

End FindFirst.

Lemma find_first_primera_igual_witness :
  lista_ok lista_522 mem_522 celdas_522 ∧
  find_first 2 0 lista_522 mem_522 = Some (true, 2) ∧
  find_first 8 0 lista_522 mem_522 = Some (false, 0).
Proof.
  split; [exact lista_522_ok|].
  pose proof (λ v, proj1 (find_first_primera_igual v 0 lista_522 mem_522 celdas_522
                            lista_522_ok)) as Hfind.
  split; rewrite Hfind; reflexivity.
Defined.

Lemma find_int_pertenece (v : Z) (vs : list Z) :
  List.find (λ x, igual x v) vs = if decide (v ∈ vs) then Some v else None.
Proof.
  induction vs as [|x vs IH].
  - destruct (decide (v ∈ [])) as [Hin|Hin]; [by apply elem_of_nil in Hin|done].
  - change (List.find (λ x0, igual x0 v) (x :: vs))
      with (if Z.eqb x v then Some x else List.find (λ x0, igual x0 v) vs).
    destruct (Z.eqb_spec x v) as [->|Hne].
    + rewrite decide_True; [done|]. apply list_elem_of_here.
    + rewrite IH. destruct (decide (v ∈ vs)) as [Hin|Hin].
      * rewrite decide_True; [done|]. by apply list_elem_of_further.
      * rewrite decide_False; [done|]. intros Hc.
        apply elem_of_cons in Hc as [->|Hc]; done.
Qed.

(** X6.  On a list of [int], [find_first(v, found)] tells whether [v] is
    stored: it returns [true] with [found = v] when it is, and [false]
    with [found] untouched when it is not.  So it finds [v] after
    [push_back(v)], and finds nothing after [clear()]. *)
Theorem find_first_int_pertenencia (v found : Z)
    (this : ListaSensor Z) (m : Mem Z) (cs : list (loc * Z)) :
  lista_ok this m cs →
  find_first v found this m =
    Some (if decide (v ∈ cs.*2) then (true, v) else (false, found)) ∧
  (∃ this' m',
     push_back v this m = Some (this', m') ∧
     find_first v found this' m' = Some (true, v)) ∧
  (∃ this' m',
     clear this m = Some (this', m') ∧
     find_first v found this' m' = Some (false, found)).
Proof.
  intros Hok.
  assert (Hfind : ∀ (l : ListaSensor Z) (mm : Mem Z) ds, lista_ok l mm ds →
            find_first v found l mm =
              Some (if decide (v ∈ ds.*2) then (true, v) else (false, found))).
  { intros l mm ds Hl.
    rewrite (find_first_spec v found l mm ds Hl), find_int_pertenece.
    by destruct (decide (v ∈ ds.*2)). }
  split; [by apply Hfind|]. split.
  - destruct (push_back_spec v this m cs Hok) as (a & this' & m' & Hrun & _ & Hok' & _).
    exists this', m'. split; [done|]. rewrite (Hfind _ _ _ Hok').
    rewrite decide_True; [done|]. rewrite fmap_app. apply elem_of_app. right.
    apply list_elem_of_here.
  - destruct (clear_spec this m cs Hok) as (m' & Hrun & _).
    exists (mkLista None None 0), m'. split; [done|].
    by rewrite (Hfind _ _ [] (lista_ok_vacia m')).
Qed.

Lemma find_first_int_pertenencia_witness :
  lista_ok lista_522 mem_522 celdas_522 ∧
  find_first 5 0 lista_522 mem_522 = Some (true, 5).
Proof.
  split; [exact lista_522_ok|].
  exact (proj1 (find_first_int_pertenencia 5 0 lista_522 mem_522 celdas_522
                  lista_522_ok)).
Defined.

(** X7.  On a list of [float], [find_first] never finds a NaN, stored or
    not, because [==] takes a NaN for equal to nothing: it returns [false]
    and leaves [found] as it was. *)
Theorem find_first_nan_no_se_encuentra (found : float)
    (this : ListaSensor float) (m : Mem float) (cs : list (loc * float)) :
  lista_ok this m cs →
  find_first S754_nan found this m = Some (false, found).
Proof.
  intros Hok. rewrite (find_first_spec S754_nan found this m cs Hok).
  rewrite find_ninguna; [done|].
  apply Forall_forall. intros y _. by destruct y.
Qed.

Lemma find_first_nan_no_se_encuentra_witness :
  lista_ok (historial_T sensor_T001) mem_T001 celdas_T001 ∧
  find_first S754_nan float_zero (historial_T sensor_T001) mem_T001
    = Some (false, float_zero).
Proof.
  split; [exact sensor_T001_ok|].
  exact (find_first_nan_no_se_encuentra float_zero _ _ _ sensor_T001_ok).
Defined.

(** ** pop_min: lists of float with NaN, and calls in a row *)

Lemma float_ltb_nan_r (x : float) : float_ltb x S754_nan = false.
Proof. by destruct x. Qed.

Lemma float_ltb_no_nan (x y : float) : float_ltb x y = true → es_nan x = false.
Proof. by destruct x. Qed.

Lemma escanear_cabeza_nan (rest : list (loc * float)) : ∀ pre cm post,
  es_nan cm.2 = true →
  escanear pre cm post rest = (pre, cm, post ++ rest).
Proof.
  induction rest as [|c rest IH]; intros pre [q v] post Hnan; simpl in *.
  - by rewrite app_nil_r.
  - destruct v; try done. rewrite float_ltb_nan_r.
    rewrite IH by done. by rewrite <- app_assoc.
Qed.

Lemma escanear_sin_nan (rest : list (loc * float)) : ∀ pre cm post pre' cm' post',
  es_nan cm.2 = false →
  escanear pre cm post rest = (pre', cm', post') →
  es_nan cm'.2 = false.
Proof.
  induction rest as [|c rest IH]; intros pre cm post pre' cm' post' Hnan; simpl.
  - by intros [= <- <- <-].
  - destruct (float_ltb c.2 cm.2) eqn:Hlt; intros Hs.
    + eapply IH; [|exact Hs]. by eapply float_ltb_no_nan.
    + by eapply IH; [|exact Hs].
Qed.

(** X8.  [pop_min] on a well-formed list of [float] that is not empty.
    When the first element is a NaN, that NaN is what it removes and
    returns, whatever the other elements are, because nothing compares
    below a NaN.  When the first element is not a NaN, what it removes is
    not a NaN and is at most every element that is not a NaN: the NaN that
    follow are never selected. *)
Theorem pop_min_float_con_nan (outMin : float) (this : ListaSensor float)
    (m : Mem float) (a : loc) (x : float) (rest : list (loc * float)) :
  lista_ok this m ((a, x) :: rest) →
  (es_nan x = true →
     ∃ this' m',
       pop_min outMin this m = Some (true, x, this', m') ∧
       lista_ok this' m' rest) ∧
  (es_nan x = false →
     ∃ pre q v post this' m',
       pop_min outMin this m = Some (true, v, this', m') ∧
       (a, x) :: rest = pre ++ (q, v) :: post ∧
       lista_ok this' m' (pre ++ post) ∧
       es_nan v = false ∧
       Forall (λ c, es_nan c.2 = false → float_leb v c.2 = true) ((a, x) :: rest)).
Proof.
  intros Hok.
  destruct (pop_min_spec outMin this m _ Hok)
    as (pre & q & v & post & this' & m' & Hrun & Hsel & Hok' & _); [done|].
  split.
  - intros Hnan. simpl in Hsel. rewrite escanear_cabeza_nan in Hsel by done.
    injection Hsel as <- <- <- <-. by exists this', m'.
  - intros Hnan. exists pre, q, v, post, this', m'.
    pose proof (seleccion_app _ _ _ _ Hsel) as Heq.
    pose proof (seleccion_minimal _ _ _ _ Hsel) as Hmin.
    assert (Hv : es_nan v = false).
    { simpl in Hsel. injection Hsel as Hsel.
      by apply (escanear_sin_nan rest [] (a, x) [] pre (q, v) post Hnan Hsel). }
    split; [done|]. split; [done|]. split; [done|]. split; [done|].
    eapply Forall_impl; [exact Hmin|]. simpl. intros c Hc Hcn.
    by apply float_no_menor_leb.
Qed.

Lemma pop_min_float_con_nan_witness :
  lista_ok (historial_T sensor_T001) mem_T001
    ((1%positive, float_10_0) :: [(2%positive, float_2_0); (3%positive, float_7_0)]) ∧
  es_nan float_10_0 = false ∧
  ∃ v this' m',
    pop_min float_zero (historial_T sensor_T001) mem_T001 = Some (true, v, this', m') ∧
    es_nan v = false.
Proof.
  split; [exact sensor_T001_ok|]. split; [reflexivity|].
  destruct (pop_min_float_con_nan float_zero (historial_T sensor_T001) mem_T001
              1%positive float_10_0 [(2%positive, float_2_0); (3%positive, float_7_0)]
              sensor_T001_ok) as [_ Hnn].
  destruct (Hnn eq_refl) as (pre & q & v & post & this' & m' & Hrun & _ & _ & Hv & _).
  exists v, this', m'. split; [exact Hrun|exact Hv].
Defined.

Section Vaciar.
Context {T : Type} `{!Lectura T} `{!OrdenEstricto T}.
Implicit Types (cs : list (loc * T)) (m : Mem T).

Lemma pop_min_veces_vacia k : ∀ (this : ListaSensor T) m,
  lista_ok this m [] → pop_min_veces k this m = Some ([], this, m).
Proof.
  induction k as [|k IH]; intros this m Hok; [done|].
  simpl. rewrite (pop_min_vacia cero this m Hok). simpl.
  by rewrite (IH this m Hok).
Qed.

Lemma pop_min_veces_spec k : ∀ (this : ListaSensor T) m cs j,
  lista_ok this m cs → k = (length cs + j)%nat →
  ∃ vs this' m',
    pop_min_veces k this m = Some (vs, this', m') ∧
    vs ≡ₚ cs.*2 ∧ ascendente vs ∧ lista_ok this' m' [].
Proof.
  induction k as [|k IH]; intros this m cs j Hok Hk.
  - destruct cs; [|done]. by exists [], this, m.
  - destruct (decide (cs = [])) as [->|Hne].
    + exists [], this, m. by rewrite (pop_min_veces_vacia _ this m Hok).
    + destruct (pop_min_spec cero this m cs Hok Hne)
        as (pre & q & v & post & this1 & m1 & Hrun & Hsel & Hok1 & _).
      pose proof (seleccion_app _ _ _ _ Hsel) as Heq.
      pose proof (seleccion_minimal _ _ _ _ Hsel) as Hmin. simpl in Hmin.
      destruct (IH this1 m1 (pre ++ post) j Hok1)
        as (vs & this' & m' & Hruns & Hperm & Hasc & Hfin).
      { rewrite Heq in Hk. rewrite length_app in Hk |- *. simpl in Hk. lia. }
      simpl. rewrite Hrun. simpl. rewrite Hruns. simpl.
      exists (v :: vs), this', m'. split; [done|]. split; [|split; [|done]].
      * rewrite Heq, Hperm, !fmap_app. simpl. apply Permutation_middle.
      * split; [|done]. rewrite Hperm.
        rewrite Heq in Hmin. apply Forall_app in Hmin as [Hpre Hpost].
        apply Forall_cons in Hpost as [_ Hpost].
        apply Forall_fmap. apply Forall_app. split; [exact Hpre|exact Hpost].
Qed.

(** X9.  Calls of [pop_min] in a row, as many as the list has elements or
    more, return the elements of the list in ascending order, each once:
    none of the values returned compares below one returned before it.
    They leave the list empty, and the calls after the last element return
    [false]. *)
Theorem pop_min_veces_en_orden_ascendente (this : ListaSensor T) m cs (j : nat) :
  lista_ok this m cs →
  ∃ vs this' m',
    pop_min_veces (length cs + j) this m = Some (vs, this', m') ∧
    vs ≡ₚ cs.*2 ∧
    ascendente vs ∧
    lista_ok this' m' [] ∧
    pop_min cero this' m' = Some (false, cero, this', m').
Proof.
  intros Hok.
  destruct (pop_min_veces_spec (length cs + j) this m cs j Hok eq_refl)
    as (vs & this' & m' & Hrun & Hperm & Hasc & Hfin).
  exists vs, this', m'. split; [done|]. split; [done|]. split; [done|].
  split; [done|]. by apply pop_min_vacia.
Qed.

End Vaciar.

Lemma pop_min_veces_en_orden_ascendente_witness :
  lista_ok lista_522 mem_522 celdas_522 ∧
  ∃ this' m',
    pop_min_veces 4 lista_522 mem_522 = Some ([2; 2; 5], this', m').
Proof.
  split; [exact lista_522_ok|].
  destruct (pop_min_veces_en_orden_ascendente lista_522 mem_522 celdas_522 1
              lista_522_ok) as (vs & this' & m' & Hrun & _).
  exists this', m'.
  assert (Hvs : Some vs = Some [2; 2; 5]).
  { transitivity (fst <$> (fst <$> pop_min_veces 4 lista_522 mem_522)).
    - change (length celdas_522 + 1)%nat with 4%nat in Hrun. by rewrite Hrun.
    - vm_compute. reflexivity. }
  injection Hvs as <-. exact Hrun.
Defined.

(** ** The registry: creation and lookup, summary, processing pass *)

Lemma find_app {A} (f : A → bool) (l1 l2 : list A) :
  List.find f (l1 ++ l2) =
    match List.find f l1 with Some x => Some x | None => List.find f l2 end.
Proof.
  induction l1 as [|x l1 IH]; simpl; [done|]. by destruct (f x).
Qed.

(** X10.  A sensor created with an identifier of 49 characters or fewer is
    appended to the registry, and [buscarPorNombre] with that identifier
    then returns it, unless an older sensor has the same identifier, which
    is the one returned.  Every lookup that found a sensor before the
    creation finds the same sensor after it. *)
Theorem crear_sensor_y_buscar (t : Tipo) (id : list ascii)
    (this : ListaGeneral) (w : Mundo) (es : list Entrada) :
  registro_ok this w es → (strlen id ≤ 49)%nat →
  ∃ a this' w',
    crear_sensor t id this w = Some (a, this', w') ∧
    sensores w !! a = None ∧
    sensores w' !! a = Some (sensor_nuevo t id) ∧
    buscarPorNombre id this' w' =
      Some (Some (match List.find (coincide id) es with
                  | Some e => e_dir e
                  | None => a
                  end)) ∧
    (∀ id' b, buscarPorNombre id' this w = Some (Some b) →
              buscarPorNombre id' this' w' = Some (Some b)).
Proof.
  intros Hok Hlen.
  destruct (crear_sensor_spec t id this w es Hok)
    as (a & nodo & this' & w' & Hcrear & Ha & Hok').
  exists a, this', w'. split; [done|]. split; [done|].
  pose proof (λ id', buscarPorNombre_spec id' this' w' _ Hok') as Hbus'.
  split; [|split].
  - destruct Hok' as [_ Hs _ _ _]. apply Forall_app in Hs as [_ Hs].
    apply Forall_cons in Hs as [[Hlook _] _]. exact Hlook.
  - rewrite Hbus', find_app. destruct (List.find (coincide id) es); [done|].
    set (e0 := mkEntrada nodo a (sensor_nuevo t id) []).
    assert (Hco : coincide id e0 = true).
    { apply bool_decide_eq_true. unfold nombre_de. simpl.
      rewrite sensor_nuevo_nombre, getNombre_ctor. by rewrite take_ge. }
    change (List.find (coincide id) [e0])
      with (if coincide id e0 then Some e0 else None).
    by rewrite Hco.
  - intros id' b Hb. rewrite (buscarPorNombre_spec id' this w es Hok) in Hb.
    rewrite Hbus', find_app. destruct (List.find (coincide id') es); [done|].
    discriminate.
Qed.

Lemma crear_sensor_y_buscar_witness :
  registro_ok registro_dup mundo_dup entradas_dup ∧
  (strlen (texto "S-9") ≤ 49)%nat ∧
  ∃ a this' w',
    crear_sensor Temperatura (texto "S-9") registro_dup mundo_dup = Some (a, this', w') ∧
    buscarPorNombre (texto "S-9") this' w' = Some (Some a).
Proof.
  split; [exact registro_dup_ok|]. split; [vm_compute; lia|].
  destruct (crear_sensor_y_buscar Temperatura (texto "S-9") registro_dup mundo_dup
              entradas_dup registro_dup_ok) as (a & this' & w' & Hrun & _ & _ & Hbus & _).
  { vm_compute. lia. }
  exists a, this', w'. split; [exact Hrun|exact Hbus].
Defined.

Lemma imprimirInfo_imprimir s w :
  imprimirInfo s w = imprimir (InfoSensor (impreso (getNombre s)) (tipo_de s)) w.
Proof. by destruct s. Qed.

Lemma imprimirResumen_bucle_spec es : ∀ fuel w p,
  lseg (nodos_g w) p (celdas_registro es) None →
  Forall (sensor_en w) es →
  (length es ≤ fuel)%nat →
  imprimirResumen_bucle fuel w p =
    Some (mkMundo (nodos_f w) (nodos_i w) (sensores w) (nodos_g w)
                  (consola w ++ (linea_info <$> es))).
Proof.
  induction es as [|e es IH]; intros fuel w p.
  - simpl. intros -> _ _. rewrite app_nil_r. destruct w. by destruct fuel.
  - intros (-> & nx & Hc & Hl) Hs Hf. simpl in Hc, Hf.
    apply Forall_cons in Hs as [[He Hh] Hs].
    destruct fuel as [|fuel]; [lia|]. simpl. rewrite Hc. simpl. rewrite He. simpl.
    rewrite imprimirInfo_imprimir.
    rewrite (IH fuel _ nx); [|done| |lia].
    + simpl. by rewrite <- app_assoc.
    + eapply Forall_impl; [exact Hs|]. intros e'. apply sensor_en_imprimir.
Qed.

(** X11.  [imprimirResumen] on a well-formed registry prints the number of
    sensors and then one line for each sensor, with its identifier and its
    type, in insertion order; it changes nothing but the output. *)
Theorem imprimirResumen_en_orden (this : ListaGeneral) (w : Mundo) (es : list Entrada) :
  registro_ok this w es →
  imprimirResumen this w =
    Some (mkMundo (nodos_f w) (nodos_i w) (sensores w) (nodos_g w)
            (consola w ++ Printf (SensoresEnLista (length es)) :: (linea_info <$> es))).
Proof.
  intros [[Hl Hc Hn Hnd] Hs _ _ _]. unfold imprimirResumen.
  pose proof (lseg_length _ _ _ _ Hl Hnd) as Hlen.
  unfold celdas_registro in Hlen, Hn. rewrite length_fmap in Hlen, Hn.
  rewrite (imprimirResumen_bucle_spec es); [| done | | done].
  - simpl. rewrite Hn, <- app_assoc. done.
  - eapply Forall_impl; [exact Hs|]. intros e'. apply sensor_en_imprimir.
Qed.

Lemma imprimirResumen_en_orden_witness :
  registro_ok registro_dup mundo_dup entradas_dup ∧
  ∃ w',
    imprimirResumen registro_dup mundo_dup = Some w' ∧
    consola w' =
      [Printf (SensoresEnLista 3);
       Printf (InfoSensor "S-1" Temperatura);
       Printf (InfoSensor "S-1" Presion);
       Printf (InfoSensor "S-2" Presion)].
Proof.
  split; [exact registro_dup_ok|].
  eexists. split;
    [exact (imprimirResumen_en_orden registro_dup mundo_dup entradas_dup registro_dup_ok)|].
  reflexivity.
Defined.

(** ** The number of allocated nodes *)

Section Tam.
Context {T : Type} `{!Lectura T}.

(** [push_back] allocates one node. *)
Lemma push_back_tam (v : T) (this : ListaSensor T) (m : Mem T) this' m' :
  push_back v this m = Some (this', m') →
  base.size (nodos m') = S (base.size (nodos m)).
Proof.
  unfold push_back, new_Nodo. set (p := fresh (dom (nodos m))).
  assert (Hp : nodos m !! p = None) by apply fresh_None.
  destruct (cabeza this).
  - destruct (cola this) as [c|]; [|done]. simpl. unfold set_siguiente. simpl.
    destruct (<[p:=_]> (nodos m) !! c) eqn:Hc; [|done]. simpl.
    intros [= _ <-]. simpl.
    rewrite map_size_insert_Some by (by rewrite Hc). by apply map_size_insert_None.
  - intros [= _ <-]. simpl. by apply map_size_insert_None.
Qed.

(** [pop_min] releases one node when it returns [true], and none when it
    returns [false]. *)
Lemma pop_min_tam (outMin : T) (this : ListaSensor T) (m : Mem T)
    (ok : bool) v this' m' :
  pop_min outMin this m = Some (ok, v, this', m') →
  (base.size (nodos m') + (if ok then 1 else 0) = base.size (nodos m))%nat.
Proof.
  unfold pop_min. destruct (cabeza this) as [cab|]; cycle 1.
  { intros [= <- _ _ <-]. lia. }
  destruct (pop_min_bucle _ _ _ _ _ _) as [[mp q]|]; [|done]. simpl.
  destruct (nodos m !! q) as [nm|] eqn:Hq; [|done]. simpl.
  unfold desenlazar. destruct mp as [mp|]; simpl.
  - unfold set_siguiente. destruct (nodos m !! mp) as [nmp|] eqn:Hmp; [|done]. simpl.
    unfold delete_Nodo. simpl.
    destruct (<[mp:=_]> (nodos m) !! q) eqn:Hq'; [|done]. simpl.
    intros [= <- _ _ <-]. simpl.
    rewrite map_size_delete_Some by (by rewrite Hq').
    rewrite map_size_insert_Some by (by rewrite Hmp).
    pose proof (map_size_ne_0_lookup_2 (nodos m) q). rewrite Hq in *.
    assert (base.size (nodos m) ≠ 0%nat) by auto. lia.
  - unfold delete_Nodo. simpl. rewrite Hq. simpl.
    intros [= <- _ _ <-]. simpl.
    rewrite map_size_delete_Some by (by rewrite Hq).
    pose proof (map_size_ne_0_lookup_2 (nodos m) q). rewrite Hq in *.
    assert (base.size (nodos m) ≠ 0%nat) by auto. lia.
Qed.

End Tam.

Section TamSensores.
Context `{!Libc}.

(** A reading that is taken allocates one node, and one that is refused
    allocates none. *)
Lemma Temperatura_registrar_tam txt this m (ok : bool) this' m' :
  SensorTemperatura_registrarDesdeTexto txt this m = Some (ok, this', m') →
  base.size (nodos m') = (base.size (nodos m) + (if ok then 1 else 0))%nat.
Proof.
  unfold SensorTemperatura_registrarDesdeTexto, SensorTemperatura_agregar.
  destruct txt as [t|]; [|intros [= <- _ <-]; lia].
  destruct (sscanf_f t) as [v|]; [|intros [= <- _ <-]; lia].
  destruct (push_back v _ _) as [[h m1]|] eqn:Hpb; [|done]. simpl.
  intros [= <- _ <-]. apply push_back_tam in Hpb. simpl in Hpb. lia.
Qed.

Lemma Presion_registrar_tam txt this m (ok : bool) this' m' :
  SensorPresion_registrarDesdeTexto txt this m = Some (ok, this', m') →
  base.size (nodos m') = (base.size (nodos m) + (if ok then 1 else 0))%nat.
Proof.
  unfold SensorPresion_registrarDesdeTexto, SensorPresion_agregar.
  destruct txt as [t|]; [|intros [= <- _ <-]; lia].
  destruct (sscanf_d t) as [v|]; [|intros [= <- _ <-]; lia].
  destruct (push_back v _ _) as [[h m1]|] eqn:Hpb; [|done]. simpl.
  intros [= <- _ <-]. apply push_back_tam in Hpb. simpl in Hpb. lia.
Qed.

End TamSensores.

(** ** procesarTodos *)

Lemma historial_ok_marco s w w' celdas psf psi :
  marco psf (nodos_f w) (nodos_f w') →
  marco psi (nodos_i w) (nodos_i w') →
  (∀ b, b ∈ celdas →
        b ∉ match s with EsTemperatura _ => psf | EsPresion _ => psi end) →
  historial_ok s w celdas → historial_ok s w' celdas.
Proof.
  destruct s as [t|p]; simpl; intros Hf Hi Hdis (cs & Hok & Hcs); exists cs;
    (split; [|done]); rewrite <- Hcs in Hdis.
  - by apply (marco_lista_ok psf (mem_f w) (mem_f w')).
  - by apply (marco_lista_ok psi (mem_i w) (mem_i w')).
Qed.

(** One sensor of the registry is processed: its list stays well formed,
    on nodes it had, and only cells of its own change. *)
Lemma procesarLectura_spec (e : Entrada) (w : Mundo) :
  historial_ok (e_sensor e) w (e_celdas e) →
  ∃ s' w1 celdas' evs,
    procesarLectura (e_sensor e) w = Some (s', w1) ∧
    historial_ok s' w1 celdas' ∧
    procesada e (mkEntrada (e_nodo e) (e_dir e) s' celdas') ∧
    sensores w1 = sensores w ∧
    nodos_g w1 = nodos_g w ∧
    marco (celdas_propias Temperatura e) (nodos_f w) (nodos_f w1) ∧
    marco (celdas_propias Presion e) (nodos_i w) (nodos_i w1) ∧
    consola w1 = consola w ++ evs ∧
    sensores_procesados evs = [anuncio e] ∧
    (base.size (nodos_f w1) + length (celdas_propias Temperatura e) =
       base.size (nodos_f w) +
       length (celdas_propias Temperatura (mkEntrada (e_nodo e) (e_dir e) s' celdas')))%nat ∧
    (base.size (nodos_i w1) + length (celdas_propias Presion e) =
       base.size (nodos_i w) +
       length (celdas_propias Presion (mkEntrada (e_nodo e) (e_dir e) s' celdas')))%nat.
Proof.
  unfold procesada, celdas_propias, anuncio.
  destruct e as [nodo dir [t|p] celdas]; simpl; intros (cs & Hok & Hcs).
  - destruct (decide (cs = [])) as [->|Hne].
    + rewrite (Temperatura_procesar_vacia t (mem_f w) Hok). simpl.
      simpl in Hcs. subst celdas.
      eexists (EsTemperatura t), _, [], _. split; [done|]. simpl.
      split; [exists []; split; [|done]; by apply (lista_ok_nodos _ (mem_f w))|].
      split; [done|]. split; [done|]. split; [done|].
      split; [apply marco_refl|]. split; [apply marco_refl|]. by repeat split.
    + destruct (Temperatura_procesar_spec t (mem_f w) cs Hok Hne)
        as (pre & q & v & post & h' & m1 & Hsel & Hpop & Hrun & Hok' & Hm & Hout).
      apply pop_min_tam in Hpop. simpl in Hpop.
      rewrite Hrun. simpl. apply seleccion_app in Hsel. subst cs celdas.
      eexists (EsTemperatura (mkTemp (nombre_T t) h')), _, (pre ++ post).*1, _.
      split; [done|]. simpl.
      split; [exists (pre ++ post); split; [|done]; by apply (lista_ok_nodos _ m1)|].
      split.
      { split; [done|]. split; [done|]. split; [done|]. split; [done|]. split.
        - rewrite !fmap_app. apply sublist_app; [done|]. by apply sublist_cons.
        - rewrite !length_fmap, !length_app. simpl. lia. }
      split; [done|]. split; [done|]. split; [exact Hm|].
      split; [apply marco_refl|]. rewrite Hout. rewrite <- app_assoc.
      split; [done|]. split; [done|]. split; [|done].
      rewrite !length_fmap, !length_app. simpl. lia.
  - rewrite (Presion_procesar_spec p (mem_i w) cs Hok). simpl.
    eexists (EsPresion p), _, celdas, _. split; [done|]. simpl.
    split; [exists cs; split; [|done]; by apply (lista_ok_nodos _ (mem_i w))|].
    split; [done|]. split; [done|]. split; [done|].
    split; [apply marco_refl|]. split; [apply marco_refl|].
    split; [done|]. split; [by destruct cs|]. done.
Qed.

Lemma procesada_celdas_propias t e e' :
  procesada e e' → celdas_propias t e' `sublist_of` celdas_propias t e.
Proof.
  intros (_ & _ & _ & Ht & Hsub & _). unfold celdas_propias. rewrite Ht.
  by destruct (decide (tipo_de (e_sensor e) = t)).
Qed.

Lemma celdas_de_medio t hechos e rest :
  celdas_de t (hechos ++ e :: rest) =
    celdas_de t hechos ++ celdas_propias t e ++ celdas_de t rest.
Proof. by rewrite celdas_de_app. Qed.

Lemma sensores_procesados_app evs1 evs2 :
  sensores_procesados (evs1 ++ evs2) =
    sensores_procesados evs1 ++ sensores_procesados evs2.
Proof. apply omap_app. Qed.

(** The loop of [procesarTodos] on the entries that are left, [hechos]
    being the entries already visited. *)
Lemma procesarTodos_bucle_spec rest : ∀ fuel w p hechos,
  lseg (nodos_g w) p (celdas_registro rest) None →
  Forall (sensor_en w) (hechos ++ rest) →
  NoDup (e_dir <$> hechos ++ rest) →
  NoDup (celdas_de Temperatura (hechos ++ rest)) →
  NoDup (celdas_de Presion (hechos ++ rest)) →
  (length rest ≤ fuel)%nat →
  ∃ w' rest' evs,
    procesarTodos_bucle fuel w p = Some w' ∧
    Forall2 procesada rest rest' ∧
    Forall (sensor_en w') (hechos ++ rest') ∧
    NoDup (celdas_de Temperatura (hechos ++ rest')) ∧
    NoDup (celdas_de Presion (hechos ++ rest')) ∧
    nodos_g w' = nodos_g w ∧
    consola w' = consola w ++ evs ∧
    sensores_procesados evs = anuncio <$> rest ∧
    (base.size (nodos_f w') + length (celdas_de Temperatura rest) =
       base.size (nodos_f w) + length (celdas_de Temperatura rest'))%nat ∧
    (base.size (nodos_i w') + length (celdas_de Presion rest) =
       base.size (nodos_i w) + length (celdas_de Presion rest'))%nat ∧
    base.size (sensores w') = base.size (sensores w).
Proof.
  induction rest as [|e rest IH]; intros fuel w p hechos.
  - simpl. intros -> Hs _ Hnf Hni _. exists w, [], [].
    split; [by destruct fuel|]. split; [constructor|].
    split; [done|]. split; [done|]. split; [done|]. split; [done|].
    split; [by rewrite app_nil_r|]. done.
  - intros (-> & nx & Hc & Hl) Hs Hnd Hnf Hni Hf. simpl in Hc, Hf.
    pose proof Hs as Hs0. apply Forall_app in Hs0 as [_ Hs0].
    apply Forall_cons in Hs0 as [[He Hh] _].
    destruct (procesarLectura_spec e w Hh)
      as (s' & w1 & celdas' & evs1 & Hrun & Hh' & Hproc & Hsen1 & Hg1 & Hmf & Hmi
          & Hout1 & Hev1 & Htf1 & Hti1).
    set (e' := mkEntrada (e_nodo e) (e_dir e) s' celdas') in *.
    destruct fuel as [|fuel]; [lia|]. simpl. rewrite Hc. simpl. rewrite He. simpl.
    rewrite Hrun. simpl. rewrite Hg1, Hc. simpl.
    set (w2 := con_sensores (<[e_dir e := s']> (sensores w1)) w1).
    rewrite celdas_de_medio in Hnf, Hni.
    apply NoDup_app in Hnf as (Hnf1 & Hdf1 & Hnf2).
    apply NoDup_app in Hnf2 as (Hnf2 & Hdf2 & Hnf3).
    apply NoDup_app in Hni as (Hni1 & Hdi1 & Hni2).
    apply NoDup_app in Hni2 as (Hni2 & Hdi2 & Hni3).
    rewrite fmap_app, fmap_cons in Hnd.
    apply NoDup_app in Hnd as (Hnd1 & Hdd1 & Hnd2).
    apply NoDup_cons in Hnd2 as (Hdd2 & Hnd2).
    assert (Hotros : ∀ e'', e'' ∈ hechos ++ rest → sensor_en w e'' → sensor_en w2 e'').
    { intros e'' Hin [Hlook Hhist]. split.
      - subst w2. simpl. rewrite Hsen1. rewrite lookup_insert_ne; [done|].
        intros Heq. apply elem_of_app in Hin as [Hin|Hin].
        + eapply Hdd1; [by apply list_elem_of_fmap_2|]. rewrite <- Heq.
          apply list_elem_of_here.
        + apply Hdd2. rewrite Heq. by apply list_elem_of_fmap_2.
      - apply (historial_ok_marco _ w w2 _ (celdas_propias Temperatura e)
                 (celdas_propias Presion e)); [exact Hmf|exact Hmi| |exact Hhist].
        intros b Hb.
        assert (Hprop : ∀ t, tipo_de (e_sensor e'') = t → b ∉ celdas_propias t e).
        { intros t Ht Hbe.
          assert (Hbp : b ∈ celdas_propias t e'') by (by apply celdas_propias_elem).
          apply elem_of_app in Hin as [Hin|Hin].
          - pose proof (celdas_de_elem t e'' hechos b Hin Hbp) as Hbh.
            destruct t.
            + eapply Hdf1; [exact Hbh|]. apply elem_of_app. by left.
            + eapply Hdi1; [exact Hbh|]. apply elem_of_app. by left.
          - pose proof (celdas_de_elem t e'' rest b Hin Hbp) as Hbr.
            destruct t; [by eapply Hdf2|by eapply Hdi2]. }
        destruct (e_sensor e''); by apply Hprop. }
    destruct (IH fuel w2 nx (hechos ++ [e']))
      as (w' & rest' & evs & Hruns & Hf2 & Hs' & Hnf' & Hni' & Hg' & Hout' & Hev'
          & Htf' & Hti' & Hts');
      [| | | | |lia|].
    { subst w2. simpl. by rewrite Hg1. }
    { rewrite <- app_assoc. simpl. apply Forall_app. split; [|constructor].
      - apply Forall_forall. intros e'' Hin. apply Hotros.
        + apply elem_of_app. by left.
        + rewrite Forall_forall in Hs. apply Hs, elem_of_app. by left.
      - split; simpl.
        + apply lookup_insert_eq.
        + eapply historial_ok_ext; [|exact Hh']. by destruct s'.
      - apply Forall_forall. intros e'' Hin. apply Hotros.
        + apply elem_of_app. by right.
        + rewrite Forall_forall in Hs. apply Hs, elem_of_app. right.
          by apply list_elem_of_further. }
    { rewrite <- app_assoc, fmap_app. simpl. apply NoDup_app.
      split; [done|]. split; [done|]. by apply NoDup_cons. }
    { rewrite <- app_assoc. simpl. rewrite celdas_de_medio.
      apply NoDup_app. split; [done|]. split.
      - intros b Hb Hb'. eapply Hdf1; [exact Hb|].
        apply elem_of_app in Hb' as [Hb'|Hb']; apply elem_of_app; [left|by right].
        eapply elem_of_sublist; [exact Hb'|]. by apply procesada_celdas_propias.
      - apply NoDup_app. split; [|split; [|done]].
        + eapply sublist_NoDup; [exact Hnf2|]. by apply procesada_celdas_propias.
        + intros b Hb. apply Hdf2.
          eapply elem_of_sublist; [exact Hb|]. by apply procesada_celdas_propias. }
    { rewrite <- app_assoc. simpl. rewrite celdas_de_medio.
      apply NoDup_app. split; [done|]. split.
      - intros b Hb Hb'. eapply Hdi1; [exact Hb|].
        apply elem_of_app in Hb' as [Hb'|Hb']; apply elem_of_app; [left|by right].
        eapply elem_of_sublist; [exact Hb'|]. by apply procesada_celdas_propias.
      - apply NoDup_app. split; [|split; [|done]].
        + eapply sublist_NoDup; [exact Hni2|]. by apply procesada_celdas_propias.
        + intros b Hb. apply Hdi2.
          eapply elem_of_sublist; [exact Hb|]. by apply procesada_celdas_propias. }
    exists w', (e' :: rest'), (evs1 ++ evs). split; [done|].
    split; [by constructor|]. rewrite <- app_assoc in Hs', Hnf', Hni'.
    split; [done|]. split; [done|]. split; [done|].
    split; [by rewrite Hg'|]. split.
    + rewrite Hout'. subst w2. simpl. by rewrite Hout1, <- app_assoc.
    + split; [by rewrite sensores_procesados_app, Hev1, Hev'|].
      subst w2. simpl in Htf', Hti', Hts'. simpl. rewrite !length_app.
      split; [lia|]. split; [lia|]. rewrite Hts', Hsen1.
      apply map_size_insert_Some. by rewrite He.
Qed.

Lemma procesada_mismas_celdas es es' :
  Forall2 procesada es es' →
  e_dir <$> es' = e_dir <$> es ∧ celdas_registro es' = celdas_registro es.
Proof.
  induction 1 as [|e e' es es' (Hn & Hd & _) _ [IH1 IH2]]; [done|].
  unfold celdas_registro in *. rewrite !fmap_cons, IH1, IH2, Hn, Hd. done.
Qed.



(** ** procesarLineaSerial *)

Lemma c_str_sin_NUL (s : list ascii) : Forall (λ c, c ≠ NUL) (c_str s).
Proof.
  induction s as [|c s IH]; simpl; [constructor|].
  destruct (decide (c = NUL)); [constructor|]. by constructor.
Qed.

Lemma c_str_hasta_NUL (t r : list ascii) :
  Forall (λ c, c ≠ NUL) t → c_str (t ++ NUL :: r) = t.
Proof.
  induction t as [|c t IH]; intros Ht; [done|].
  apply Forall_cons in Ht as [Hc Ht]. simpl.
  rewrite decide_False by done. by rewrite IH.
Qed.

Lemma strchr_spec (c : ascii) (s : list ascii) : ∀ k,
  c ≠ NUL → strchr s c = Some k →
  Forall (λ x, x ≠ NUL ∧ x ≠ c) (take k s) ∧ s !! k = Some c.
Proof.
  induction s as [|x s IH]; intros k Hc; simpl.
  - by rewrite decide_False.
  - destruct (decide (x = c)) as [->|Hxc]; [by intros [= <-]|].
    destruct (decide (x = NUL)) as [->|Hx]; [done|].
    destruct (strchr s c) as [k'|] eqn:Hs; [|done]. intros [= <-].
    destruct (IH k' Hc eq_refl) as [Hall Hlook]. split; [|done].
    simpl. by constructor.
Qed.

Lemma strncpy_forma k : ∀ s,
  ∃ r, strncpy s k ++ [NUL] = take k (c_str s) ++ NUL :: r.
Proof.
  induction k as [|k IH]; intros s.
  - exists []. rewrite take_0. by destruct s.
  - destruct s as [|c s].
    + by exists (replicate k NUL ++ [NUL]).
    + change (strncpy (c :: s) (S k))
        with (if decide (c = NUL) then replicate (S k) NUL else c :: strncpy s k).
      change (c_str (c :: s)) with (if decide (c = NUL) then [] else c :: c_str s).
      destruct (decide (c = NUL)); [by exists (replicate k NUL ++ [NUL])|].
      destruct (IH s) as [r Hr]. exists r. simpl. by rewrite Hr.
Qed.

(** The text in [id]: what is before the comma, 63 characters at most. *)
Lemma serial_id_texto (linea : list ascii) (coma : nat) :
  strchr linea ","%char = Some coma →
  c_str (serial_id linea coma) = texto_id linea coma.
Proof.
  intros Hs.
  assert (Hcn : ","%char ≠ NUL) by (unfold NUL; congruence).
  destruct (strchr_spec _ _ _ Hcn Hs) as [Hall Hlook].
  apply lookup_lt_Some in Hlook as Hlen.
  unfold serial_id, texto_id, memcpy, TAM_SERIAL.
  set (k := if decide (64 ≤ coma)%nat then (64 - 1)%nat else coma).
  assert (Hk : k = Nat.min coma 63) by (subst k; case_decide; lia).
  rewrite <- Hk. rewrite drop_replicate.
  assert (Hrep : replicate (64 - k) NUL = NUL :: replicate (63 - k) NUL).
  { replace (64 - k)%nat with (S (63 - k)) by lia. done. }
  rewrite Hrep.
  assert (Hlk : length (take k linea) = k) by (rewrite length_take; lia).
  replace k with (length (take k linea) + 0)%nat at 1 by lia.
  rewrite insert_app_r. simpl. apply c_str_hasta_NUL.
  replace (take k linea) with (take k (take coma linea)) by (rewrite take_take; f_equal; lia).
  apply Forall_take. eapply Forall_impl; [exact Hall|]. by intros x [? _].
Qed.

(** The text in [valor]: what is after the comma, 63 characters at most,
    without the line terminator at its end. *)
Lemma serial_valor_texto (linea : list ascii) (coma : nat) :
  c_str (serial_valor linea coma) = texto_valor linea coma.
Proof.
  unfold serial_valor, texto_valor, TAM_SERIAL.
  set (pVal := drop (S coma) linea).
  change (drop (64 - 1) (replicate 64 NUL)) with [NUL].
  change (64 - 1)%nat with 63%nat.
  destruct (strncpy_forma 63 pVal) as [r Hr]. rewrite Hr.
  set (t := take 63 (c_str pVal)).
  assert (Ht : Forall (λ c, c ≠ NUL) t) by apply Forall_take, c_str_sin_NUL.
  assert (Hlv : strlen (t ++ NUL :: r) = length t).
  { unfold strlen. by rewrite c_str_hasta_NUL. }
  rewrite Hlv. unfold sin_fin_de_linea. rewrite last_lookup.
  destruct (decide (length t = O)) as [H0|H0].
  - apply length_zero_iff_nil in H0. by rewrite H0.
  - replace (pred (length t)) with (length t - 1)%nat by lia.
    rewrite lookup_app_l by lia.
    destruct (t !! (length t - 1)%nat) as [c|] eqn:Hc.
    2:{ apply lookup_ge_None in Hc. lia. }
    rewrite bool_decide_true by done. simpl.
    destruct (es_fin_de_linea c); [|by apply c_str_hasta_NUL].
    rewrite insert_app_l by lia.
    assert (Hins : <[(length t - 1)%nat := NUL]> t =
                   take (length t - 1) t ++ [NUL]).
    { rewrite <- (take_drop (length t - 1) t) at 2.
      replace (length t - 1)%nat with (length (take (length t - 1) t) + 0)%nat at 1
        by (rewrite length_take; lia).
      rewrite insert_app_r. f_equal.
      destruct (drop (length t - 1) t) as [|d [|d' ds]] eqn:Hd; [| done |].
      - apply (f_equal length) in Hd. rewrite length_drop in Hd. simpl in Hd. lia.
      - apply (f_equal length) in Hd. rewrite length_drop in Hd. simpl in Hd. lia. }
    rewrite Hins, <- app_assoc. simpl. apply c_str_hasta_NUL. by apply Forall_take.
Qed.

Lemma find_Some_split {A} (f : A → bool) (l : list A) x :
  List.find f l = Some x →
  ∃ l1 l2, l = l1 ++ x :: l2 ∧ Forall (λ y, f y = false) l1 ∧ f x = true.
Proof.
  induction l as [|y l IH]; simpl; [done|].
  destruct (f y) eqn:Hy.
  - intros [= ->]. by exists [], l.
  - intros Hf. destruct (IH Hf) as (l1 & l2 & -> & Hall & Hx).
    exists (y :: l1), l2. split; [done|]. split; [by constructor|done].
Qed.

Lemma find_None_todas {A} (f : A → bool) (l : list A) :
  List.find f l = None → Forall (λ y, f y = false) l.
Proof.
  induction l as [|y l IH]; simpl; [constructor|].
  destruct (f y) eqn:Hy; [done|]. intros Hf. constructor; [done|by apply IH].
Qed.

Lemma mundo_eta (w : Mundo) :
  mkMundo (nodos_f w) (nodos_i w) (sensores w) (nodos_g w) (consola w) = w.
Proof. by destruct w. Qed.

(** The nodes of the lists of the sensors are allocated. *)
Lemma celdas_de_asignadas w es b :
  Forall (sensor_en w) es →
  (b ∈ celdas_de Temperatura es → is_Some (nodos_f w !! b)) ∧
  (b ∈ celdas_de Presion es → is_Some (nodos_i w !! b)).
Proof.
  induction es as [|e es IH]; intros Hs.
  - split; intros Hb; by apply elem_of_nil in Hb.
  - apply Forall_cons in Hs as [[_ Hh] Hs]. destruct (IH Hs) as [IHf IHi].
    simpl. unfold celdas_propias.
    destruct (e_sensor e) as [t|p]; simpl in *; destruct Hh as (cs & [Hl _ _ _] & Hcs);
      (split; [|]); intros Hb; try (by auto);
      apply elem_of_app in Hb as [Hb|Hb]; try (by auto);
      rewrite <- Hcs in Hb; by eapply lseg_alloc.
Qed.

Section SerialSpec.
Context `{!Libc}.

(** A reading fed to the sensor of an entry: rejected, nothing changes;
    accepted, the list of the sensor has one node more, that was not
    allocated, and nothing else changes. *)
Lemma registrarDesdeTexto_spec (txt : option (list ascii)) (e : Entrada) (w : Mundo) :
  historial_ok (e_sensor e) w (e_celdas e) →
  ∃ ok s' w1,
    registrarDesdeTexto txt (e_sensor e) w = Some (ok, s', w1) ∧
    (ok = true ↔
       match e_sensor e with
       | EsTemperatura _ => is_Some (txt ≫= sscanf_f)
       | EsPresion _ => is_Some (txt ≫= sscanf_d)
       end) ∧
    (ok = false → s' = e_sensor e ∧ w1 = w) ∧
    (ok = true →
       ∃ a,
         historial_ok s' w1 (e_celdas e ++ [a]) ∧
         getNombre s' = getNombre (e_sensor e) ∧
         tipo_de s' = tipo_de (e_sensor e) ∧
         sensores w1 = sensores w ∧ nodos_g w1 = nodos_g w ∧
         marco (celdas_propias Temperatura e) (nodos_f w) (nodos_f w1) ∧
         marco (celdas_propias Presion e) (nodos_i w) (nodos_i w1) ∧
         match e_sensor e with
         | EsTemperatura _ =>
             nodos_f w !! a = None ∧ nodos_i w1 = nodos_i w ∧
             base.size (nodos_f w1) = S (base.size (nodos_f w))
         | EsPresion _ =>
             nodos_i w !! a = None ∧ nodos_f w1 = nodos_f w ∧
             base.size (nodos_i w1) = S (base.size (nodos_i w))
         end).
Proof.
  unfold celdas_propias.
  destruct e as [nodo dir [t|p] celdas]; simpl; intros (cs & Hok & Hcs).
  - pose proof (Temperatura_registrar_spec txt t (mem_f w) cs Hok) as Hreg.
    destruct (txt ≫= sscanf_f) as [v|].
    + destruct Hreg as (a & h' & m' & Hrun & Hok' & Ha & Hm). rewrite Hrun. simpl.
      apply Temperatura_registrar_tam in Hrun. simpl in Hrun.
      eexists true, _, _. split; [done|]. split; [by split|]. split; [done|].
      intros _. exists a. simpl. subst celdas.
      split; [exists (cs ++ [(a, v)]); split; [|by rewrite fmap_app];
              by apply (lista_ok_nodos _ m')|].
      split; [done|]. split; [done|]. split; [done|]. split; [done|].
      split; [exact Hm|]. split; [apply marco_refl|].
      split; [done|]. split; [done|]. lia.
    + rewrite Hreg. simpl. eexists false, _, _. split; [done|].
      split; [split; [done|by intros [? ?]]|]. split; [|done].
      intros _. split; [done|]. apply mundo_eta.
  - pose proof (Presion_registrar_spec txt p (mem_i w) cs Hok) as Hreg.
    destruct (txt ≫= sscanf_d) as [v|].
    + destruct Hreg as (a & h' & m' & Hrun & Hok' & Ha & Hm). rewrite Hrun. simpl.
      apply Presion_registrar_tam in Hrun. simpl in Hrun.
      eexists true, _, _. split; [done|]. split; [by split|]. split; [done|].
      intros _. exists a. simpl. subst celdas.
      split; [exists (cs ++ [(a, v)]); split; [|by rewrite fmap_app];
              by apply (lista_ok_nodos _ m')|].
      split; [done|]. split; [done|]. split; [done|]. split; [done|].
      split; [apply marco_refl|]. split; [exact Hm|].
      split; [done|]. split; [done|]. lia.
    + rewrite Hreg. simpl. eexists false, _, _. split; [done|].
      split; [split; [done|by intros [? ?]]|]. split; [|done].
      intros _. split; [done|]. apply mundo_eta.
Qed.

End SerialSpec.

Section SerialRegistro.
Context `{!Libc}.

(** A reading fed to the sensor of one entry of a well-formed registry. *)
Lemma registrar_en_registro (txt : option (list ascii))
    (this : ListaGeneral) (w : Mundo) (es1 : list Entrada) (e : Entrada)
    (es2 : list Entrada) :
  registro_ok this w (es1 ++ e :: es2) →
  ∃ ok s' w1,
    registrarDesdeTexto txt (e_sensor e) w = Some (ok, s', w1) ∧
    (ok = true ↔
       match e_sensor e with
       | EsTemperatura _ => is_Some (txt ≫= sscanf_f)
       | EsPresion _ => is_Some (txt ≫= sscanf_d)
       end) ∧
    (ok = false → con_sensores (<[e_dir e := s']> (sensores w1)) w1 = w) ∧
    (ok = true →
       ∃ a,
         getNombre s' = getNombre (e_sensor e) ∧
         tipo_de s' = tipo_de (e_sensor e) ∧
         registro_ok this (con_sensores (<[e_dir e := s']> (sensores w1)) w1)
           (es1 ++ mkEntrada (e_nodo e) (e_dir e) s' (e_celdas e ++ [a]) :: es2) ∧
         (sin_fugas w (es1 ++ e :: es2) →
          sin_fugas (con_sensores (<[e_dir e := s']> (sensores w1)) w1)
            (es1 ++ mkEntrada (e_nodo e) (e_dir e) s' (e_celdas e ++ [a]) :: es2))).
Proof.
  intros [Hlista Hs Hnd Hnf Hni].
  pose proof Hs as Hs0. apply Forall_app in Hs0 as [_ Hs0].
  apply Forall_cons in Hs0 as [[He Hh] _].
  destruct (registrarDesdeTexto_spec txt e w Hh)
    as (ok & s' & w1 & Hrun & Hiff & Hno & Hsi).
  exists ok, s', w1. split; [done|]. split; [done|]. split.
  - intros Hf. destruct (Hno Hf) as [-> ->].
    rewrite insert_id by done. unfold con_sensores. apply mundo_eta.
  - intros Ht. destruct (Hsi Ht) as (a & Hh' & Hnom & Htipo & Hsen1 & Hg1 & Hmf & Hmi & Ha).
    exists a. split; [done|]. split; [done|].
    set (e' := mkEntrada (e_nodo e) (e_dir e) s' (e_celdas e ++ [a])).
    set (w2 := con_sensores (<[e_dir e := s']> (sensores w1)) w1).
    pose proof Hnd as Hnd0. rewrite fmap_app, fmap_cons in Hnd0.
    apply NoDup_app in Hnd0 as (_ & Hdd1 & Hnd2).
    apply NoDup_cons in Hnd2 as (Hdd2 & _).
    pose proof Hnf as Hnf0. pose proof Hni as Hni0.
    rewrite celdas_de_medio in Hnf0, Hni0.
    apply NoDup_app in Hnf0 as (_ & Hdf1 & Hnf2).
    apply NoDup_app in Hnf2 as (_ & Hdf2 & _).
    apply NoDup_app in Hni0 as (_ & Hdi1 & Hni2).
    apply NoDup_app in Hni2 as (_ & Hdi2 & _).
    assert (Hotros : ∀ e'', e'' ∈ es1 ++ es2 → sensor_en w e'' → sensor_en w2 e'').
    { intros e'' Hin [Hlook Hhist]. split.
      - subst w2. simpl. rewrite Hsen1. rewrite lookup_insert_ne; [done|].
        intros Heq. apply elem_of_app in Hin as [Hin|Hin].
        + eapply Hdd1; [by apply list_elem_of_fmap_2|]. rewrite <- Heq.
          apply list_elem_of_here.
        + apply Hdd2. rewrite Heq. by apply list_elem_of_fmap_2.
      - apply (historial_ok_marco _ w w2 _ (celdas_propias Temperatura e)
                 (celdas_propias Presion e)); [exact Hmf|exact Hmi| |exact Hhist].
        intros b Hb.
        assert (Hprop : ∀ t, tipo_de (e_sensor e'') = t → b ∉ celdas_propias t e).
        { intros t Ht' Hbe.
          assert (Hbp : b ∈ celdas_propias t e'') by (by apply celdas_propias_elem).
          apply elem_of_app in Hin as [Hin|Hin].
          - pose proof (celdas_de_elem t e'' es1 b Hin Hbp) as Hbh.
            destruct t.
            + eapply Hdf1; [exact Hbh|]. apply elem_of_app. by left.
            + eapply Hdi1; [exact Hbh|]. apply elem_of_app. by left.
          - pose proof (celdas_de_elem t e'' es2 b Hin Hbp) as Hbr.
            destruct t; [by eapply Hdf2|by eapply Hdi2]. }
        destruct (e_sensor e''); by apply Hprop. }
    assert (Hceldas : ∀ t, NoDup (celdas_de t (es1 ++ e :: es2)) →
              (tipo_de (e_sensor e) = t → a ∉ celdas_de t (es1 ++ e :: es2)) →
              NoDup (celdas_de t (es1 ++ e' :: es2))).
    { intros t Hn Hfresh. rewrite celdas_de_medio in Hn, Hfresh |- *.
      unfold celdas_propias in *. simpl. rewrite Htipo.
      destruct (decide (tipo_de (e_sensor e) = t)) as [Ht'|Ht']; [|done].
      rewrite <- (app_assoc (e_celdas e)). simpl.
      rewrite (app_assoc (celdas_de t es1)).
      rewrite <- Permutation_middle. apply NoDup_cons.
      rewrite <- app_assoc. split; [by apply Hfresh|done]. }
    split; [split|].
    + unfold celdas_registro in *. rewrite fmap_app, fmap_cons in *. simpl.
      apply (lista_ok_nodos _ (mem_g w)); [|done]. subst w2. simpl. by rewrite Hg1.
    + apply Forall_app. split; [|constructor].
      * apply Forall_forall. intros e'' Hin. apply Hotros.
        -- apply elem_of_app. by left.
        -- rewrite Forall_forall in Hs. apply Hs, elem_of_app. by left.
      * split; simpl.
        -- apply lookup_insert_eq.
        -- eapply historial_ok_ext; [|exact Hh']. by destruct s'.
      * apply Forall_forall. intros e'' Hin. apply Hotros.
        -- apply elem_of_app. by right.
        -- rewrite Forall_forall in Hs. apply Hs, elem_of_app. right.
           by apply list_elem_of_further.
    + by rewrite fmap_app, fmap_cons in *.
    + apply Hceldas; [done|]. intros Ht' Hin.
      destruct (celdas_de_asignadas w _ a Hs) as [Hal _].
      destruct (Hal Hin) as [x Hx]. destruct (e_sensor e); [|done].
      destruct Ha as [Ha _]. congruence.
    + apply Hceldas; [done|]. intros Ht' Hin.
      destruct (celdas_de_asignadas w _ a Hs) as [_ Hal].
      destruct (Hal Hin) as [x Hx]. destruct (e_sensor e); [done|].
      destruct Ha as [Ha _]. congruence.
    + intros (Hff & Hfi & Hfs & Hfg). unfold sin_fugas. subst w2. simpl.
      rewrite !celdas_de_medio in *. rewrite !length_app in *.
      unfold celdas_propias in *. simpl. rewrite Htipo.
      rewrite Hsen1, Hg1, map_size_insert_Some by (by rewrite He).
      destruct (e_sensor e); simpl in *; destruct Ha as (_ & Heq & Htam);
        rewrite ?Heq, ?Htam, ?length_app; simpl; repeat split; lia.
Qed.

(** A line whose identifier is that of [e] and of no entry before it. *)
Lemma procesarLineaSerial_en_entrada (l : list ascii) (coma : nat)
    (this : ListaGeneral) (w : Mundo) (es1 : list Entrada) (e : Entrada)
    (es2 : list Entrada) :
  registro_ok this w (es1 ++ e :: es2) →
  strchr l ","%char = Some coma →
  Forall (λ e', nombre_de e' ≠ texto_id l coma) es1 →
  nombre_de e = texto_id l coma →
  if valor_aceptado (e_sensor e) (serial_valor l coma) then
    ∃ w' s' a,
      procesarLineaSerial (Some l) this w = Some (true, w', []) ∧
      getNombre s' = getNombre (e_sensor e) ∧
      tipo_de s' = tipo_de (e_sensor e) ∧
      registro_ok this w'
        (es1 ++ mkEntrada (e_nodo e) (e_dir e) s' (e_celdas e ++ [a]) :: es2) ∧
      (sin_fugas w (es1 ++ e :: es2) →
       sin_fugas w'
         (es1 ++ mkEntrada (e_nodo e) (e_dir e) s' (e_celdas e ++ [a]) :: es2))
  else
    procesarLineaSerial (Some l) this w =
      Some (false, w,
            [SerialValorInvalido
               (string_of_list_ascii (texto_id l coma))
               (string_of_list_ascii (texto_valor l coma))]).
Proof.
  intros Hok Hs Hall He. unfold procesarLineaSerial. rewrite Hs.
  pose proof (serial_id_texto l coma Hs) as Hid.
  pose proof (serial_valor_texto l coma) as Hval.
  set (id := serial_id l coma) in *. set (valor := serial_valor l coma) in *.
  clearbody id valor.
  rewrite (buscarPorNombre_spec id this w _ Hok).
  rewrite find_primera; cycle 1.
  { eapply Forall_impl; [exact Hall|]. intros e' He'. simpl in He'.
    apply no_coincide. by rewrite Hid. }
  { unfold coincide. apply bool_decide_eq_true. by rewrite Hid. }
  simpl.
  destruct (registrar_en_registro (Some valor) this w es1 e es2 Hok)
    as (ok & s' & w1 & Hrun & Hiff & Hno & Hsi).
  destruct Hok as [_ Hsen _ _ _]. apply Forall_app in Hsen as [_ Hsen].
  apply Forall_cons in Hsen as [[Hlook _] _].
  rewrite Hlook. simpl. rewrite Hrun. simpl.
  assert (Hacc : valor_aceptado (e_sensor e) valor = ok).
  { unfold valor_aceptado. destruct (e_sensor e); simpl in Hiff;
      destruct ok; try (apply bool_decide_eq_true; by apply Hiff);
      apply bool_decide_eq_false; intros Hx; by apply Hiff in Hx. }
  rewrite Hacc. destruct ok.
  - destruct (Hsi eq_refl) as (a & Hnom & Htipo & Hreg & Hfug).
    by eexists _, s', a.
  - rewrite (Hno eq_refl). unfold impreso. by rewrite Hid, Hval.
Qed.

(** A line whose identifier is that of no entry. *)
Lemma procesarLineaSerial_sin_entrada (l : list ascii) (coma : nat)
    (this : ListaGeneral) (w : Mundo) (es : list Entrada) :
  registro_ok this w es →
  strchr l ","%char = Some coma →
  entrada_de_linea l coma es = None →
  procesarLineaSerial (Some l) this w =
    Some (false, w,
          [SerialIdNoEncontrado (string_of_list_ascii (texto_id l coma))]).
Proof.
  intros Hok Hs Hfind. unfold procesarLineaSerial, entrada_de_linea in *.
  rewrite Hs. pose proof (serial_id_texto l coma Hs) as Hid.
  set (id := serial_id l coma) in *. clearbody id.
  rewrite (buscarPorNombre_spec id this w es Hok). unfold coincide.
  rewrite Hid, Hfind. simpl. unfold impreso. by rewrite Hid.
Qed.

(** The entry that a line addresses, and the entries before it. *)
Lemma entrada_de_linea_Some (l : list ascii) (coma : nat) (es : list Entrada)
    (e : Entrada) :
  entrada_de_linea l coma es = Some e →
  ∃ es1 es2,
    es = es1 ++ e :: es2 ∧
    Forall (λ e', nombre_de e' ≠ texto_id l coma) es1 ∧
    nombre_de e = texto_id l coma.
Proof.
  intros Hfind. destruct (find_Some_split _ _ _ Hfind) as (es1 & es2 & -> & Hall & He).
  exists es1, es2. split; [done|]. split.
  - eapply Forall_impl; [exact Hall|]. intros e' He'. simpl in He'.
    by apply bool_decide_eq_false in He'.
  - by apply bool_decide_eq_true in He.
Qed.

End SerialRegistro.

(** ** Properties of [procesarLineaSerial] *)

Section SerialTeoremas.
Context `{!Libc}.

(** X13.  On a well-formed registry [procesarLineaSerial] returns, and it
    returns [true] exactly when the line is not null, has a comma, the
    text before the comma (63 characters at most) is the identifier of an
    entry, and the sensor of the first such entry takes the text after
    the comma.  It prints no serial message when it returns [true], and
    when it returns [false] memory is as it was. *)
Theorem procesarLineaSerial_verdadero_sii (linea : option (list ascii))
    (this : ListaGeneral) (w : Mundo) (es : list Entrada) :
  registro_ok this w es →
  ∃ ok w' out,
    procesarLineaSerial linea this w = Some (ok, w', out) ∧
    (ok = true ↔
       ∃ l coma e,
         linea = Some l ∧ strchr l ","%char = Some coma ∧
         entrada_de_linea l coma es = Some e ∧
         valor_aceptado (e_sensor e) (serial_valor l coma) = true) ∧
    (ok = true → out = []) ∧
    (ok = false → w' = w).
Proof.
  intros Hok. destruct linea as [l|]; cycle 1.
  { exists false, w, []. split; [done|]. split; [|done].
    split; [done|]. by intros (l & coma & e & [=] & _). }
  destruct (strchr l ","%char) as [coma|] eqn:Hs; cycle 1.
  { exists false, w, []. split; [by simpl; rewrite Hs|]. split; [|done].
    split; [done|]. intros (l' & coma & e & [= <-] & Hs' & _). congruence. }
  destruct (entrada_de_linea l coma es) as [e|] eqn:Hfind; cycle 1.
  { eexists false, w, _. split; [by apply (procesarLineaSerial_sin_entrada l coma this w es)|].
    split; [|done]. split; [done|].
    intros (l' & coma' & e & [= <-] & Hs' & Hf' & _). congruence. }
  destruct (entrada_de_linea_Some _ _ _ _ Hfind) as (es1 & es2 & -> & Hall & He).
  pose proof (procesarLineaSerial_en_entrada l coma this w es1 e es2 Hok Hs Hall He)
    as Hrun.
  destruct (valor_aceptado (e_sensor e) (serial_valor l coma)) eqn:Hacc.
  - destruct Hrun as (w' & s' & a & Hrun & _). exists true, w', [].
    split; [done|]. split; [|done]. split; [|done]. intros _. by exists l, coma, e.
  - eexists false, w, _. split; [exact Hrun|]. split; [|done]. split; [done|].
    intros (l' & coma' & e' & [= <-] & Hs' & Hf' & Hacc'). congruence.
Qed.


(** X15.  The lines that [procesarLineaSerial] refuses, and what it prints
    for each: nothing for a null line and for a line with no comma; the
    identifier, cut to 63 characters, when no entry has it; the
    identifier and the value, cut to 63 characters and without one final
    line feed or carriage return, when the sensor does not take the
    value.  In each case memory is as it was. *)
Theorem procesarLineaSerial_mensajes (this : ListaGeneral) (w : Mundo)
    (es : list Entrada) :
  registro_ok this w es →
  procesarLineaSerial None this w = Some (false, w, []) ∧
  (∀ l, strchr l ","%char = None →
        procesarLineaSerial (Some l) this w = Some (false, w, [])) ∧
  (∀ l coma,
     strchr l ","%char = Some coma →
     entrada_de_linea l coma es = None →
     procesarLineaSerial (Some l) this w =
       Some (false, w,
             [SerialIdNoEncontrado
                (string_of_list_ascii (take (Nat.min coma 63) l))])) ∧
  (∀ l coma e,
     strchr l ","%char = Some coma →
     entrada_de_linea l coma es = Some e →
     valor_aceptado (e_sensor e) (serial_valor l coma) = false →
     procesarLineaSerial (Some l) this w =
       Some (false, w,
             [SerialValorInvalido
                (string_of_list_ascii (take (Nat.min coma 63) l))
                (string_of_list_ascii
                   (sin_fin_de_linea (take 63 (c_str (drop (S coma) l)))))])).
Proof.
  intros Hok. split; [done|]. split; [|split].
  - intros l Hs. simpl. by rewrite Hs.
  - intros l coma Hs Hfind. by apply (procesarLineaSerial_sin_entrada l coma this w es).
  - intros l coma e Hs Hfind Hacc.
    destruct (entrada_de_linea_Some _ _ _ _ Hfind) as (es1 & es2 & -> & Hall & He).
    pose proof (procesarLineaSerial_en_entrada l coma this w es1 e es2 Hok Hs Hall He)
      as Hrun.
    by rewrite Hacc in Hrun.
Qed.

(** X16.  In a registry whose sensors have the identifier that the
    constructor stores, a line with 50 characters or more before the comma
    addresses no sensor: it is refused with the message of an identifier
    that was not found, whatever the value is. *)
Theorem procesarLineaSerial_id_de_50_o_mas (l : list ascii) (coma : nat)
    (this : ListaGeneral) (w : Mundo) (es : list Entrada) :
  registro_ok this w es →
  Forall (λ e, ∃ id, getNombre (e_sensor e) = SensorBase_ctor id) es →
  strchr l ","%char = Some coma →
  (50 ≤ coma)%nat →
  procesarLineaSerial (Some l) this w =
    Some (false, w,
          [SerialIdNoEncontrado (string_of_list_ascii (take (Nat.min coma 63) l))]).
Proof.
  intros Hok Hctor Hs Hlen.
  apply (procesarLineaSerial_sin_entrada l coma this w es); [done|done|].
  unfold entrada_de_linea.
  assert (Hcn : ","%char ≠ NUL) by (unfold NUL; congruence).
  destruct (strchr_spec _ _ _ Hcn Hs) as [_ Hlook].
  apply lookup_lt_Some in Hlook.
  assert (Hlargo : (50 ≤ length (texto_id l coma))%nat).
  { unfold texto_id. rewrite length_take. lia. }
  clear Hok. induction es as [|e es IH]; [done|].
  apply Forall_cons in Hctor as [[id Hid] Hctor]. simpl.
  rewrite bool_decide_eq_false_2; [by apply IH|].
  intros Heq. unfold nombre_de in Heq. rewrite Hid, getNombre_ctor in Heq.
  rewrite <- Heq, length_take in Hlargo. lia.
Qed.

End SerialTeoremas.

Lemma procesarLineaSerial_verdadero_sii_witness :
  registro_ok registro_dup mundo_dup entradas_dup ∧
  ∃ w',
    @procesarLineaSerial libc_decimal (Some (texto "S-2,85")) registro_dup mundo_dup
      = Some (true, w', []).
Proof.
  split; [exact registro_dup_ok|].
  destruct (@procesarLineaSerial_verdadero_sii libc_decimal (Some (texto "S-2,85"))
              registro_dup mundo_dup entradas_dup registro_dup_ok)
    as (ok & w' & out & Hrun & Hiff & Hout & _).
  assert (Hok : ok = true).
  { apply Hiff.
    exists (texto "S-2,85"), 3%nat,
      (mkEntrada 3%positive 3%positive (sensor_nuevo Presion (texto "S-2")) []).
    split; [reflexivity|]. split; [reflexivity|].
    split; vm_compute; reflexivity. }
  subst ok. rewrite (Hout eq_refl) in Hrun. by exists w'.
Defined.


Lemma procesarLineaSerial_mensajes_witness :
  registro_ok registro_dup mundo_dup entradas_dup ∧
  @procesarLineaSerial libc_decimal (Some (texto "X-9,5")) registro_dup mundo_dup
    = Some (false, mundo_dup, [SerialIdNoEncontrado "X-9"]) ∧
  @procesarLineaSerial libc_decimal (Some (texto "S-2,abc")) registro_dup mundo_dup
    = Some (false, mundo_dup, [SerialValorInvalido "S-2" "abc"]).
Proof.
  split; [exact registro_dup_ok|].
  destruct (@procesarLineaSerial_mensajes libc_decimal registro_dup mundo_dup
              entradas_dup registro_dup_ok) as (_ & _ & Hid & Hval).
  split.
  - apply (Hid (texto "X-9,5") 3%nat); vm_compute; reflexivity.
  - apply (Hval (texto "S-2,abc") 3%nat
             (mkEntrada 3%positive 3%positive (sensor_nuevo Presion (texto "S-2")) []));
      vm_compute; reflexivity.
Defined.

Lemma procesarLineaSerial_id_de_50_o_mas_witness :
  registro_ok registro_dup mundo_dup entradas_dup ∧
  @procesarLineaSerial libc_decimal (Some linea_id_largo) registro_dup mundo_dup
    = Some (false, mundo_dup,
            [SerialIdNoEncontrado (string_of_list_ascii (replicate 50 "A"%char))]).
Proof.
  split; [exact registro_dup_ok|].
  apply (@procesarLineaSerial_id_de_50_o_mas libc_decimal linea_id_largo 50%nat
           registro_dup mundo_dup entradas_dup registro_dup_ok).
  - repeat constructor; eexists; apply sensor_nuevo_nombre.
  - vm_compute. reflexivity.
  - lia.
Defined.

(** ** Sessions *)

(** A heap with as many cells as a list of distinct allocated locations
    has no other cell. *)
Lemma poseidas {A} (h : gmap loc A) (l : list loc) :
  NoDup l → (∀ b, b ∈ l → is_Some (h !! b)) → base.size h = length l →
  ∀ b, is_Some (h !! b) → b ∈ l.
Proof.
  intros Hnd Hal Hsz b Hb.
  assert (Heq : list_to_set l = (dom h : gset loc)).
  { apply set_subseteq_size_eq.
    - intros x Hx. apply elem_of_list_to_set in Hx. by apply elem_of_dom, Hal.
    - rewrite size_dom, size_list_to_set by done. lia. }
  apply elem_of_dom in Hb. rewrite <- Heq in Hb. by apply elem_of_list_to_set in Hb.
Qed.

Lemma liberados_todos {A} (h h' : gmap loc A) (l : list loc) :
  NoDup l → (∀ b, b ∈ l → is_Some (h !! b)) → base.size h = length l →
  (∀ a, h' !! a = if decide (a ∈ l) then None else h !! a) →
  h' = ∅.
Proof.
  intros Hnd Hal Hsz Hlib. apply map_empty. intros a. rewrite Hlib.
  destruct (decide (a ∈ l)) as [|Hn]; [done|].
  destruct (h !! a) eqn:Ha; [|done]. exfalso. apply Hn.
  apply (poseidas h l); [done..|]. by rewrite Ha.
Qed.

(** The invariants look at the heaps, not at the console. *)
Lemma sensor_en_memoria w w' e :
  nodos_f w' = nodos_f w → nodos_i w' = nodos_i w → sensores w' = sensores w →
  sensor_en w e → sensor_en w' e.
Proof.
  intros Hf Hi Hs [Hl Hh]. split; [by rewrite Hs|].
  destruct (e_sensor e); destruct Hh as (cs & Hok & Hcs); exists cs;
    (split; [|done]); (eapply lista_ok_nodos; [|exact Hok]); done.
Qed.

Lemma registro_ok_memoria this w w' es :
  nodos_f w' = nodos_f w → nodos_i w' = nodos_i w → sensores w' = sensores w →
  nodos_g w' = nodos_g w →
  registro_ok this w es → registro_ok this w' es.
Proof.
  intros Hf Hi Hs Hg [Hlista Hsen Hnd Hnf Hni]. split; [|  |done..].
  - by apply (lista_ok_nodos _ (mem_g w)).
  - eapply Forall_impl; [exact Hsen|]. intros e. by apply sensor_en_memoria.
Qed.

Lemma sin_fugas_memoria w w' es :
  nodos_f w' = nodos_f w → nodos_i w' = nodos_i w → sensores w' = sensores w →
  nodos_g w' = nodos_g w →
  sin_fugas w es → sin_fugas w' es.
Proof. unfold sin_fugas. by intros -> -> -> ->. Qed.

(** The objects that a well-formed registry with no leak owns are all
    the objects there are. *)
Lemma nodos_registro_asignados this w es b :
  registro_ok this w es → b ∈ e_nodo <$> es → is_Some (nodos_g w !! b).
Proof.
  intros [[Hl _ _ _] _ _ _ _] Hb. eapply lseg_alloc; [exact Hl|].
  unfold celdas_registro. by rewrite <- list_fmap_compose.
Qed.

Lemma sensores_asignados this w es b :
  registro_ok this w es → b ∈ e_dir <$> es → is_Some (sensores w !! b).
Proof.
  intros [_ Hs _ _ _] Hb. apply list_elem_of_fmap in Hb as (e & -> & He).
  rewrite Forall_forall in Hs. destruct (Hs e He) as [Hlook _]. by rewrite Hlook.
Qed.

(** ** Each call keeps the registry well formed and without leaks *)

Lemma mismo_sensor_refl e : mismo_sensor e e.
Proof. by repeat split. Qed.

Lemma mismo_sensor_trans e1 e2 e3 :
  mismo_sensor e1 e2 → mismo_sensor e2 e3 → mismo_sensor e1 e3.
Proof.
  intros (H1 & H2 & H3 & H4) (G1 & G2 & G3 & G4).
  repeat split; congruence.
Qed.

Lemma Forall2_mismo_sensor_refl es : Forall2 mismo_sensor es es.
Proof. induction es; constructor; [apply mismo_sensor_refl|done]. Qed.

Lemma registro_crece_refl es : registro_crece es es.
Proof.
  exists es, []. split; [by rewrite app_nil_r|apply Forall2_mismo_sensor_refl].
Qed.

Lemma registro_crece_trans es1 es2 es3 :
  registro_crece es1 es2 → registro_crece es2 es3 → registro_crece es1 es3.
Proof.
  intros (a & n1 & -> & H1) (b & n2 & -> & H2).
  apply Forall2_app_inv_l in H2 as (b1 & b2 & Hb1 & Hb2 & ->).
  exists b1, (b2 ++ n2). split; [by rewrite app_assoc|].
  clear Hb2. revert b1 Hb1. induction H1 as [|x y l l' Hxy _ IH]; intros b1 Hb1.
  - apply Forall2_nil_inv_l in Hb1 as ->. constructor.
  - apply Forall2_cons_inv_l in Hb1 as (z & b1' & Hyz & Hb1 & ->).
    constructor; [by eapply mismo_sensor_trans|by apply IH].
Qed.

Lemma procesadas_mismo_sensor es es' :
  Forall2 procesada es es' → Forall2 mismo_sensor es es'.
Proof.
  induction 1 as [|e e' es es' (H1 & H2 & H3 & H4 & _) _ IH]; constructor; [|done].
  by repeat split.
Qed.

Lemma crear_sensor_tam t id this w a this' w' :
  crear_sensor t id this w = Some (a, this', w') →
  nodos_f w' = nodos_f w ∧ nodos_i w' = nodos_i w ∧
  base.size (sensores w') = S (base.size (sensores w)) ∧
  base.size (nodos_g w') = S (base.size (nodos_g w)).
Proof.
  unfold crear_sensor, new_Sensor, ListaGeneral_push_back.
  destruct (push_back _ _ _) as [[th m]|] eqn:Hpb; [|done]. simpl.
  intros [= <- <- <-]. simpl. apply push_back_tam in Hpb. simpl in Hpb.
  split; [done|]. split; [done|]. split; [|done].
  apply map_size_insert_None, fresh_None.
Qed.

Section LlamadasSpec.
Context `{!Libc}.

Lemma llamar_spec (c : Llamada) (this : ListaGeneral) (w : Mundo)
    (es : list Entrada) :
  registro_ok this w es →
  ∃ this' w' es',
    llamar c this w = Some (this', w') ∧
    registro_ok this' w' es' ∧
    registro_crece es es' ∧
    (sin_fugas w es → sin_fugas w' es').
Proof.
  intros Hok. destruct c as [t id| | |linea]; cbn [llamar].
  - destruct (crear_sensor_spec t id this w es Hok)
      as (a & nodo & this' & w' & Hrun & _ & Hok').
    rewrite Hrun. simpl. eexists this', w', _. split; [done|]. split; [exact Hok'|].
    split.
    { exists es, [mkEntrada nodo a (sensor_nuevo t id) []].
      split; [done|apply Forall2_mismo_sensor_refl]. }
    destruct (crear_sensor_tam _ _ _ _ _ _ _ Hrun) as (Hf & Hi & Hs & Hg).
    intros (Hff & Hfi & Hfs & Hfg). unfold sin_fugas.
    rewrite !celdas_de_app, !length_app, Hf, Hi, Hs, Hg. simpl.
    unfold celdas_propias. simpl.
    destruct (decide (tipo_de (sensor_nuevo t id) = Temperatura));
      destruct (decide (tipo_de (sensor_nuevo t id) = Presion)); simpl;
      repeat split; lia.
  - destruct Hok as [Hlista Hs Hdirs Hcf Hci]. pose proof Hlista as [Hl Hc Hn Hnd].
    pose proof (lseg_length _ _ _ _ Hl Hnd) as Hlen.
    unfold celdas_registro in Hlen. rewrite length_fmap in Hlen.
    unfold procesarTodos.
    set (w0 := imprimir EjecutandoPolimorfismo w).
    destruct (procesarTodos_bucle_spec es (base.size (nodos_g w0)) w0 (cabeza this) [])
      as (w' & es' & evs & Hrun & Hproc & Hs' & Hnf' & Hni' & Hg' & _ & _
          & Htf & Hti & Hts);
      [done| |done|done|done|done|].
    { eapply Forall_impl; [exact Hs|]. intros e. apply sensor_en_imprimir. }
    rewrite Hrun. simpl.
    destruct (procesada_mismas_celdas es es' Hproc) as [Hd' Hcr'].
    exists this, w', es'. split; [done|]. split; [|split].
    + split; [|done| |done|done].
      * rewrite Hcr'. apply (lista_ok_nodos _ (mem_g w)); [|done]. simpl. by rewrite Hg'.
      * by rewrite Hd'.
    + exists es', []. split; [by rewrite app_nil_r|].
      by apply procesadas_mismo_sensor.
    + intros (Hff & Hfi & Hfs & Hfg). unfold sin_fugas.
      apply Forall2_length in Hproc. simpl in Htf, Hti, Hts, Hg'.
      rewrite Hg', Hts, <- Hproc. repeat split; lia.
  - pose proof Hok as [[Hl Hc Hn Hnd] Hs _ _ _]. unfold imprimirResumen.
    pose proof (lseg_length _ _ _ _ Hl Hnd) as Hlen.
    unfold celdas_registro in Hlen. rewrite length_fmap in Hlen.
    rewrite (imprimirResumen_bucle_spec es); [|done| |done]; cycle 1.
    { eapply Forall_impl; [exact Hs|]. intros e'. apply sensor_en_imprimir. }
    simpl. eexists this, _, es. split; [done|].
    split; [by apply (registro_ok_memoria this w)|].
    split; [apply registro_crece_refl|]. by apply sin_fugas_memoria.
  - destruct linea as [l|]; cycle 1.
    { exists this, w, es. split; [done|]. split; [done|].
      split; [apply registro_crece_refl|done]. }
    destruct (strchr l ","%char) as [coma|] eqn:Hs; cycle 1.
    { exists this, w, es. simpl. rewrite Hs. split; [done|]. split; [done|].
      split; [apply registro_crece_refl|done]. }
    destruct (entrada_de_linea l coma es) as [e|] eqn:Hfind; cycle 1.
    { rewrite (procesarLineaSerial_sin_entrada l coma this w es Hok Hs Hfind). simpl.
      exists this, w, es. split; [done|]. split; [done|].
      split; [apply registro_crece_refl|done]. }
    destruct (entrada_de_linea_Some _ _ _ _ Hfind) as (es1 & es2 & -> & Hall & He).
    pose proof (procesarLineaSerial_en_entrada l coma this w es1 e es2 Hok Hs Hall He)
      as Hrun.
    destruct (valor_aceptado (e_sensor e) (serial_valor l coma)).
    + destruct Hrun as (w' & s' & a & Hrun & Hnom & Htipo & Hreg & Hfug).
      rewrite Hrun. simpl. eexists this, w', _. split; [done|].
      split; [exact Hreg|]. split; [|exact Hfug].
      eexists _, []. split; [by rewrite app_nil_r|].
      apply Forall2_app; [apply Forall2_mismo_sensor_refl|].
      constructor; [by repeat split|apply Forall2_mismo_sensor_refl].
    + rewrite Hrun. simpl. exists this, w, (es1 ++ e :: es2).
      split; [done|]. split; [done|]. split; [apply registro_crece_refl|done].
Qed.

Lemma llamar_todas_spec (cs : list Llamada) : ∀ this w es,
  registro_ok this w es →
  ∃ this' w' es',
    llamar_todas cs this w = Some (this', w') ∧
    registro_ok this' w' es' ∧
    registro_crece es es' ∧
    (sin_fugas w es → sin_fugas w' es').
Proof.
  induction cs as [|c cs IH]; intros this w es Hok.
  - exists this, w, es. split; [done|]. split; [done|].
    split; [apply registro_crece_refl|done].
  - destruct (llamar_spec c this w es Hok) as (this1 & w1 & es1 & Hrun & Hok1 & Hc1 & Hf1).
    destruct (IH this1 w1 es1 Hok1) as (this2 & w2 & es2 & Hruns & Hok2 & Hc2 & Hf2).
    exists this2, w2, es2. simpl. rewrite Hrun. simpl.
    split; [done|]. split; [done|].
    split; [by eapply registro_crece_trans|]. auto.
Qed.

End LlamadasSpec.

(** The destructor of a registry with no leak leaves nothing allocated. *)
Lemma ListaGeneral_dtor_vacia this w es :
  registro_ok this w es → sin_fugas w es →
  ∃ w',
    ListaGeneral_dtor this w = Some (mkLista None None 0, w') ∧
    nodos_f w' = ∅ ∧ nodos_i w' = ∅ ∧ sensores w' = ∅ ∧ nodos_g w' = ∅.
Proof.
  intros Hok (Hff & Hfi & Hfs & Hfg). unfold ListaGeneral_dtor.
  pose proof Hok as [Hlista Hs Hdirs Hcf Hci].
  pose proof Hlista as [Hl Hc Hn Hnd].
  assert (Hnn : NoDup (e_nodo <$> es)).
  { unfold celdas_registro in Hnd. by rewrite <- list_fmap_compose in Hnd. }
  assert (Hvacio : ∀ w1,
    (∀ a, sensores w1 !! a =
          if decide (a ∈ e_dir <$> es) then None else sensores w !! a) →
    (∀ a, nodos_g w1 !! a =
          if decide (a ∈ e_nodo <$> es) then None else nodos_g w !! a) →
    (∀ a, nodos_f w1 !! a =
          if decide (a ∈ celdas_de Temperatura es) then None else nodos_f w !! a) →
    (∀ a, nodos_i w1 !! a =
          if decide (a ∈ celdas_de Presion es) then None else nodos_i w !! a) →
    nodos_f w1 = ∅ ∧ nodos_i w1 = ∅ ∧ sensores w1 = ∅ ∧ nodos_g w1 = ∅).
  { intros w1 Hsen Hg Hf Hi. split; [|split; [|split]].
    - apply (liberados_todos (nodos_f w) _ (celdas_de Temperatura es)); [done| |done|done].
      intros b Hb. by apply (celdas_de_asignadas w es b Hs).
    - apply (liberados_todos (nodos_i w) _ (celdas_de Presion es)); [done| |done|done].
      intros b Hb. by apply (celdas_de_asignadas w es b Hs).
    - apply (liberados_todos (sensores w) _ (e_dir <$> es)); [done| | |done].
      + intros b Hb. by eapply sensores_asignados.
      + by rewrite length_fmap.
    - apply (liberados_todos (nodos_g w) _ (e_nodo <$> es)); [done| | |done].
      + intros b Hb. by eapply nodos_registro_asignados.
      + by rewrite length_fmap. }
  destruct es as [|e es].
  - simpl in Hl, Hc, Hn.
    assert (Hthis : this = mkLista None None 0).
    { destruct this as [cab col k]. simpl in *. by subst. }
    subst this. exists w. split; [done|].
    apply Hvacio; apply lookup_liberado_ninguno.
  - pose proof (lseg_length _ _ _ _ Hl Hnd) as Hlen.
    unfold celdas_registro in Hlen. rewrite length_fmap in Hlen.
    assert (Hcab : is_Some (cabeza this)).
    { destruct Hl as (-> & _). by eexists. }
    destruct Hcab as [cab Hcab].
    set (w0 := imprimir LiberacionEnCascada w).
    destruct (liberarTodo_bucle_spec (e :: es) (base.size (nodos_g w0)) w0 (cabeza this))
      as (w1 & Hrun & Hout & Hsen & Hg & Hf & Hi); [done|done| |done|done|done|done|].
    { eapply Forall_impl; [exact Hs|]. intros e'. apply sensor_en_imprimir. }
    exists (imprimir SistemaCerrado w1). split.
    { unfold liberarTodo. rewrite Hcab. fold w0. rewrite <- Hcab, Hrun. done. }
    by apply Hvacio.
Qed.

Lemma find_mismo_sensor id es es0 :
  Forall2 mismo_sensor es es0 →
  e_dir <$> List.find (coincide id) es0 = e_dir <$> List.find (coincide id) es.
Proof.
  induction 1 as [|e e' es es0 (_ & Hd & Hn & _) _ IH]; [done|].
  change (List.find (coincide id) (e' :: es0))
    with (if coincide id e' then Some e' else List.find (coincide id) es0).
  change (List.find (coincide id) (e :: es))
    with (if coincide id e then Some e else List.find (coincide id) es).
  assert (Hco : coincide id e' = coincide id e).
  { unfold coincide, nombre_de. by rewrite Hn. }
  rewrite Hco. destruct (coincide id e); [|done]. simpl. by rewrite Hd.
Qed.

Lemma sin_fugas_vacio : sin_fugas mundo_vacio [].
Proof. by repeat split. Qed.

(** ** Properties of sessions *)

(** X17.  Whatever calls a session makes on its registry (sensors
    created, lines injected, processing passes, summaries), every call
    returns, and when the destructor of the registry has run nothing is
    left allocated: no node of a list of readings of either type, no
    sensor, no node of the registry. *)
Theorem sesion_sin_fugas `{!Libc} (cs : list Llamada) :
  ∃ w,
    sesion cs = Some (mkLista None None 0, w) ∧
    nodos_f w = ∅ ∧ nodos_i w = ∅ ∧ sensores w = ∅ ∧ nodos_g w = ∅.
Proof.
  unfold sesion.
  destruct (llamar_todas_spec cs ListaGeneral_ctor mundo_vacio []
              (registro_vacio_ok mundo_vacio))
    as (this & w & es & Hrun & Hok & _ & Hfug).
  rewrite Hrun. simpl.
  destruct (ListaGeneral_dtor_vacia this w es Hok (Hfug sin_fugas_vacio))
    as (w' & Hdtor & Hvacio).
  by exists w'.
Qed.

(** X18.  Calls on a well-formed registry return and leave it well
    formed; the sensors it had stay, in their order, each at its address
    with its identifier and its type, and new sensors go after them.  So
    the sensor that [buscarPorNombre] returns for an identifier is the
    same after the calls. *)
Theorem llamadas_conservan_sensores `{!Libc} (cs : list Llamada)
    (this : ListaGeneral) (w : Mundo) (es : list Entrada) :
  registro_ok this w es →
  ∃ this' w' es',
    llamar_todas cs this w = Some (this', w') ∧
    registro_ok this' w' es' ∧
    registro_crece es es' ∧
    ∀ id a,
      buscarPorNombre id this w = Some (Some a) →
      buscarPorNombre id this' w' = Some (Some a).
Proof.
  intros Hok.
  destruct (llamar_todas_spec cs this w es Hok)
    as (this' & w' & es' & Hrun & Hok' & Hcrece & _).
  exists this', w', es'. split; [done|]. split; [done|]. split; [done|].
  intros id a. rewrite (buscarPorNombre_spec id this w es Hok).
  rewrite (buscarPorNombre_spec id this' w' es' Hok').
  destruct Hcrece as (es0 & nuevos & -> & Hmismo).
  rewrite find_app. pose proof (find_mismo_sensor id es es0 Hmismo) as Hfind.
  intros [= Ha]. rewrite <- Hfind in Ha.
  destruct (List.find (coincide id) es0) as [e0|]; [|done].
  simpl in Ha |- *. congruence.
Qed.

Lemma llamadas_conservan_sensores_witness :
  registro_ok registro_dup mundo_dup entradas_dup ∧
  ∃ this' w',
    @llamar_todas libc_decimal
      [InyectarLinea (Some (texto "S-2,85")); ProcesarTodos;
       CrearSensor Temperatura (texto "S-2")]
      registro_dup mundo_dup = Some (this', w') ∧
    buscarPorNombre (texto "S-2") this' w' = Some (Some 3%positive).
Proof.
  split; [exact registro_dup_ok|].
  destruct (@llamadas_conservan_sensores libc_decimal
              [InyectarLinea (Some (texto "S-2,85")); ProcesarTodos;
               CrearSensor Temperatura (texto "S-2")]
              registro_dup mundo_dup entradas_dup registro_dup_ok)
    as (this' & w' & es' & Hrun & _ & _ & Hbuscar).
  exists this', w'. split; [exact Hrun|]. apply Hbuscar. vm_compute. reflexivity.
Defined.
